(** * Snakes and Ladders: a shallow embedding of [SnakeAndLadder.cpp]

    The development follows the source file top to bottom: the observer
    interface, the dice, the board entities, the board, the three board
    setup strategies, the player, the rules and the game engine.  Every
    definition keeps the name of the C++ function it embeds. *)

From Stdlib Require Import ZArith QArith_base Ascii DecimalString.
From stdpp Require Import gmap list strings.

Local Open Scope Z_scope.

(** ** The C++ [int]

    [int] is a 32-bit two's complement integer.  Signed overflow is
    undefined in C++; the model takes the wrap-around that the usual
    targets produce and writes it out.  The remainder truncates towards
    zero, and is undefined for a zero divisor and for [INT_MIN % -1]. *)

Definition INT_MIN : Z := - 2 ^ 31.
Definition INT_MAX : Z := 2 ^ 31 - 1.

Definition int_wrap (z : Z) : Z := (z + 2 ^ 31) mod 2 ^ 32 - 2 ^ 31.

Definition int_range (z : Z) : Prop := INT_MIN <= z <= INT_MAX.

Definition int_add (a b : Z) : Z := int_wrap (a + b).
Definition int_sub (a b : Z) : Z := int_wrap (a - b).
Definition int_mul (a b : Z) : Z := int_wrap (a * b).

Definition int_rem (a b : Z) : option Z :=
  if (b =? 0) || ((a =? INT_MIN) && (b =? -1)) then None else Some (Z.rem a b).

(** [std::to_string(int)] and [operator<<(ostream&, int)]: the decimal
    numeral, with a leading minus sign for a negative number. *)
Definition to_string (z : Z) : string := NilZero.string_of_int (Z.to_int z).

(** [std::endl] and the escape [\n] both write a line feed. *)
Definition endl : string := String (ascii_of_nat 10) EmptyString.

(** ** Observable events

    The program writes to standard output ([cout]) and calls
    [IObserver::update] on registered observers.  Observers are external
    collaborators, identified here by the address they were registered
    with; what an observer does with a message is not modelled. *)

Inductive event : Type :=
  | Cout (text : string)
  | Update (observer : nat) (msg : string).

(** ** Board entities (source lines 41-100)

    [Snake] and [Ladder] are the two subclasses of [BoardEntity]; the only
    thing that tells them apart after construction is the virtual
    [name()]. *)

Inductive EntityKind : Type := SNAKE | LADDER.

Record BoardEntity : Type := mkBoardEntity {
  kind : EntityKind;
  startIndex : Z;
  endIndex : Z
}.

Definition getStart (e : BoardEntity) : Z := startIndex e.
Definition getEnd (e : BoardEntity) : Z := endIndex e.

Definition name (e : BoardEntity) : string :=
  match kind e with SNAKE => "SNAKE" | LADDER => "LADDER" end.

Definition BoardEntity_display (e : BoardEntity) : list event :=
  match kind e with
  | SNAKE => [Cout ("Snake: " +:+ to_string (startIndex e) +:+ " -> "
                    +:+ to_string (endIndex e) +:+ endl)]
  | LADDER => [Cout ("Ladder: " +:+ to_string (startIndex e) +:+ " -> "
                     +:+ to_string (endIndex e) +:+ endl)]
  end.

(** The constructors return the object together with what they print.
    The base-class constructor stores [start] and [end] before the
    subclass body runs its check, and the check only prints. *)

Definition Snake (start end_ : Z) : BoardEntity * list event :=
  (mkBoardEntity SNAKE start end_,
   if end_ >=? start
   then [Cout ("Invalid snake configuration: endIndex must be less than startIndex."
               +:+ endl)]
   else []).

Definition Ladder (start end_ : Z) : BoardEntity * list event :=
  (mkBoardEntity LADDER start end_,
   if end_ <=? start
   then [Cout ("Invalid ladder configuration: endIndex must be greater than startIndex."
               +:+ endl)]
   else []).

(** ** The board (source lines 105-172)

    [entityMap] is the [std::map<int, BoardEntity*>]; [entitiesList] is the
    vector the entities are also pushed to.  Entities are immutable once
    constructed, so the model stores them by value. *)

Record Board : Type := mkBoard {
  cellCount : Z;
  entitiesList : list BoardEntity;
  entityMap : gmap Z BoardEntity
}.

Definition Board_new (s : Z) : Board :=
  mkBoard (int_mul s s) [] ∅.

Definition canAddEntity (b : Board) (position : Z) : bool :=
  match entityMap b !! position with
  | None => true
  | Some _ => false
  end.

Definition addBoardEntity (b : Board) (boardEntity : BoardEntity) : Board :=
  if canAddEntity b (getStart boardEntity)
  then mkBoard (cellCount b)
               (entitiesList b ++ [boardEntity])
               (<[getStart boardEntity := boardEntity]> (entityMap b))
  else b.

(** [getEntity] guards [entityMap[position]] by a [find], so the
    subscript never inserts a default entry: the board is not changed. *)
Definition getEntity (b : Board) (position : Z) : option BoardEntity :=
  match entityMap b !! position with
  | Some e => Some e
  | None => None
  end.

Definition getBoardSize (b : Board) : Z := cellCount b.

(** [Board::display]: the two counters are filled in one pass (anything
    whose name is not SNAKE counts as a ladder), then the snakes and the
    ladders are listed in insertion order. *)

Definition is_named (n : string) (e : BoardEntity) : bool := String.eqb (name e) n.

Definition display_counts (l : list BoardEntity) : Z * Z :=
  fold_left (fun '(snakeCount, ladderCount) entity =>
               if is_named "SNAKE" entity
               then (int_add snakeCount 1, ladderCount)
               else (snakeCount, int_add ladderCount 1))
            l (0, 0).

Definition Board_display (b : Board) : list event :=
  let '(snakeCount, ladderCount) := display_counts (entitiesList b) in
  [Cout (endl +:+ "=== Board Configuration ===" +:+ endl);
   Cout ("Total Cells: " +:+ to_string (cellCount b) +:+ endl);
   Cout (endl +:+ "Snakes: " +:+ to_string snakeCount +:+ endl)]
  ++ concat (map BoardEntity_display (filter (λ e, is_named "SNAKE" e = true) (entitiesList b)))
  ++ [Cout (endl +:+ "Ladders: " +:+ to_string ladderCount +:+ endl)]
  ++ concat (map BoardEntity_display (filter (λ e, is_named "LADDER" e = true) (entitiesList b)))
  ++ [Cout ("=========================" +:+ endl)].

(** ** Players (source lines 364-395) *)

Record SnakeAndLadderPlayer : Type := mkPlayer {
  id : Z;
  playerName : string;
  currentPosition : Z;
  winCount : Z
}.

Definition SnakeAndLadderPlayer_new (playerId : Z) (n : string) : SnakeAndLadderPlayer :=
  mkPlayer playerId n 0 0.

Definition getName (p : SnakeAndLadderPlayer) : string := playerName p.
Definition getPosition (p : SnakeAndLadderPlayer) : Z := currentPosition p.
Definition getScore (p : SnakeAndLadderPlayer) : Z := winCount p.

Definition setPosition (pos : Z) (p : SnakeAndLadderPlayer) : SnakeAndLadderPlayer :=
  mkPlayer (id p) (playerName p) pos (winCount p).

Definition incrementScore (p : SnakeAndLadderPlayer) : SnakeAndLadderPlayer :=
  mkPlayer (id p) (playerName p) (currentPosition p) (int_add (winCount p) 1).

(** ** Rules (source lines 406-426) *)

Definition isValidMove (currentPos diceValue boardSize : Z) : bool :=
  int_add currentPos diceValue <=? boardSize.

Definition calculateNewPosition (currentPos diceValue : Z) (board : Board) : Z :=
  let newPos := int_add currentPos diceValue in
  match getEntity board newPos with
  | Some entity => getEnd entity
  | None => newPos
  end.

Definition checkWinCondition (position boardSize : Z) : bool :=
  position =? boardSize.

(** ** The program state

    One record holds everything the program can reach: the values the C
    library's [rand()] is going to return (the random source is an input of
    the model), the board, and the fields of [SnakeAndLadderGame].

    The turn queue is a [deque<SnakeAndLadderPlayer*>]: it holds addresses,
    and the players live in [playerHeap].  The same address may be queued
    more than once; a write through one occurrence is seen through all. *)

Record World : Type := mkWorld {
  rands : list Z;
  gameBoard : Board;
  faceCount : Z;
  turnQueue : list nat;
  subscriberList : list nat;
  isGameOver : bool;
  playerHeap : gmap nat SnakeAndLadderPlayer
}.

Definition set_rands (l : list Z) (w : World) : World :=
  mkWorld l (gameBoard w) (faceCount w) (turnQueue w) (subscriberList w)
          (isGameOver w) (playerHeap w).
Definition set_gameBoard (b : Board) (w : World) : World :=
  mkWorld (rands w) b (faceCount w) (turnQueue w) (subscriberList w)
          (isGameOver w) (playerHeap w).
Definition set_turnQueue (q : list nat) (w : World) : World :=
  mkWorld (rands w) (gameBoard w) (faceCount w) q (subscriberList w)
          (isGameOver w) (playerHeap w).
Definition set_subscriberList (l : list nat) (w : World) : World :=
  mkWorld (rands w) (gameBoard w) (faceCount w) (turnQueue w) l
          (isGameOver w) (playerHeap w).
Definition set_isGameOver (g : bool) (w : World) : World :=
  mkWorld (rands w) (gameBoard w) (faceCount w) (turnQueue w) (subscriberList w)
          g (playerHeap w).
Definition set_playerHeap (h : gmap nat SnakeAndLadderPlayer) (w : World) : World :=
  mkWorld (rands w) (gameBoard w) (faceCount w) (turnQueue w) (subscriberList w)
          (isGameOver w) h.

(** ** A state, output and failure monad

    A computation runs on the program state, appends to the trace of
    events, and either returns or halts.  It halts when the C++ program has
    no defined behaviour ([Undefined]) or when the model has no further
    [rand()] value to hand out ([RandExhausted]): the state and trace
    reached so far are kept in both cases. *)

Inductive halt : Type := Undefined | RandExhausted.

Inductive outcome (A : Type) : Type :=
  | Ret (a : A)
  | Halt (h : halt).
Arguments Ret {A} a.
Arguments Halt {A} h.

Definition M (A : Type) : Type := World → outcome A * World * list event.

Definition ret {A} (a : A) : M A := λ w, (Ret a, w, []).

Definition bind {A B} (f : A → M B) (m : M A) : M B :=
  λ w, match m w with
       | (Ret a, w1, t1) =>
           match f a w1 with (o, w2, t2) => (o, w2, t1 ++ t2) end
       | (Halt h, w1, t1) => (Halt h, w1, t1)
       end.

#[global] Instance M_ret : MRet M := @ret.
#[global] Instance M_bind : MBind M := @bind.

Definition halt_with {A} (h : halt) : M A := λ w, (Halt h, w, []).
Definition gets {A} (f : World → A) : M A := λ w, (Ret (f w), w, []).
Definition modify (f : World → World) : M unit := λ w, (Ret tt, f w, []).
Definition emit (t : list event) : M unit := λ w, (Ret tt, w, t).
Definition cout (text : string) : M unit := emit [Cout text].

(** An operation that is undefined when [o] is [None]. *)
Definition defined {A} (o : option A) : M A :=
  match o with Some a => ret a | None => halt_with Undefined end.

(** [rand()]: the next value of the supply. *)
Definition rand : M Z :=
  λ w, match rands w with
       | r :: rest => (Ret r, set_rands rest w, [])
       | [] => (Halt RandExhausted, w, [])
       end.

Definition world_of {A} (r : outcome A * World * list event) : World := snd (fst r).
Definition trace_of {A} (r : outcome A * World * list event) : list event := snd r.
Definition outcome_of {A} (r : outcome A * World * list event) : outcome A := fst (fst r).

(** ** Board setup strategies (source lines 175-361)

    The strategies work on the board they are handed; in the model that is
    the board of the program state. *)

Definition board_canAddEntity (position : Z) : M bool :=
  gets (λ w, canAddEntity (gameBoard w) position).

Definition board_addBoardEntity (e : BoardEntity) : M unit :=
  modify (λ w, set_gameBoard (addBoardEntity (gameBoard w) e) w).

Definition new_Snake (start end_ : Z) : M BoardEntity :=
  emit (Snake start end_).2;; mret (Snake start end_).1.

Definition new_Ladder (start end_ : Z) : M BoardEntity :=
  emit (Ladder start end_).2;; mret (Ladder start end_).1.

Inductive Difficulty : Type := EASY | MEDIUM | HARD.

Record CustomCount : Type := mkCustomCount {
  snakeCount : Z;
  ladderCount : Z;
  useRandomPlacement : bool;
  snakePlacements : list (Z * Z);
  ladderPlacements : list (Z * Z)
}.

Definition CustomCount_new (snakes ladders : Z) (random : bool) : CustomCount :=
  mkCustomCount snakes ladders random [] [].

Definition addSnakePosition (start end_ : Z) (c : CustomCount) : CustomCount :=
  mkCustomCount (snakeCount c) (ladderCount c) (useRandomPlacement c)
                (snakePlacements c ++ [(start, end_)]) (ladderPlacements c).

Definition addLadderPosition (start end_ : Z) (c : CustomCount) : CustomCount :=
  mkCustomCount (snakeCount c) (ladderCount c) (useRandomPlacement c)
                (snakePlacements c) (ladderPlacements c ++ [(start, end_)]).

Inductive BoardSetupStrategy : Type :=
  | RandomBoardSetupStrategy (difficulty : Difficulty)
  | CustomCountBoardSetupStrategy (c : CustomCount)
  | StandardBoardSetupStrategy.

(** Run [body] for each element of [l], in order. *)
Fixpoint for_each {A} (l : list A) (body : A → M unit) : M unit :=
  match l with
  | [] => mret tt
  | x :: rest => body x;; for_each rest body
  end.

Section Strategies.

(** The random strategy compares [(double)rand() / RAND_MAX] with a
    probability in double precision.  The comparison is taken as given:
    [below r p] says whether the draw [r] falls below the probability
    [p]. *)
Variable below : Z → Q → bool.

(** One pass of the snake placement: draw a start and an end. *)
Definition draw_snake (totalCells : Z) : M (Z * Z) :=
  r1 ← rand;
  m1 ← defined (int_rem r1 (int_sub totalCells 10));
  let startIdx := int_add m1 10 in
  r2 ← rand;
  m2 ← defined (int_rem r2 (int_sub startIdx 1));
  let endIdx := int_add m2 1 in
  mret (startIdx, endIdx).

Definition draw_ladder (totalCells : Z) : M (Z * Z) :=
  r1 ← rand;
  m1 ← defined (int_rem r1 (int_sub totalCells 10));
  let startIdx := int_add m1 1 in
  r2 ← rand;
  m2 ← defined (int_rem r2 (int_sub totalCells startIdx));
  let endIdx := int_add (int_add m2 startIdx) 1 in
  mret (startIdx, endIdx).

(** [while(attemptCount < 50)] with [n] attempts left. *)
Fixpoint snake_attempts (n : nat) (totalCells : Z) : M unit :=
  match n with
  | O => mret tt
  | S n' =>
      '(startIdx, endIdx) ← draw_snake totalCells;
      free ← board_canAddEntity startIdx;
      if (free : bool)
      then e ← new_Snake startIdx endIdx; board_addBoardEntity e
      else snake_attempts n' totalCells
  end.

Fixpoint ladder_attempts (n : nat) (totalCells : Z) : M unit :=
  match n with
  | O => mret tt
  | S n' =>
      '(startIdx, endIdx) ← draw_ladder totalCells;
      free ← board_canAddEntity startIdx;
      if (free : bool) && (endIdx <? totalCells)
      then e ← new_Ladder startIdx endIdx; board_addBoardEntity e
      else ladder_attempts n' totalCells
  end.

Definition setupWithProbability (snakeProbability : Q) : M unit :=
  totalCells ← gets (λ w, getBoardSize (gameBoard w));
  let entityCount := Z.quot totalCells 10 in
  for_each (seq 0 (Z.to_nat entityCount)) (λ _,
    r ← rand;
    if below r snakeProbability
    then snake_attempts 50 totalCells
    else ladder_attempts 50 totalCells).

Definition RandomBoardSetupStrategy_setupBoard (difficulty : Difficulty) : M unit :=
  match difficulty with
  | EASY => setupWithProbability (3 # 10)%Q
  | MEDIUM => setupWithProbability (5 # 10)%Q
  | HARD => setupWithProbability (7 # 10)%Q
  end.

(** [CustomCountBoardSetupStrategy::setupBoard], random placement: the
    loops run until the requested count is reached and have no retry
    cap.  Every pass draws from [rand()], so a loop over a supply of [n]
    values makes at most [n] passes before the supply is exhausted; the
    model gives it [S n] passes. *)

Fixpoint custom_snakes (passes : nat) (snakesAdded snakeCount totalCells : Z) : M unit :=
  if snakesAdded <? snakeCount then
    match passes with
    | O => halt_with RandExhausted
    | S passes' =>
        '(startIdx, endIdx) ← draw_snake totalCells;
        free ← board_canAddEntity startIdx;
        if (free : bool)
        then e ← new_Snake startIdx endIdx;
             board_addBoardEntity e;;
             custom_snakes passes' (int_add snakesAdded 1) snakeCount totalCells
        else custom_snakes passes' snakesAdded snakeCount totalCells
    end
  else mret tt.

Fixpoint custom_ladders (passes : nat) (laddersAdded ladderCount totalCells : Z) : M unit :=
  if laddersAdded <? ladderCount then
    match passes with
    | O => halt_with RandExhausted
    | S passes' =>
        '(startIdx, endIdx) ← draw_ladder totalCells;
        free ← board_canAddEntity startIdx;
        if (free : bool) && (endIdx <? totalCells)
        then e ← new_Ladder startIdx endIdx;
             board_addBoardEntity e;;
             custom_ladders passes' (int_add laddersAdded 1) ladderCount totalCells
        else custom_ladders passes' laddersAdded ladderCount totalCells
    end
  else mret tt.

Definition CustomCountBoardSetupStrategy_setupBoard (c : CustomCount) : M unit :=
  if useRandomPlacement c then
    totalCells ← gets (λ w, getBoardSize (gameBoard w));
    n ← gets (λ w, length (rands w));
    custom_snakes (S n) 0 (snakeCount c) totalCells;;
    n ← gets (λ w, length (rands w));
    custom_ladders (S n) 0 (ladderCount c) totalCells
  else
    for_each (snakePlacements c) (λ pos,
      free ← board_canAddEntity pos.1;
      if (free : bool)
      then e ← new_Snake pos.1 pos.2; board_addBoardEntity e
      else mret tt);;
    for_each (ladderPlacements c) (λ pos,
      free ← board_canAddEntity pos.1;
      if (free : bool)
      then e ← new_Ladder pos.1 pos.2; board_addBoardEntity e
      else mret tt).

(** [StandardBoardSetupStrategy::setupBoard]: the traditional layout, for
    a board of 100 cells only. *)

Definition standard_snakes : list (Z * Z) :=
  [(99, 54); (95, 75); (92, 88); (89, 68); (74, 53);
   (64, 60); (62, 19); (49, 11); (46, 25); (16, 6)].

Definition standard_ladders : list (Z * Z) :=
  [(2, 38); (7, 14); (8, 31); (15, 26); (21, 42); (28, 84);
   (36, 44); (51, 67); (71, 91); (78, 98); (87, 94)].

Definition StandardBoardSetupStrategy_setupBoard : M unit :=
  size ← gets (λ w, getBoardSize (gameBoard w));
  if negb (size =? 100) then
    cout ("Standard configuration supports only a 10x10 board (100 cells)." +:+ endl)
  else
    for_each standard_snakes (λ pos,
      e ← new_Snake pos.1 pos.2; board_addBoardEntity e);;
    for_each standard_ladders (λ pos,
      e ← new_Ladder pos.1 pos.2; board_addBoardEntity e).

(** [Board::setupBoard(strategy)]: the virtual call. *)
Definition setupBoard (strategy : BoardSetupStrategy) : M unit :=
  match strategy with
  | RandomBoardSetupStrategy d => RandomBoardSetupStrategy_setupBoard d
  | CustomCountBoardSetupStrategy c => CustomCountBoardSetupStrategy_setupBoard c
  | StandardBoardSetupStrategy => StandardBoardSetupStrategy_setupBoard
  end.

End Strategies.

(** ** Dice (source lines 26-39) *)

Definition Dice_roll : M Z :=
  r ← rand;
  faces ← gets faceCount;
  m ← defined (int_rem r faces);
  mret (int_add m 1).

(** ** The game engine (source lines 429-538) *)

Definition SnakeAndLadderGame_new (b : Board) (faces : Z) (supply : list Z)
    (heap : gmap nat SnakeAndLadderPlayer) : World :=
  mkWorld supply b faces [] [] false heap.

Definition addPlayer (player : nat) (w : World) : World :=
  set_turnQueue (turnQueue w ++ [player]) w.

Definition addObserver (observer : nat) (w : World) : World :=
  set_subscriberList (subscriberList w ++ [observer]) w.

(** Reading through a player pointer; an address that holds no player
    has no defined behaviour. *)
Definition deref (player : nat) : M SnakeAndLadderPlayer :=
  h ← gets playerHeap; defined (h !! player).

(** Writing through a player pointer. *)
Definition update_player (player : nat)
    (f : SnakeAndLadderPlayer → SnakeAndLadderPlayer) : M unit :=
  deref player;;
  modify (λ w, set_playerHeap (alter f player (playerHeap w)) w).

Definition notify (msg : string) : M unit :=
  subs ← gets subscriberList;
  emit (map (λ observer, Update observer msg) subs).

Definition displayPlayerPositions : M unit :=
  cout (endl +:+ "=== Current Player Positions ===" +:+ endl);;
  q ← gets turnQueue;
  for_each q (λ player,
    p ← deref player;
    cout (getName p +:+ ": " +:+ to_string (getPosition p) +:+ endl));;
  cout ("==============================" +:+ endl).

(** [pop_front] then [push_back(currentPlayer)]. *)
Definition rotate (currentPlayer : nat) : M unit :=
  modify (λ w, set_turnQueue (tail (turnQueue w) ++ [currentPlayer]) w).

(** One pass of the [while(!isGameOver)] loop.  The two reads from
    standard input that wait for the Enter key are not modelled. *)
Definition turn : M unit :=
  q ← gets turnQueue;
  currentPlayer ← defined (head q);
  p ← deref currentPlayer;
  cout (endl +:+ getName p +:+ "'s turn. Press Enter to roll the dice...");;
  rollValue ← Dice_roll;
  cout ("Dice result: " +:+ to_string rollValue +:+ endl);;
  let currentPos := getPosition p in
  board ← gets gameBoard;
  if isValidMove currentPos rollValue (getBoardSize board) then
    let intermediatePos := int_add currentPos rollValue in
    let newPos := calculateNewPosition currentPos rollValue board in
    update_player currentPlayer (setPosition newPos);;
    match getEntity board intermediatePos with
    | Some entity =>
        if String.eqb (name entity) "SNAKE" then
          cout ("Encountered snake at " +:+ to_string intermediatePos
                +:+ ". Moving down to " +:+ to_string newPos +:+ "." +:+ endl);;
          notify (getName p +:+ " encountered a snake at " +:+ to_string intermediatePos
                  +:+ " and moved down to " +:+ to_string newPos)
        else
          cout ("Encountered ladder at " +:+ to_string intermediatePos
                +:+ ". Moving up to " +:+ to_string newPos +:+ "." +:+ endl);;
          notify (getName p +:+ " encountered a ladder at " +:+ to_string intermediatePos
                  +:+ " and moved up to " +:+ to_string newPos)
    | None => mret tt
    end;;
    notify (getName p +:+ " completed a move. Current position: " +:+ to_string newPos);;
    displayPlayerPositions;;
    if checkWinCondition newPos (getBoardSize board) then
      cout (endl +:+ getName p +:+ " has won the game." +:+ endl);;
      update_player currentPlayer incrementScore;;
      notify ("Game concluded. Winner: " +:+ getName p);;
      modify (set_isGameOver true)
    else
      rotate currentPlayer
  else
    cout ("Exact roll required to reach cell " +:+ to_string (getBoardSize board)
          +:+ "." +:+ endl);;
    rotate currentPlayer.

(** [while(!isGameOver)].  Every pass draws one [rand()] value, so over a
    supply of [n] values [S n] passes are enough to reach either the end
    of the game or the end of the supply. *)
Fixpoint play_loop (passes : nat) : M unit :=
  over ← gets isGameOver;
  if (over : bool) then mret tt
  else match passes with
       | O => halt_with RandExhausted
       | S passes' => turn;; play_loop passes'
       end.

Definition play : M unit :=
  q ← gets turnQueue;
  if (length q <? 2)%nat then
    cout ("A minimum of 2 players is required to start the game." +:+ endl)
  else
    notify "Game initiated.";;
    board ← gets gameBoard;
    emit (Board_display board);;
    n ← gets (λ w, length (rands w));
    play_loop (S n).

(** ** The factory (source lines 541-573) *)

(** [SnakeAndLadderGameFactory::createStandardGame]: a 10x10 board with
    the standard layout and a six-faced dice. *)
Definition createStandardGame (supply : list Z)
    (heap : gmap nat SnakeAndLadderPlayer) : World :=
  world_of (StandardBoardSetupStrategy_setupBoard
              (SnakeAndLadderGame_new (Board_new 10) 6 supply heap)).

(** ** Vocabulary of the properties

    Nothing below is part of the program: these are the notions the
    theorems are stated with. *)

(** *** Well-formed states

    Every address in the turn queue holds a player: the queue is filled by
    [addPlayer] with players the caller has allocated. *)
Definition queue_valid (w : World) : Prop :=
  ∀ p, p ∈ turnQueue w → is_Some (playerHeap w !! p).

(** The dice returns: there is a [rand()] value left and the remainder by
    the face count is defined. *)
Definition dice_returns (w : World) : Prop :=
  ∃ rollValue w1, Dice_roll w = (Ret rollValue, w1, []).

(** What [displayPlayerPositions] prints for the queue [q] over the heap
    [h]; an address without a player prints nothing here (and the
    function itself is undefined there). *)
Definition position_line (h : gmap nat SnakeAndLadderPlayer) (player : nat) : list event :=
  match h !! player with
  | Some p => [Cout (getName p +:+ ": " +:+ to_string (getPosition p) +:+ endl)]
  | None => []
  end.

Definition positions_trace (h : gmap nat SnakeAndLadderPlayer) (q : list nat) : list event :=
  [Cout (endl +:+ "=== Current Player Positions ===" +:+ endl)]
  ++ concat (map (position_line h) q)
  ++ [Cout ("==============================" +:+ endl)].

(** *** The turn as a step relation

    [turn_step w k w'] lists the three ways a pass of the loop can end: the
    roll overshoots the last cell, the player moves without winning, the
    player wins.  [rollValue] is what the dice returned and [w1] the state
    the dice left behind. *)

Inductive turn_kind : Type := Overshoot | Move | Win.

Inductive turn_step (w : World) : turn_kind → World → Prop :=
  | step_overshoot p q pl rollValue w1 :
      turnQueue w = p :: q →
      playerHeap w !! p = Some pl →
      Dice_roll w = (Ret rollValue, w1, []) →
      isValidMove (getPosition pl) rollValue (getBoardSize (gameBoard w)) = false →
      turn_step w Overshoot (set_turnQueue (q ++ [p]) w1)
  | step_move p q pl rollValue w1 newPos :
      turnQueue w = p :: q →
      playerHeap w !! p = Some pl →
      Dice_roll w = (Ret rollValue, w1, []) →
      isValidMove (getPosition pl) rollValue (getBoardSize (gameBoard w)) = true →
      newPos = calculateNewPosition (getPosition pl) rollValue (gameBoard w) →
      checkWinCondition newPos (getBoardSize (gameBoard w)) = false →
      turn_step w Move
        (set_turnQueue (q ++ [p])
           (set_playerHeap (alter (setPosition newPos) p (playerHeap w)) w1))
  | step_win p q pl rollValue w1 newPos :
      turnQueue w = p :: q →
      playerHeap w !! p = Some pl →
      Dice_roll w = (Ret rollValue, w1, []) →
      isValidMove (getPosition pl) rollValue (getBoardSize (gameBoard w)) = true →
      newPos = calculateNewPosition (getPosition pl) rollValue (gameBoard w) →
      checkWinCondition newPos (getBoardSize (gameBoard w)) = true →
      turn_step w Win
        (set_isGameOver true
           (set_playerHeap
              (alter incrementScore p (alter (setPosition newPos) p (playerHeap w))) w1)).

(** *** Runs of the loop *)

(** The states in which the loop condition is evaluated, in order; when a
    pass halts, the state it halted in closes the list. *)
Fixpoint play_states (passes : nat) (w : World) : list World :=
  w :: (if isGameOver w then []
        else match passes with
             | O => []
             | S passes' =>
                 match turn w with
                 | (Ret _, w', _) => play_states passes' w'
                 | (Halt _, w', _) => [w']
                 end
             end).

(** The flag goes from unset to set between the states [i] and [S i]. *)
Definition flips_at (states : list World) (i : nat) : Prop :=
  ∃ wi wj, states !! i = Some wi ∧ states !! S i = Some wj
           ∧ isGameOver wi = false ∧ isGameOver wj = true.

(** *** Boards only grow

    [extends b b'] says that [b'] has the size of [b] and every entity of
    [b] at the cell it had in [b]. *)

Definition extends (b b' : Board) : Prop :=
  cellCount b' = cellCount b ∧ entityMap b ⊆ entityMap b'.

Definition board_grows {A} (m : M A) : Prop :=
  ∀ w, extends (gameBoard w) (gameBoard (world_of (m w))).

(** The operations a caller can apply to a board: the public member
    functions of [Board]. *)
Inductive board_op : Type :=
  | OpCanAddEntity (position : Z)
  | OpAddBoardEntity (boardEntity : BoardEntity)
  | OpSetupBoard (strategy : BoardSetupStrategy)
  | OpGetEntity (position : Z)
  | OpGetBoardSize
  | OpDisplay.

Definition run_op (below : Z → Q → bool) (op : board_op) : M unit :=
  match op with
  | OpCanAddEntity position => board_canAddEntity position;; mret tt
  | OpAddBoardEntity boardEntity => board_addBoardEntity boardEntity
  | OpSetupBoard strategy => setupBoard below strategy
  | OpGetEntity position => gets (λ w, getEntity (gameBoard w) position);; mret tt
  | OpGetBoardSize => gets (λ w, getBoardSize (gameBoard w));; mret tt
  | OpDisplay => b ← gets gameBoard; emit (Board_display b)
  end.

Definition run_ops (below : Z → Q → bool) (ops : list board_op) : M unit :=
  for_each ops (run_op below).

(** The entities of the standard layout, in the order the strategy
    constructs them. *)
Definition standard_entities : list BoardEntity :=
  map (λ pos, mkBoardEntity SNAKE pos.1 pos.2) standard_snakes
  ++ map (λ pos, mkBoardEntity LADDER pos.1 pos.2) standard_ladders.

(** *** Concrete boards and games *)

(** A board where the foot of a snake is the foot of a ladder. *)
Definition chain_board : Board :=
  addBoardEntity (addBoardEntity (Board_new 10) (Snake 62 19).1) (Ladder 19 40).1.

(** A game on an empty 10x10 board, nobody registered yet. *)
Definition empty_world (supply : list Z) : World :=
  SnakeAndLadderGame_new (Board_new 10) 6 supply ∅.

(** A standard game with one observer (at address 7) and two players,
    the first of them standing on [pos1]. *)
Definition two_player_game (pos1 : Z) (supply : list Z) : World :=
  addObserver 7
    (addPlayer 2
       (addPlayer 1
          (createStandardGame supply
             {[ 1%nat := setPosition pos1 (SnakeAndLadderPlayer_new 1 "Asha");
                2%nat := SnakeAndLadderPlayer_new 2 "Bram" ]}))).

Definition one_player_game : World :=
  addObserver 7
    (addPlayer 1
       (createStandardGame [3; 4] {[ 1%nat := SnakeAndLadderPlayer_new 1 "Asha" ]})).

(** Asha stands on 98 and rolls a 3. *)
Definition overshoot_game : World := two_player_game 98 [2].

(** Asha stands on 98 and rolls a 2. *)
Definition winning_game : World := two_player_game 98 [1].

(** Asha stands on 55 and rolls a 1. *)
Definition moving_game : World := two_player_game 55 [0].

(** Asha stands on 98 and overshoots, Bram climbs a ladder, and Asha
    then rolls the 2 that wins. *)
Definition full_game : World := two_player_game 98 [2; 1; 1].

(** The states before and after the winning pass. *)
Definition full_game_2 : World := world_of (turn (world_of (turn full_game))).
Definition full_game_3 : World := world_of (turn full_game_2).

(** ** More vocabulary: whole runs of the engine *)

(** A value [rand()] can return: between 0 and [RAND_MAX], which is at
    most [INT_MAX]. *)
Definition rand_ok (r : Z) : Prop := 0 <= r <= INT_MAX.

Definition supply_ok (w : World) : Prop := Forall rand_ok (rands w).

(** The states the loop is meant to run in: somebody is queued, every
    queued address holds a player, the dice has a face, and the random
    source behaves like [rand()]. *)
Definition game_wf (w : World) : Prop :=
  turnQueue w ≠ [] ∧ queue_valid w ∧ faceCount w ≠ 0 ∧ supply_ok w.

(** [fixes f m]: whatever [m] does, it leaves the observation [f] of the
    state as it found it. *)
Definition fixes {A B} (f : World → B) (m : M A) : Prop :=
  ∀ w, f (world_of (m w)) = f w.

(** The parts of the state that belong to the setup phase. *)
Definition setup_view (w : World) : Board * Z * list nat :=
  (gameBoard w, faceCount w, subscriberList w).

(** Every player on the board: positions from the start square 0 to the
    last cell. *)
Definition positions_inside (w : World) : Prop :=
  ∀ p pl, playerHeap w !! p = Some pl →
    0 <= getPosition pl <= getBoardSize (gameBoard w).

(** Every jump on the board ends on the board. *)
Definition ends_inside (b : Board) : Prop :=
  ∀ c e, entityMap b !! c = Some e → 0 <= getEnd e <= getBoardSize b.


(** ** More vocabulary: boards *)

#[global] Instance EntityKind_eq_dec : EqDecision EntityKind.
Proof. solve_decision. Defined.

(** The vector and the map of a board hold the same entities: every
    entity of the vector is in the map under its start cell, every entry
    of the map is in the vector, and no two entities of the vector start
    on the same cell. *)
Definition board_sync (b : Board) : Prop :=
  NoDup (map getStart (entitiesList b))
  ∧ ∀ c e, entityMap b !! c = Some e ↔ e ∈ entitiesList b ∧ getStart e = c.

(** [board_fed m]: all that [m] does to the board is a sequence of calls
    of [addBoardEntity]. *)
Definition board_fed {A} (m : M A) : Prop :=
  ∀ w, ∃ l, gameBoard (world_of (m w)) = fold_left addBoardEntity l (gameBoard w).

Definition snake_entity (pos : Z * Z) : BoardEntity := mkBoardEntity SNAKE pos.1 pos.2.
Definition ladder_entity (pos : Z * Z) : BoardEntity := mkBoardEntity LADDER pos.1 pos.2.


(** ** More vocabulary: the random strategies *)

(** What the random placement is meant to produce on a board of
    [totalCells] cells: a snake that starts on cell 10 or later, before the
    last cell, and ends on an earlier cell; a ladder that ends on a later
    cell than it starts on, before the last cell. *)
Definition placed_ok (totalCells : Z) (e : BoardEntity) : Prop :=
  match kind e with
  | SNAKE => 10 <= getStart e < totalCells ∧ 1 <= getEnd e < getStart e
  | LADDER => 1 <= getStart e <= totalCells - 10 ∧ getStart e < getEnd e < totalCells
  end.

(** [btriple P m Q H]: run from a state whose random source behaves and
    whose board satisfies [P], [m] prints nothing and either returns [a]
    with a board satisfying [Q a], or stops for want of a random value
    with a board satisfying [H]; the random source still behaves.  In
    particular [m] has no undefined behaviour. *)
Definition btriple {A} (P : Board → Prop) (m : M A) (Q : A → Board → Prop)
    (H : Board → Prop) : Prop :=
  ∀ w, supply_ok w → P (gameBoard w) →
    match m w with
    | (Ret a, w', t) => supply_ok w' ∧ Q a (gameBoard w') ∧ t = []
    | (Halt h, w', t) => h = RandExhausted ∧ supply_ok w' ∧ H (gameBoard w') ∧ t = []
    end.

(** The board has [totalCells] cells and its vector is [l0] followed by
    at most [n] entities, all of them as the random placement should
    make them. *)
Definition placed_upto (totalCells : Z) (l0 : list BoardEntity) (n : nat)
    (b : Board) : Prop :=
  getBoardSize b = totalCells
  ∧ ∃ added, entitiesList b = l0 ++ added
             ∧ (length added ≤ n)%nat
             ∧ Forall (placed_ok totalCells) added.

(** The same with exactly [n] entities, all of kind [k]. *)
Definition placed_exactly (totalCells : Z) (l0 : list BoardEntity) (k : EntityKind)
    (n : Z) (b : Board) : Prop :=
  getBoardSize b = totalCells
  ∧ ∃ added, entitiesList b = l0 ++ added
             ∧ Z.of_nat (length added) = n
             ∧ Forall (λ e, kind e = k ∧ placed_ok totalCells e) added.


(** [draws_at_most n m]: [m] takes at most [n] values from the random
    source, and stops for want of a value only when fewer than [n] were
    there. *)
Definition draws_at_most {A} (n : nat) (m : M A) : Prop :=
  ∀ w, (length (rands w) ≤ length (rands (world_of (m w))) + n)%nat
       ∧ (outcome_of (m w) = Halt RandExhausted → (length (rands w) < n)%nat).

(** ** Signed overflow as undefined behaviour

    The functions above compute with [int_add], which wraps around.  In
    C++ a signed sum that does not fit an [int] has no defined behaviour.
    Here are the dice, [Board::display], the rules, the player's counter
    and the engine once more, line by line as above, with every [int]
    addition checked: where the sum does not fit, the computation halts
    with [Undefined]. *)

Definition int_add_strict (a b : Z) : option Z :=
  if (INT_MIN <=? a + b) && (a + b <=? INT_MAX) then Some (a + b) else None.

Definition Dice_roll_strict : M Z :=
  r ← rand;
  faces ← gets faceCount;
  m ← defined (int_rem r faces);
  defined (int_add_strict m 1).

Definition display_counts_strict (l : list BoardEntity) : option (Z * Z) :=
  fold_left (λ counts entity,
               match counts with
               | Some (snakeCount, ladderCount) =>
                   if is_named "SNAKE" entity
                   then (λ n, (n, ladderCount)) <$> int_add_strict snakeCount 1
                   else (λ n, (snakeCount, n)) <$> int_add_strict ladderCount 1
               | None => None
               end)
            l (Some (0, 0)).

Definition Board_display_strict (b : Board) : M unit :=
  cout (endl +:+ "=== Board Configuration ===" +:+ endl);;
  cout ("Total Cells: " +:+ to_string (cellCount b) +:+ endl);;
  counts ← defined (display_counts_strict (entitiesList b));
  cout (endl +:+ "Snakes: " +:+ to_string counts.1 +:+ endl);;
  emit (concat (map BoardEntity_display
                  (filter (λ e, is_named "SNAKE" e = true) (entitiesList b))));;
  cout (endl +:+ "Ladders: " +:+ to_string counts.2 +:+ endl);;
  emit (concat (map BoardEntity_display
                  (filter (λ e, is_named "LADDER" e = true) (entitiesList b))));;
  cout ("=========================" +:+ endl).

Definition incrementScore_strict (p : SnakeAndLadderPlayer) : option SnakeAndLadderPlayer :=
  mkPlayer (id p) (playerName p) (currentPosition p) <$> int_add_strict (winCount p) 1.

Definition isValidMove_strict (currentPos diceValue boardSize : Z) : option bool :=
  (λ sum, sum <=? boardSize) <$> int_add_strict currentPos diceValue.

Definition calculateNewPosition_strict (currentPos diceValue : Z) (board : Board) : option Z :=
  (λ newPos, match getEntity board newPos with
             | Some entity => getEnd entity
             | None => newPos
             end) <$> int_add_strict currentPos diceValue.

(** Writing through a player pointer what a checked update returns. *)
Definition update_player_strict (player : nat)
    (f : SnakeAndLadderPlayer → option SnakeAndLadderPlayer) : M unit :=
  p ← deref player;
  p' ← defined (f p);
  modify (λ w, set_playerHeap (<[player := p']> (playerHeap w)) w).

Definition turn_strict : M unit :=
  q ← gets turnQueue;
  currentPlayer ← defined (head q);
  p ← deref currentPlayer;
  cout (endl +:+ getName p +:+ "'s turn. Press Enter to roll the dice...");;
  rollValue ← Dice_roll_strict;
  cout ("Dice result: " +:+ to_string rollValue +:+ endl);;
  let currentPos := getPosition p in
  board ← gets gameBoard;
  valid ← defined (isValidMove_strict currentPos rollValue (getBoardSize board));
  if (valid : bool) then
    intermediatePos ← defined (int_add_strict currentPos rollValue);
    newPos ← defined (calculateNewPosition_strict currentPos rollValue board);
    update_player currentPlayer (setPosition newPos);;
    match getEntity board intermediatePos with
    | Some entity =>
        if String.eqb (name entity) "SNAKE" then
          cout ("Encountered snake at " +:+ to_string intermediatePos
                +:+ ". Moving down to " +:+ to_string newPos +:+ "." +:+ endl);;
          notify (getName p +:+ " encountered a snake at " +:+ to_string intermediatePos
                  +:+ " and moved down to " +:+ to_string newPos)
        else
          cout ("Encountered ladder at " +:+ to_string intermediatePos
                +:+ ". Moving up to " +:+ to_string newPos +:+ "." +:+ endl);;
          notify (getName p +:+ " encountered a ladder at " +:+ to_string intermediatePos
                  +:+ " and moved up to " +:+ to_string newPos)
    | None => mret tt
    end;;
    notify (getName p +:+ " completed a move. Current position: " +:+ to_string newPos);;
    displayPlayerPositions;;
    if checkWinCondition newPos (getBoardSize board) then
      cout (endl +:+ getName p +:+ " has won the game." +:+ endl);;
      update_player_strict currentPlayer incrementScore_strict;;
      notify ("Game concluded. Winner: " +:+ getName p);;
      modify (set_isGameOver true)
    else
      rotate currentPlayer
  else
    cout ("Exact roll required to reach cell " +:+ to_string (getBoardSize board)
          +:+ "." +:+ endl);;
    rotate currentPlayer.

Fixpoint play_loop_strict (passes : nat) : M unit :=
  over ← gets isGameOver;
  if (over : bool) then mret tt
  else match passes with
       | O => halt_with RandExhausted
       | S passes' => turn_strict;; play_loop_strict passes'
       end.

Definition play_strict : M unit :=
  q ← gets turnQueue;
  if (length q <? 2)%nat then
    cout ("A minimum of 2 players is required to start the game." +:+ endl)
  else
    notify "Game initiated.";;
    board ← gets gameBoard;
    Board_display_strict board;;
    n ← gets (λ w, length (rands w));
    play_loop_strict (S n).

(** Every win counter can take one more win. *)
Definition scores_below (w : World) : Prop :=
  ∀ p pl, playerHeap w !! p = Some pl → 0 <= getScore pl < INT_MAX.

(** * Properties *)

(** ** Running monadic code *)

Lemma bind_run {A B} (m : M A) (f : A → M B) (w : World) :
  (m ≫= f) w =
  match m w with
  | (Ret a, w1, t1) => match f a w1 with (o, w2, t2) => (o, w2, t1 ++ t2) end
  | (Halt h, w1, t1) => (Halt h, w1, t1)
  end.
Proof. reflexivity. Qed.

(** Unfold the monad and the state accessors, and nothing else. *)
Ltac mrun :=
  cbv beta iota zeta delta
    [mbind M_bind bind mret M_ret ret gets modify emit cout defined deref
     update_player notify rotate Dice_roll rand halt_with head tail
     board_canAddEntity board_addBoardEntity new_Snake new_Ladder
     turnQueue playerHeap rands faceCount gameBoard subscriberList isGameOver
     set_rands set_gameBoard set_turnQueue set_subscriberList set_isGameOver
     set_playerHeap outcome_of world_of trace_of fst snd].

(** A loop whose body only prints leaves the state alone. *)
Lemma for_each_printing {A} (l : list A) (body : A → M unit)
    (line : A → list event) (w : World) :
  (∀ x, x ∈ l → body x w = (Ret tt, w, line x)) →
  for_each l body w = (Ret tt, w, concat (map line l)).
Proof.
  induction l as [|x l IH]; intros Hbody; [reflexivity|].
  cbn [for_each map concat]. rewrite bind_run, Hbody by apply list_elem_of_here.
  rewrite IH; [reflexivity|].
  intros y Hy. apply Hbody. by apply list_elem_of_further.
Qed.

(** ** Printing the positions *)

Lemma displayPlayerPositions_run (w : World) :
  queue_valid w →
  displayPlayerPositions w = (Ret tt, w, positions_trace (playerHeap w) (turnQueue w)).
Proof.
  destruct w as [rs b fc q subs over h]. unfold queue_valid. cbn [turnQueue playerHeap].
  intros Hv. unfold displayPlayerPositions. mrun.
  rewrite (for_each_printing _ _ (position_line h)).
  - reflexivity.
  - intros p Hp. destruct (Hv p Hp) as [pl Hpl].
    unfold position_line. mrun. rewrite Hpl. reflexivity.
Qed.

Lemma for_each_world {A} (l : list A) (body : A → M unit) (w : World) :
  (∀ x, world_of (body x w) = w) →
  world_of (for_each l body w) = w.
Proof.
  intros Hbody. induction l as [|x l IH]; [reflexivity|].
  cbn [for_each]. rewrite bind_run.
  specialize (Hbody x). destruct (body x w) as [[[u|h] w1] t1]; cbn in Hbody; subst w1.
  - destruct (for_each l body w) as [[o w2] t2]. exact IH.
  - reflexivity.
Qed.

Lemma displayPlayerPositions_world (w : World) :
  world_of (displayPlayerPositions w) = w.
Proof.
  destruct w as [rs b fc q subs over h].
  unfold displayPlayerPositions. mrun.
  match goal with
  | |- context [for_each q ?body ?W] =>
      pose proof (for_each_world q body W) as Hw;
      destruct (for_each q body W) as [[[u|e] w1] t1]
  end; cbn in Hw; rewrite Hw; try reflexivity;
    intros p; mrun; by destruct (h !! p).
Qed.

(** ** The turn refines the step relation *)

Lemma Dice_roll_inv (w w1 : World) (rollValue : Z) (t : list event) :
  Dice_roll w = (Ret rollValue, w1, t) →
  ∃ r rest m, rands w = r :: rest ∧ int_rem r (faceCount w) = Some m
              ∧ rollValue = int_add m 1 ∧ w1 = set_rands rest w ∧ t = [].
Proof.
  destruct w as [rs b fc q subs over h]. mrun.
  destruct rs as [|r rest]; [discriminate|].
  destruct (int_rem r fc) as [m|] eqn:Hm; [|discriminate].
  intros [= <- <- <-]. by exists r, rest, m.
Qed.

(** Every pass of the loop that returns is one of the three steps.  A
    pass that halts has not ended the game nor touched the queue, and it
    halts only when the queue is empty, holds a dangling address, or the
    dice does not return. *)
Lemma turn_analysis (w : World) :
  match turn w with
  | (Ret _, w', _) => ∃ k, turn_step w k w'
  | (Halt _, w', _) =>
      isGameOver w' = isGameOver w ∧ turnQueue w' = turnQueue w
      ∧ ¬ (turnQueue w ≠ [] ∧ queue_valid w ∧ dice_returns w)
  end.
Proof.
  destruct w as [rs b fc tq subs over h].
  unfold turn. mrun.
  destruct tq as [|p q].
  { split; [done|]. split; [done|]. by intros [? _]. }
  destruct (h !! p) as [pl|] eqn:Hp.
  2:{ split; [done|]. split; [done|]. intros (_ & Hv & _).
      destruct (Hv p) as [x Hx]; [apply list_elem_of_here|]. cbn in Hx. congruence. }
  destruct rs as [|r rest].
  { split; [done|]. split; [done|]. intros (_ & _ & v & w1 & Hd).
      apply Dice_roll_inv in Hd as (? & ? & ? & ? & _). discriminate. }
  destruct (int_rem r fc) as [m|] eqn:Hm.
  2:{ split; [done|]. split; [done|]. intros (_ & _ & v & w1 & Hd).
      apply Dice_roll_inv in Hd as (? & ? & ? & Hr & Hm' & _).
      cbn in Hr, Hm'. congruence. }
  destruct (isValidMove (getPosition pl) (int_add m 1) (getBoardSize b)) eqn:Hvalid.
  2:{ exists Overshoot. apply (step_overshoot (mkWorld (r :: rest) b fc (p :: q) subs over h) p q pl (int_add m 1) (mkWorld rest b fc (p :: q) subs over h));
        try done. mrun. by rewrite Hm. }
  rewrite Hp. mrun.
  set (newPos := calculateNewPosition (getPosition pl) (int_add m 1) b).
  set (h1 := alter (setPosition newPos) p h).
  assert (Hp1 : h1 !! p = Some (setPosition newPos pl)).
  { unfold h1. by rewrite lookup_alter_eq, Hp. }
  assert (Hv1 : queue_valid (mkWorld (r :: rest) b fc (p :: q) subs over h) →
                queue_valid (mkWorld rest b fc (p :: q) subs over h1)).
  { intros Hv x Hx. specialize (Hv x Hx). cbn in Hv |- *. unfold h1.
    destruct (decide (p = x)) as [->|Hne].
    - rewrite lookup_alter_eq. by apply fmap_is_Some.
    - by rewrite lookup_alter_ne. }
  repeat match goal with
  | |- context [match getEntity ?bb ?pos with _ => _ end] =>
      destruct (getEntity bb pos) as [entity|]
  | |- context [if String.eqb ?a ?bb then _ else _] => destruct (String.eqb a bb)
  end; mrun;
  (match goal with
   | |- context [displayPlayerPositions ?W] =>
       pose proof (displayPlayerPositions_world W) as Hw;
       pose proof (displayPlayerPositions_run W) as Hrun;
       destruct (displayPlayerPositions W) as [[[[]|e] w'] t]; cbn in Hw; subst w'
   end).
  all: mrun.
  all: try (split; [done|]; split; [done|]; intros (_ & Hv & _);
            specialize (Hrun (Hv1 Hv)); discriminate).
  all: destruct (checkWinCondition newPos (getBoardSize b)) eqn:Hwin; mrun.
  all: try rewrite Hp1; mrun.
  all: try (exists Win; apply (step_win (mkWorld (r :: rest) b fc (p :: q) subs over h)
                     p q pl (int_add m 1) (mkWorld rest b fc (p :: q) subs over h) newPos);
            try done; mrun; by rewrite Hm).
  all: try (exists Move; apply (step_move (mkWorld (r :: rest) b fc (p :: q) subs over h)
                     p q pl (int_add m 1) (mkWorld rest b fc (p :: q) subs over h) newPos);
            try done; mrun; by rewrite Hm).
Qed.

(** ** Integer arithmetic *)

Lemma int_wrap_exact (z : Z) : int_range z → int_wrap z = z.
Proof.
  unfold int_range, INT_MIN, INT_MAX, int_wrap. intros Hz.
  rewrite Z.mod_small; lia.
Qed.

Lemma int_add_exact (a b : Z) : int_range (a + b) → int_add a b = a + b.
Proof. apply int_wrap_exact. Qed.

(** ** The board *)

Lemma canAddEntity_true (b : Board) (c : Z) :
  canAddEntity b c = true ↔ entityMap b !! c = None.
Proof. unfold canAddEntity. destruct (entityMap b !! c); split; congruence. Qed.

Lemma canAddEntity_false (b : Board) (c : Z) :
  canAddEntity b c = false ↔ is_Some (entityMap b !! c).
Proof.
  unfold canAddEntity. destruct (entityMap b !! c); split; try congruence; eauto.
  intros [? ?]; congruence.
Qed.

Lemma getEntity_lookup (b : Board) (c : Z) : getEntity b c = entityMap b !! c.
Proof. unfold getEntity. by destruct (entityMap b !! c). Qed.

Lemma addBoardEntity_free (b : Board) (e : BoardEntity) :
  canAddEntity b (getStart e) = true →
  addBoardEntity b e =
  mkBoard (cellCount b) (entitiesList b ++ [e]) (<[getStart e := e]> (entityMap b)).
Proof. unfold addBoardEntity. by intros ->. Qed.

Lemma addBoardEntity_taken (b : Board) (e : BoardEntity) :
  canAddEntity b (getStart e) = false → addBoardEntity b e = b.
Proof. unfold addBoardEntity. by intros ->. Qed.

(** C1. [calculateNewPosition] adds the roll to the current position in
    [int] arithmetic (the plain sum whenever that sum is an [int]); the
    result is the end of the entity on the landing cell when there is one
    and the landing cell otherwise.  The entity's end is returned as it
    is, whatever the board holds at that cell: one jump per move. *)
Theorem calculateNewPosition_single_jump (currentPos diceValue : Z) (board : Board) :
  let landed := int_add currentPos diceValue in
  (int_range (currentPos + diceValue) → landed = currentPos + diceValue)
  ∧ (∀ entity, getEntity board landed = Some entity →
       calculateNewPosition currentPos diceValue board = getEnd entity)
  ∧ (getEntity board landed = None →
       calculateNewPosition currentPos diceValue board = landed).
Proof.
  cbn zeta. split; [apply int_add_exact|].
  unfold calculateNewPosition. split.
  - by intros entity ->.
  - by intros ->.
Qed.

Lemma calculateNewPosition_single_jump_witness :
  int_range (55 + 7)
  ∧ getEntity chain_board (int_add 55 7) = Some (mkBoardEntity SNAKE 62 19)
  ∧ getEntity chain_board 19 = Some (mkBoardEntity LADDER 19 40)
  ∧ calculateNewPosition 55 7 chain_board = 19.
Proof.
  split; [unfold int_range, INT_MIN, INT_MAX; lia|].
  split; [reflexivity|]. split; [reflexivity|].
  destruct (calculateNewPosition_single_jump 55 7 chain_board) as (_ & Hjump & _).
  exact (Hjump (mkBoardEntity SNAKE 62 19) eq_refl).
Defined.

(** C5. [addBoardEntity] changes the board exactly when the start cell
    is free.  Then the entity is what [getEntity] returns at that cell and
    every other cell is as before; otherwise the board is returned as it
    was.  The function is total: nothing is raised in either case. *)
Theorem addBoardEntity_iff_canAddEntity (b : Board) (e : BoardEntity) :
  (canAddEntity b (getStart e) = true ↔ addBoardEntity b e ≠ b)
  ∧ (canAddEntity b (getStart e) = true →
       getEntity (addBoardEntity b e) (getStart e) = Some e
       ∧ entityMap (addBoardEntity b e) = <[getStart e := e]> (entityMap b)
       ∧ ∀ c, c ≠ getStart e → getEntity (addBoardEntity b e) c = getEntity b c)
  ∧ (canAddEntity b (getStart e) = false →
       addBoardEntity b e = b ∧ entityMap (addBoardEntity b e) = entityMap b).
Proof.
  split; [split|split].
  - intros Hfree Heq. rewrite addBoardEntity_free in Heq by done.
    apply (f_equal (λ x, length (entitiesList x))) in Heq. cbn in Heq.
    rewrite length_app in Heq. cbn in Heq. lia.
  - intros Hne. destruct (canAddEntity b (getStart e)) eqn:Hfree; [done|].
    destruct Hne. by apply addBoardEntity_taken.
  - intros Hfree. rewrite addBoardEntity_free by done.
    rewrite !getEntity_lookup. cbn. split; [by rewrite lookup_insert_eq|].
    split; [done|]. intros c Hc. rewrite !getEntity_lookup. cbn.
    by rewrite lookup_insert_ne.
  - intros Htaken. by rewrite addBoardEntity_taken.
Qed.

Lemma addBoardEntity_iff_canAddEntity_witness :
  canAddEntity (Board_new 10) (getStart (mkBoardEntity SNAKE 62 19)) = true
  ∧ getEntity (addBoardEntity (Board_new 10) (mkBoardEntity SNAKE 62 19)) 62
    = Some (mkBoardEntity SNAKE 62 19)
  ∧ canAddEntity chain_board (getStart (mkBoardEntity LADDER 62 80)) = false
  ∧ addBoardEntity chain_board (mkBoardEntity LADDER 62 80) = chain_board.
Proof.
  split; [reflexivity|]. split.
  - destruct (addBoardEntity_iff_canAddEntity (Board_new 10) (mkBoardEntity SNAKE 62 19))
      as (_ & Hfree & _).
    exact (proj1 (Hfree eq_refl)).
  - split; [reflexivity|].
    destruct (addBoardEntity_iff_canAddEntity chain_board (mkBoardEntity LADDER 62 80))
      as (_ & _ & Htaken).
    exact (proj1 (Htaken eq_refl)).
Defined.

(** ** Boards only grow

    Every operation the program offers on a board takes it to an
    extension: a cell, once taken, is never freed nor overwritten. *)

Lemma extends_refl (b : Board) : extends b b.
Proof. by split. Qed.

Lemma extends_trans (b1 b2 b3 : Board) : extends b1 b2 → extends b2 b3 → extends b1 b3.
Proof. intros [Hc1 Hm1] [Hc2 Hm2]. split; [congruence|by etrans]. Qed.

Lemma extends_addBoardEntity (b : Board) (e : BoardEntity) : extends b (addBoardEntity b e).
Proof.
  unfold addBoardEntity. destruct (canAddEntity b (getStart e)) eqn:Hfree.
  - split; [done|]. cbn. apply insert_subseteq. by apply canAddEntity_true.
  - apply extends_refl.
Qed.

Lemma grows_ret {A} (a : A) : board_grows (mret a).
Proof. intros w. apply extends_refl. Qed.

Lemma grows_bind {A B} (m : M A) (f : A → M B) :
  board_grows m → (∀ a, board_grows (f a)) → board_grows (m ≫= f).
Proof.
  intros Hm Hf w. rewrite bind_run. specialize (Hm w).
  destruct (m w) as [[[a|h] w1] t1]; [|exact Hm].
  specialize (Hf a w1). destruct (f a w1) as [[o w2] t2].
  eapply extends_trans; [exact Hm|exact Hf].
Qed.

Lemma grows_gets {A} (f : World → A) : board_grows (gets f).
Proof. intros w. apply extends_refl. Qed.

Lemma grows_emit (t : list event) : board_grows (emit t).
Proof. intros w. apply extends_refl. Qed.

Lemma grows_halt {A} (h : halt) : board_grows (@halt_with A h).
Proof. intros w. apply extends_refl. Qed.

Lemma grows_defined {A} (o : option A) : board_grows (defined o).
Proof. destruct o; [apply grows_ret|apply grows_halt]. Qed.

Lemma grows_rand : board_grows rand.
Proof. intros w. unfold rand. destruct w as [[|r rest] b ? ? ? ? ?]; apply extends_refl. Qed.

Lemma grows_board_addBoardEntity (e : BoardEntity) : board_grows (board_addBoardEntity e).
Proof. intros w. destruct w. apply extends_addBoardEntity. Qed.

Lemma grows_for_each {A} (l : list A) (body : A → M unit) :
  (∀ x, board_grows (body x)) → board_grows (for_each l body).
Proof.
  intros Hbody. induction l as [|x l IH]; [apply grows_ret|].
  cbn [for_each]. apply grows_bind; [apply Hbody|intros _; exact IH].
Qed.

Lemma grows_if {A} (c : bool) (m1 m2 : M A) :
  board_grows m1 → board_grows m2 → board_grows (if c then m1 else m2).
Proof. by destruct c. Qed.

Create HintDb grows.
#[local] Hint Resolve grows_ret grows_gets grows_emit grows_halt grows_defined
  grows_rand grows_board_addBoardEntity : grows.

(** Peel binds and conditionals, and close the leaves with the hints. *)
Ltac grows :=
  repeat first
    [ progress auto with grows
    | apply grows_bind; [|intros ?]
    | apply grows_for_each; intros ?
    | apply grows_if
    | match goal with
      | |- board_grows (let '(_, _) := ?x in _) => destruct x
      end ].

Lemma grows_new_Snake (s e : Z) : board_grows (new_Snake s e).
Proof. unfold new_Snake. grows. Qed.

Lemma grows_new_Ladder (s e : Z) : board_grows (new_Ladder s e).
Proof. unfold new_Ladder. grows. Qed.

Lemma grows_board_canAddEntity (c : Z) : board_grows (board_canAddEntity c).
Proof. unfold board_canAddEntity. grows. Qed.

Lemma grows_draw_snake (totalCells : Z) : board_grows (draw_snake totalCells).
Proof. unfold draw_snake. grows. Qed.

Lemma grows_draw_ladder (totalCells : Z) : board_grows (draw_ladder totalCells).
Proof. unfold draw_ladder. grows. Qed.

#[local] Hint Resolve grows_new_Snake grows_new_Ladder grows_board_canAddEntity
  grows_draw_snake grows_draw_ladder : grows.

Lemma grows_snake_attempts (n : nat) (totalCells : Z) :
  board_grows (snake_attempts n totalCells).
Proof. induction n as [|n IH]; cbn [snake_attempts]; grows. Qed.

Lemma grows_ladder_attempts (n : nat) (totalCells : Z) :
  board_grows (ladder_attempts n totalCells).
Proof. induction n as [|n IH]; cbn [ladder_attempts]; grows. Qed.

Lemma grows_custom_snakes (passes : nat) (added count totalCells : Z) :
  board_grows (custom_snakes passes added count totalCells).
Proof.
  revert added. induction passes as [|n IH]; intros added;
    cbn [custom_snakes]; grows.
Qed.

Lemma grows_custom_ladders (passes : nat) (added count totalCells : Z) :
  board_grows (custom_ladders passes added count totalCells).
Proof.
  revert added. induction passes as [|n IH]; intros added;
    cbn [custom_ladders]; grows.
Qed.

#[local] Hint Resolve grows_snake_attempts grows_ladder_attempts
  grows_custom_snakes grows_custom_ladders : grows.

Lemma grows_setupBoard (below : Z → Q → bool) (strategy : BoardSetupStrategy) :
  board_grows (setupBoard below strategy).
Proof.
  destruct strategy as [[| |]|c|]; cbn [setupBoard RandomBoardSetupStrategy_setupBoard].
  1-3: unfold setupWithProbability; grows.
  - unfold CustomCountBoardSetupStrategy_setupBoard. grows.
  - unfold StandardBoardSetupStrategy_setupBoard, cout. grows.
Qed.

Lemma grows_run_ops (below : Z → Q → bool) (ops : list board_op) :
  board_grows (run_ops below ops).
Proof.
  unfold run_ops. apply grows_for_each. intros [c|e|s|c| |]; cbn [run_op]; grows.
  apply grows_setupBoard.
Qed.

(** C6. After a placement at a free cell the cell is taken, and it stays
    taken (by the same entity) through every further sequence of board
    operations, whichever way that sequence ends: the board has no
    operation that removes or replaces an entity. *)
Theorem canAddEntity_write_once (below : Z → Q → bool) (w : World)
    (e : BoardEntity) (ops : list board_op) :
  canAddEntity (gameBoard w) (getStart e) = true →
  let w1 := world_of (board_addBoardEntity e w) in
  let w2 := world_of (run_ops below ops w1) in
  canAddEntity (gameBoard w1) (getStart e) = false
  ∧ canAddEntity (gameBoard w2) (getStart e) = false
  ∧ getEntity (gameBoard w2) (getStart e) = Some e.
Proof.
  intros Hfree w1 w2.
  assert (H1 : entityMap (gameBoard w1) !! getStart e = Some e).
  { subst w1. destruct w as [rs b fc q subs over h]. cbn in Hfree |- *.
    rewrite addBoardEntity_free by done. cbn. by rewrite lookup_insert_eq. }
  assert (H2 : entityMap (gameBoard w2) !! getStart e = Some e).
  { destruct (grows_run_ops below ops w1) as [_ Hsub]. by eapply lookup_weaken. }
  split; [apply canAddEntity_false; eauto|].
  split; [apply canAddEntity_false; eauto|].
  by rewrite getEntity_lookup.
Qed.

Lemma canAddEntity_write_once_witness :
  let e := mkBoardEntity SNAKE 62 19 in
  let ops := [OpAddBoardEntity (mkBoardEntity LADDER 62 80);
              OpSetupBoard StandardBoardSetupStrategy; OpDisplay;
              OpSetupBoard (CustomCountBoardSetupStrategy
                              (addSnakePosition 62 3 (CustomCount_new 1 0 false)))] in
  let w1 := world_of (board_addBoardEntity e (empty_world [])) in
  let w2 := world_of (run_ops (λ _ _, true) ops w1) in
  canAddEntity (gameBoard (empty_world [])) (getStart e) = true
  ∧ canAddEntity (gameBoard w2) (getStart e) = false
  ∧ getEntity (gameBoard w2) (getStart e) = Some e.
Proof.
  cbv zeta. split; [reflexivity|].
  exact (proj2 (canAddEntity_write_once (λ _ _, true) (empty_world [])
                  (mkBoardEntity SNAKE 62 19) _ eq_refl)).
Defined.

(** C7. A snake whose end is not below its start, and a ladder whose end
    is not above its start, are still constructed: the constructor prints
    one line and returns the entity with the start and end it was given.
    Placing such an entity depends on its start cell being free and on
    nothing else. *)
Theorem malformed_entity_admitted (start end_ : Z) (w : World) :
  (end_ >= start →
     new_Snake start end_ w =
       (Ret (mkBoardEntity SNAKE start end_), w,
        [Cout ("Invalid snake configuration: endIndex must be less than startIndex."
               +:+ endl)]))
  ∧ (end_ <= start →
     new_Ladder start end_ w =
       (Ret (mkBoardEntity LADDER start end_), w,
        [Cout ("Invalid ladder configuration: endIndex must be greater than startIndex."
               +:+ endl)]))
  ∧ (∀ k, getStart (mkBoardEntity k start end_) = start
          ∧ getEnd (mkBoardEntity k start end_) = end_)
  ∧ (∀ k b, canAddEntity b start = true →
       getEntity (addBoardEntity b (mkBoardEntity k start end_)) start
       = Some (mkBoardEntity k start end_)).
Proof.
  split; [|split; [|split]].
  - intros Hbad. unfold new_Snake, Snake. mrun.
    by rewrite (proj2 (Z.geb_le _ _)) by lia.
  - intros Hbad. unfold new_Ladder, Ladder. mrun.
    by rewrite (proj2 (Z.leb_le _ _)) by lia.
  - done.
  - intros k b Hfree.
    rewrite addBoardEntity_free by done. rewrite getEntity_lookup. cbn.
    by rewrite lookup_insert_eq.
Qed.

Lemma malformed_entity_admitted_witness :
  19 >= 19
  ∧ new_Snake 19 19 (empty_world []) =
      (Ret (mkBoardEntity SNAKE 19 19), empty_world [],
       [Cout ("Invalid snake configuration: endIndex must be less than startIndex."
              +:+ endl)])
  ∧ 5 <= 40
  ∧ new_Ladder 40 5 (empty_world []) =
      (Ret (mkBoardEntity LADDER 40 5), empty_world [],
       [Cout ("Invalid ladder configuration: endIndex must be greater than startIndex."
              +:+ endl)])
  ∧ canAddEntity chain_board 40 = true
  ∧ getEntity (addBoardEntity chain_board (mkBoardEntity LADDER 40 5)) 40
    = Some (mkBoardEntity LADDER 40 5).
Proof.
  split; [lia|]. split.
  { apply (proj1 (malformed_entity_admitted 19 19 (empty_world []))). lia. }
  split; [lia|]. split.
  { apply (proj1 (proj2 (malformed_entity_admitted 40 5 (empty_world [])))). lia. }
  split; [reflexivity|].
  apply (proj2 (proj2 (proj2 (malformed_entity_admitted 40 5 (empty_world []))))).
  reflexivity.
Defined.

(** ** The standard layout *)

Lemma place_snakes_run (l : list (Z * Z)) (w : World) :
  Forall (λ pos, pos.2 < pos.1) l →
  for_each l (λ pos, e ← new_Snake pos.1 pos.2; board_addBoardEntity e) w =
  (Ret tt,
   set_gameBoard (fold_left addBoardEntity
                    (map (λ pos, mkBoardEntity SNAKE pos.1 pos.2) l) (gameBoard w)) w,
   []).
Proof.
  intros Hl. revert w. induction Hl as [|[s e] l Hse _ IH]; intros w.
  - by destruct w.
  - cbn [for_each map fold_left]. rewrite bind_run.
    replace ((e0 ← new_Snake (s, e).1 (s, e).2; board_addBoardEntity e0) w)
      with (Ret tt, set_gameBoard (addBoardEntity (gameBoard w)
                                     (mkBoardEntity SNAKE s e)) w, @nil event).
    + rewrite IH. by destruct w.
    + unfold new_Snake, Snake. mrun. cbn in Hse.
      by rewrite Z.geb_leb, (proj2 (Z.leb_gt _ _)) by lia.
Qed.

Lemma place_ladders_run (l : list (Z * Z)) (w : World) :
  Forall (λ pos, pos.1 < pos.2) l →
  for_each l (λ pos, e ← new_Ladder pos.1 pos.2; board_addBoardEntity e) w =
  (Ret tt,
   set_gameBoard (fold_left addBoardEntity
                    (map (λ pos, mkBoardEntity LADDER pos.1 pos.2) l) (gameBoard w)) w,
   []).
Proof.
  intros Hl. revert w. induction Hl as [|[s e] l Hse _ IH]; intros w.
  - by destruct w.
  - cbn [for_each map fold_left]. rewrite bind_run.
    replace ((e0 ← new_Ladder (s, e).1 (s, e).2; board_addBoardEntity e0) w)
      with (Ret tt, set_gameBoard (addBoardEntity (gameBoard w)
                                     (mkBoardEntity LADDER s e)) w, @nil event).
    + rewrite IH. by destruct w.
    + unfold new_Ladder, Ladder. mrun. cbn in Hse.
      by rewrite (proj2 (Z.leb_gt _ _)) by lia.
Qed.

Lemma extends_fold_left (l : list BoardEntity) (b : Board) :
  extends b (fold_left addBoardEntity l b).
Proof.
  revert b. induction l as [|x l IH]; intros b; [apply extends_refl|].
  cbn [fold_left]. eapply extends_trans; [apply extends_addBoardEntity|apply IH].
Qed.

(** Placing a list of entities with pairwise different start cells puts
    each of them on its cell, if the cell was free to begin with. *)
Lemma fold_left_addBoardEntity_lookup (l : list BoardEntity) (b : Board) (e : BoardEntity) :
  NoDup (map getStart l) →
  e ∈ l →
  canAddEntity b (getStart e) = true →
  getEntity (fold_left addBoardEntity l b) (getStart e) = Some e.
Proof.
  revert b. induction l as [|x l IH]; intros b Hnd He Hfree.
  - by apply elem_of_nil in He.
  - cbn [map] in Hnd. apply NoDup_cons in Hnd as [Hx Hnd].
    cbn [fold_left]. apply elem_of_cons in He as [->|He].
    + rewrite getEntity_lookup.
      destruct (extends_fold_left l (addBoardEntity b x)) as [_ Hsub].
      eapply lookup_weaken; [|exact Hsub].
      rewrite addBoardEntity_free by done. cbn. by rewrite lookup_insert_eq.
    + apply IH; [done|done|].
      assert (Hne : getStart x ≠ getStart e).
      { intros Heq. apply Hx. rewrite Heq. by apply list_elem_of_fmap_2. }
      apply canAddEntity_true. apply canAddEntity_true in Hfree.
      unfold addBoardEntity. destruct (canAddEntity b (getStart x)); [|done].
      cbn. by rewrite lookup_insert_ne.
Qed.

(** Cells that start no entity of the list are left as they were. *)
Lemma fold_left_addBoardEntity_other (l : list BoardEntity) (b : Board) (c : Z) :
  c ∉ map getStart l →
  getEntity (fold_left addBoardEntity l b) c = getEntity b c.
Proof.
  revert b. induction l as [|x l IH]; intros b Hc; [done|].
  cbn [map] in Hc. apply not_elem_of_cons in Hc as [Hne Hc].
  cbn [fold_left]. rewrite IH by done. rewrite !getEntity_lookup.
  unfold addBoardEntity. destruct (canAddEntity b (getStart x)); [|done].
  cbn. by rewrite lookup_insert_ne.
Qed.

Lemma fold_left_addBoardEntity_entitiesList (l : list BoardEntity) (b : Board) :
  NoDup (map getStart l) →
  (∀ e, e ∈ l → canAddEntity b (getStart e) = true) →
  entitiesList (fold_left addBoardEntity l b) = entitiesList b ++ l.
Proof.
  revert b. induction l as [|x l IH]; intros b Hnd Hfree.
  - cbn. by rewrite app_nil_r.
  - cbn [map] in Hnd. apply NoDup_cons in Hnd as [Hx Hnd].
    cbn [fold_left].
    rewrite (addBoardEntity_free b x) by (apply Hfree, list_elem_of_here).
    rewrite IH; [cbn; by rewrite <- app_assoc|done|].
    intros e He. apply canAddEntity_true. cbn.
    rewrite lookup_insert_ne.
    + apply canAddEntity_true, Hfree. by apply list_elem_of_further.
    + intros Heq. apply Hx. rewrite Heq. apply list_elem_of_fmap. by exists e.
Qed.

(** C8. On a board whose size is not 100 the standard strategy prints
    one line, returns, and leaves the whole state as it was.  On a board
    of 100 cells it prints nothing and places the ten snakes 99-54, 95-75,
    92-88, 89-68, 74-53, 64-60, 62-19, 49-11, 46-25, 16-6 and the eleven
    ladders 2-38, 7-14, 8-31, 15-26, 21-42, 28-84, 36-44, 51-67, 71-91,
    78-98, 87-94, in this order: each of them ends up on its start cell
    when that cell was free, no other cell changes, and when all their
    start cells were free the vector grows by exactly these twenty-one
    entities. *)
Theorem standard_setup_needs_100_cells (w : World) :
  let canonical :=
    [mkBoardEntity SNAKE 99 54; mkBoardEntity SNAKE 95 75; mkBoardEntity SNAKE 92 88;
     mkBoardEntity SNAKE 89 68; mkBoardEntity SNAKE 74 53; mkBoardEntity SNAKE 64 60;
     mkBoardEntity SNAKE 62 19; mkBoardEntity SNAKE 49 11; mkBoardEntity SNAKE 46 25;
     mkBoardEntity SNAKE 16 6; mkBoardEntity LADDER 2 38; mkBoardEntity LADDER 7 14;
     mkBoardEntity LADDER 8 31; mkBoardEntity LADDER 15 26; mkBoardEntity LADDER 21 42;
     mkBoardEntity LADDER 28 84; mkBoardEntity LADDER 36 44; mkBoardEntity LADDER 51 67;
     mkBoardEntity LADDER 71 91; mkBoardEntity LADDER 78 98; mkBoardEntity LADDER 87 94] in
  (getBoardSize (gameBoard w) ≠ 100 →
     StandardBoardSetupStrategy_setupBoard w =
       (Ret tt, w,
        [Cout ("Standard configuration supports only a 10x10 board (100 cells)."
               +:+ endl)]))
  ∧ (getBoardSize (gameBoard w) = 100 →
     let b' := fold_left addBoardEntity canonical (gameBoard w) in
     StandardBoardSetupStrategy_setupBoard w = (Ret tt, set_gameBoard b' w, [])
     ∧ (∀ e, e ∈ canonical →
          canAddEntity (gameBoard w) (getStart e) = true →
          getEntity b' (getStart e) = Some e)
     ∧ (∀ c, c ∉ map getStart canonical →
          getEntity b' c = getEntity (gameBoard w) c)
     ∧ ((∀ e, e ∈ canonical → canAddEntity (gameBoard w) (getStart e) = true) →
          entitiesList b' = entitiesList (gameBoard w) ++ canonical)).
Proof.
  intros canonical.
  assert (Hcanonical : canonical = standard_entities) by reflexivity.
  assert (Hnd : NoDup (map getStart canonical))
    by (by apply (bool_decide_unpack _); vm_compute).
  clearbody canonical.
  split.
  - intros Hsize. apply Z.eqb_neq in Hsize.
    destruct w as [rs b fc q subs over h]. cbn in Hsize.
    unfold StandardBoardSetupStrategy_setupBoard. mrun. by rewrite Hsize.
  - intros Hsize b'. split; [|split; [|split]].
    + apply Z.eqb_eq in Hsize.
      unfold StandardBoardSetupStrategy_setupBoard.
      rewrite bind_run. cbn [gets]. rewrite Hsize. cbn [negb].
      rewrite bind_run, place_snakes_run
        by (unfold standard_snakes; repeat constructor; cbn; lia).
      rewrite place_ladders_run
        by (unfold standard_ladders; repeat constructor; cbn; lia).
      subst b'. rewrite Hcanonical. unfold standard_entities. rewrite fold_left_app.
      by destruct w.
    + intros e He Hfree. by apply fold_left_addBoardEntity_lookup.
    + intros c Hc. by apply fold_left_addBoardEntity_other.
    + intros Hfree. by apply fold_left_addBoardEntity_entitiesList.
Qed.

Lemma standard_setup_needs_100_cells_witness :
  let small := SnakeAndLadderGame_new (Board_new 5) 6 [] ∅ in
  let placed := gameBoard (world_of (StandardBoardSetupStrategy_setupBoard (empty_world []))) in
  getBoardSize (gameBoard small) ≠ 100
  ∧ StandardBoardSetupStrategy_setupBoard small =
      (Ret tt, small,
       [Cout ("Standard configuration supports only a 10x10 board (100 cells)."
              +:+ endl)])
  ∧ getBoardSize (gameBoard (empty_world [])) = 100
  ∧ entitiesList placed =
    [mkBoardEntity SNAKE 99 54; mkBoardEntity SNAKE 95 75; mkBoardEntity SNAKE 92 88;
     mkBoardEntity SNAKE 89 68; mkBoardEntity SNAKE 74 53; mkBoardEntity SNAKE 64 60;
     mkBoardEntity SNAKE 62 19; mkBoardEntity SNAKE 49 11; mkBoardEntity SNAKE 46 25;
     mkBoardEntity SNAKE 16 6; mkBoardEntity LADDER 2 38; mkBoardEntity LADDER 7 14;
     mkBoardEntity LADDER 8 31; mkBoardEntity LADDER 15 26; mkBoardEntity LADDER 21 42;
     mkBoardEntity LADDER 28 84; mkBoardEntity LADDER 36 44; mkBoardEntity LADDER 51 67;
     mkBoardEntity LADDER 71 91; mkBoardEntity LADDER 78 98; mkBoardEntity LADDER 87 94]
  ∧ getEntity placed 99 = Some (mkBoardEntity SNAKE 99 54)
  ∧ getEntity placed 28 = Some (mkBoardEntity LADDER 28 84)
  ∧ getEntity placed 54 = None.
Proof.
  cbv zeta.
  assert (Hsmall : getBoardSize (gameBoard (SnakeAndLadderGame_new (Board_new 5) 6 [] ∅)) ≠ 100)
    by (vm_compute; discriminate).
  split; [exact Hsmall|]. split.
  { exact (proj1 (standard_setup_needs_100_cells _) Hsmall). }
  split; [reflexivity|].
  destruct (proj2 (standard_setup_needs_100_cells (empty_world [])) eq_refl)
    as (Hrun & Hplaced & Hother & Hall).
  rewrite Hrun.
  split; [exact (Hall (λ e _, eq_refl))|].
  split; [apply (Hplaced (mkBoardEntity SNAKE 99 54)); [|reflexivity];
          apply list_elem_of_In; vm_compute; tauto|].
  split; [apply (Hplaced (mkBoardEntity LADDER 28 84)); [|reflexivity];
          apply list_elem_of_In; vm_compute; tauto|].
  etransitivity; [apply (Hother 54)|reflexivity].
  apply (bool_decide_unpack _). vm_compute. reflexivity.
Defined.

(** ** The turn *)

Lemma turn_returns (w : World) :
  turnQueue w ≠ [] → queue_valid w → dice_returns w →
  ∃ k w' tr, turn w = (Ret tt, w', tr) ∧ turn_step w k w'.
Proof.
  intros Hq Hv Hd. pose proof (turn_analysis w) as Han.
  destruct (turn w) as [[[[]|h] w'] tr].
  - destruct Han as [k Hk]. by exists k, w', tr.
  - destruct Han as (_ & _ & Hno). by destruct Hno.
Qed.

(** The front player, its record and the roll fix the step. *)
Lemma turn_step_inv (w w' w1 : World) (k : turn_kind) (p : nat) (q : list nat)
    (pl : SnakeAndLadderPlayer) (rollValue : Z) :
  turnQueue w = p :: q →
  playerHeap w !! p = Some pl →
  Dice_roll w = (Ret rollValue, w1, []) →
  turn_step w k w' →
  let size := getBoardSize (gameBoard w) in
  let newPos := calculateNewPosition (getPosition pl) rollValue (gameBoard w) in
  match k with
  | Overshoot =>
      isValidMove (getPosition pl) rollValue size = false
      ∧ w' = set_turnQueue (q ++ [p]) w1
  | Move =>
      isValidMove (getPosition pl) rollValue size = true
      ∧ checkWinCondition newPos size = false
      ∧ w' = set_turnQueue (q ++ [p])
               (set_playerHeap (alter (setPosition newPos) p (playerHeap w)) w1)
  | Win =>
      isValidMove (getPosition pl) rollValue size = true
      ∧ checkWinCondition newPos size = true
      ∧ w' = set_isGameOver true
               (set_playerHeap
                  (alter incrementScore p (alter (setPosition newPos) p (playerHeap w))) w1)
  end.
Proof.
  intros Hq Hp Hd Hstep. cbv zeta.
  destruct Hstep as [p0 q0 pl0 r0 w0 Hq0 Hp0 Hd0 Hv0
                    |p0 q0 pl0 r0 w0 n0 Hq0 Hp0 Hd0 Hv0 Hn0 Hw0
                    |p0 q0 pl0 r0 w0 n0 Hq0 Hp0 Hd0 Hv0 Hn0 Hw0];
    rewrite Hq in Hq0; injection Hq0 as <- <-;
    rewrite Hp in Hp0; injection Hp0 as <-;
    rewrite Hd in Hd0; injection Hd0 as <- <-; subst; done.
Qed.

Lemma isValidMove_false (currentPos diceValue boardSize : Z) :
  isValidMove currentPos diceValue boardSize = false
  ↔ int_add currentPos diceValue > boardSize.
Proof. unfold isValidMove. rewrite Z.leb_gt. lia. Qed.

Lemma isValidMove_true (currentPos diceValue boardSize : Z) :
  isValidMove currentPos diceValue boardSize = true
  ↔ int_add currentPos diceValue <= boardSize.
Proof. unfold isValidMove. by rewrite Z.leb_le. Qed.

(** C9. With fewer than two players in the queue [play] prints one line
    and returns: the state it returns is the state it was given (queue,
    players, positions, win counts and the game-over flag included), and
    no observer is called. *)
Theorem play_needs_two_players (w : World) :
  (length (turnQueue w) < 2)%nat →
  play w =
    (Ret tt, w,
     [Cout ("A minimum of 2 players is required to start the game." +:+ endl)]).
Proof.
  intros Hlen. apply Nat.ltb_lt in Hlen.
  destruct w as [rs b fc q subs over h]. cbn [turnQueue] in Hlen.
  unfold play. mrun. by rewrite Hlen.
Qed.

Lemma play_needs_two_players_witness :
  (length (turnQueue one_player_game) < 2)%nat
  ∧ play one_player_game =
      (Ret tt, one_player_game,
       [Cout ("A minimum of 2 players is required to start the game." +:+ endl)]).
Proof.
  assert (Hlen : (length (turnQueue one_player_game) < 2)%nat) by (vm_compute; lia).
  split; [exact Hlen|]. exact (play_needs_two_players one_player_game Hlen).
Defined.

(** ** Overshooting the last cell *)

Lemma Dice_roll_state (w w1 : World) (rollValue : Z) (t : list event) :
  Dice_roll w = (Ret rollValue, w1, t) →
  w1 = set_rands (tail (rands w)) w.
Proof.
  intros Hd. apply Dice_roll_inv in Hd as (r & rest & m & Hr & _ & _ & -> & _).
  by rewrite Hr.
Qed.

(** C3, as the code has it.  When the roll would take the front player
    beyond the last cell, the pass prints the prompt, the dice result and
    the line [Exact roll required to reach cell N.] on standard output and
    calls no observer.  No player record changes, and of the engine state
    only the queue does: the front player goes to the back.  (The roll has
    used up one value of the random source.) *)
Theorem overshoot_forfeits_turn (w w1 : World) (p : nat) (q : list nat)
    (pl : SnakeAndLadderPlayer) (rollValue : Z) :
  turnQueue w = p :: q →
  playerHeap w !! p = Some pl →
  Dice_roll w = (Ret rollValue, w1, []) →
  int_add (getPosition pl) rollValue > getBoardSize (gameBoard w) →
  ∃ w' tr,
    turn w = (Ret tt, w', tr)
    ∧ tr = [Cout (endl +:+ getName pl +:+ "'s turn. Press Enter to roll the dice...");
            Cout ("Dice result: " +:+ to_string rollValue +:+ endl);
            Cout ("Exact roll required to reach cell "
                  +:+ to_string (getBoardSize (gameBoard w)) +:+ "." +:+ endl)]
    ∧ (∀ observer msg, Update observer msg ∉ tr)
    ∧ playerHeap w' = playerHeap w
    ∧ turnQueue w' = q ++ [p]
    ∧ isGameOver w' = isGameOver w
    ∧ gameBoard w' = gameBoard w
    ∧ faceCount w' = faceCount w
    ∧ subscriberList w' = subscriberList w
    ∧ rands w' = tail (rands w).
Proof.
  intros Hq Hp Hd Hover. apply isValidMove_false in Hover.
  pose proof (Dice_roll_state _ _ _ _ Hd) as Hw1.
  apply Dice_roll_inv in Hd as (r & rest & m & Hr & Hm & Hroll & _ & _).
  destruct w as [rs b fc tq subs over h]. cbn in Hq, Hp, Hr, Hm, Hover. subst.
  eexists _, _. split.
  { unfold turn. mrun. rewrite Hp. mrun. rewrite Hm. mrun. rewrite Hover. mrun.
    reflexivity. }
  split; [reflexivity|]. split; [|done].
  intros observer msg Hin.
  repeat (apply elem_of_cons in Hin as [Hin|Hin]; [discriminate|]).
  by apply elem_of_nil in Hin.
Qed.

Lemma overshoot_forfeits_turn_witness :
  turnQueue overshoot_game = [1%nat; 2%nat]
  ∧ int_add 98 3 > getBoardSize (gameBoard overshoot_game)
  ∧ ∃ w' tr,
      turn overshoot_game = (Ret tt, w', tr)
      ∧ tr = [Cout (endl +:+ "Asha's turn. Press Enter to roll the dice...");
              Cout ("Dice result: 3" +:+ endl);
              Cout ("Exact roll required to reach cell 100." +:+ endl)]
      ∧ turnQueue w' = [2%nat; 1%nat]
      ∧ playerHeap w' = playerHeap overshoot_game.
Proof.
  split; [by vm_compute|]. split; [by vm_compute|].
  destruct (overshoot_forfeits_turn overshoot_game
              (set_rands [] overshoot_game) 1 [2%nat]
              (setPosition 98 (SnakeAndLadderPlayer_new 1 "Asha")) 3)
    as (w' & tr & Hrun & Htr & _ & Hheap & Hqueue & _);
    [by vm_compute|by vm_compute|by vm_compute|by vm_compute|].
  exists w', tr. split; [exact Hrun|]. split; [exact Htr|].
  split; [exact Hqueue|exact Hheap].
Defined.

(** C3, as the claim has it, fails: the observer registered at address 7
    is not called during the pass in which Asha overshoots. *)
Lemma overshoot_calls_no_observer :
  subscriberList overshoot_game = [7%nat]
  ∧ head (turnQueue overshoot_game) = Some 1%nat
  ∧ getPosition <$> playerHeap overshoot_game !! 1%nat = Some 98
  ∧ outcome_of (Dice_roll overshoot_game) = Ret 3
  ∧ 98 + 3 > getBoardSize (gameBoard overshoot_game)
  ∧ isValidMove 98 3 (getBoardSize (gameBoard overshoot_game)) = false
  ∧ ¬ ∃ msg, Update 7 msg ∈ trace_of (turn overshoot_game).
Proof.
  split; [by vm_compute|]. split; [by vm_compute|]. split; [by vm_compute|].
  split; [by vm_compute|]. split; [by vm_compute|]. split; [by vm_compute|].
  intros [msg Hin].
  assert (Htr : trace_of (turn overshoot_game) =
                [Cout (endl +:+ "Asha's turn. Press Enter to roll the dice...");
                 Cout ("Dice result: 3" +:+ endl);
                 Cout ("Exact roll required to reach cell 100." +:+ endl)])
    by (vm_compute; reflexivity).
  rewrite Htr in Hin. clear Htr.
  apply list_elem_of_In in Hin. cbn [In] in Hin.
  destruct Hin as [H|[H|[H|[]]]]; discriminate H.
Qed.

(** ** Winning *)

Lemma checkWinCondition_true (position boardSize : Z) :
  checkWinCondition position boardSize = true ↔ position = boardSize.
Proof. apply Z.eqb_eq. Qed.

(** C2. [checkWinCondition] holds exactly when the position is the board
    size.  In a pass of the loop of a game that is not over, the game is
    declared won exactly when the roll does not overshoot and the cell the
    move resolves to is the last one; a roll that overshoots ends no game
    and changes no player.  The winner's counter is one more than it
    was. *)
Theorem win_only_on_exact_landing (w w1 : World) (p : nat) (q : list nat)
    (pl : SnakeAndLadderPlayer) (rollValue : Z) :
  queue_valid w →
  turnQueue w = p :: q →
  playerHeap w !! p = Some pl →
  Dice_roll w = (Ret rollValue, w1, []) →
  isGameOver w = false →
  let size := getBoardSize (gameBoard w) in
  let landed := int_add (getPosition pl) rollValue in
  let newPos := calculateNewPosition (getPosition pl) rollValue (gameBoard w) in
  (∀ position boardSize, checkWinCondition position boardSize = true ↔ position = boardSize)
  ∧ ∃ w' tr,
      turn w = (Ret tt, w', tr)
      ∧ (isGameOver w' = true ↔ landed <= size ∧ newPos = size)
      ∧ (landed > size → isGameOver w' = false ∧ playerHeap w' = playerHeap w)
      ∧ (isGameOver w' = true →
           ∃ pl', playerHeap w' !! p = Some pl'
                  ∧ getPosition pl' = size
                  ∧ getScore pl' = int_add (getScore pl) 1)
      ∧ (isGameOver w' = false →
           ∃ pl', playerHeap w' !! p = Some pl' ∧ getScore pl' = getScore pl).
Proof.
  intros Hv Hq Hp Hd Hover size landed newPos.
  split; [apply checkWinCondition_true|].
  destruct (turn_returns w) as (k & w' & tr & Hrun & Hstep);
    [by rewrite Hq|done|by exists rollValue, w1|].
  exists w', tr. split; [exact Hrun|].
  pose proof (turn_step_inv _ _ _ _ _ _ _ _ Hq Hp Hd Hstep) as Hinv. cbv zeta in Hinv.
  pose proof (Dice_roll_state _ _ _ _ Hd) as Hw1.
  fold size newPos in Hinv.
  destruct w as [rs b fc tq subs over h]. cbn in Hq, Hp, Hover, Hw1. subst tq over w1.
  destruct k.
  - destruct Hinv as (Hvalid & ->). apply isValidMove_false in Hvalid.
    fold landed in Hvalid. cbn.
    split; [split; [intros [=]|intros [? ?]; lia]|]. split; [done|]. split; [intros [=]|].
    intros _. by exists pl.
  - destruct Hinv as (Hvalid & Hwin & ->). apply isValidMove_true in Hvalid.
    fold landed in Hvalid. cbn.
    assert (Hne : newPos ≠ size).
    { intros Heq. apply checkWinCondition_true in Heq. congruence. }
    split; [split; [intros [=]|tauto]|]. split; [lia|]. split; [intros [=]|].
    intros _. exists (setPosition newPos pl).
    by rewrite lookup_alter_eq, Hp.
  - destruct Hinv as (Hvalid & Hwin & ->). apply isValidMove_true in Hvalid.
    fold landed in Hvalid. apply checkWinCondition_true in Hwin. cbn.
    split; [done|]. split; [lia|]. split; [|intros [=]].
    intros _. exists (incrementScore (setPosition newPos pl)).
    by rewrite !lookup_alter_eq, Hp.
Qed.

Lemma win_only_on_exact_landing_witness :
  queue_valid winning_game
  ∧ turnQueue winning_game = [1%nat; 2%nat]
  ∧ isGameOver winning_game = false
  ∧ ∃ w' tr,
      turn winning_game = (Ret tt, w', tr)
      ∧ isGameOver w' = true
      ∧ getScore <$> playerHeap w' !! 1%nat = Some 1.
Proof.
  assert (Hv : queue_valid winning_game).
  { intros p Hp. apply list_elem_of_In in Hp.
    destruct Hp as [<-|[<-|[]]]; vm_compute; by eexists. }
  split; [exact Hv|]. split; [by vm_compute|]. split; [by vm_compute|].
  destruct (win_only_on_exact_landing winning_game (set_rands [] winning_game)
              1 [2%nat] (setPosition 98 (SnakeAndLadderPlayer_new 1 "Asha")) 2 Hv)
    as (_ & w' & tr & Hrun & Hiff & _ & Hwon & _);
    [by vm_compute|by vm_compute|by vm_compute|by vm_compute|].
  assert (Hover : isGameOver w' = true).
  { apply Hiff. split; by vm_compute. }
  exists w', tr. split; [exact Hrun|]. split; [exact Hover|].
  destruct (Hwon Hover) as (pl' & Hpl' & _ & Hscore).
  rewrite Hpl'. cbn [fmap option_fmap option_map]. rewrite Hscore. by vm_compute.
Defined.

(** ** What a turn leaves alone *)

(** C10. A pass of the loop on a well-formed state returns, and it
    writes through the front address only: the record at every other
    address is what it was.  The front player keeps its identity and
    name, and its win counter unless the turn wins.  The queue after the
    pass is a permutation of the queue before it: the same queue after a
    winning turn, the queue rotated by one otherwise.  The board and the
    observers are not touched. *)
Theorem turn_frame (w : World) (p : nat) (q : list nat) :
  queue_valid w →
  turnQueue w = p :: q →
  dice_returns w →
  ∃ k w' tr,
    turn w = (Ret tt, w', tr)
    ∧ turn_step w k w'
    ∧ (∀ p', p' ≠ p → playerHeap w' !! p' = playerHeap w !! p')
    ∧ (∃ pl pl', playerHeap w !! p = Some pl ∧ playerHeap w' !! p = Some pl'
                 ∧ id pl' = id pl ∧ getName pl' = getName pl
                 ∧ (k ≠ Win → getScore pl' = getScore pl)
                 ∧ (k = Overshoot → pl' = pl))
    ∧ turnQueue w' ≡ₚ turnQueue w
    ∧ turnQueue w' = match k with Win => p :: q | _ => q ++ [p] end
    ∧ gameBoard w' = gameBoard w
    ∧ subscriberList w' = subscriberList w.
Proof.
  intros Hv Hq (rollValue & w1 & Hd).
  destruct (Hv p) as [pl Hp]; [rewrite Hq; apply list_elem_of_here|].
  destruct (turn_returns w) as (k & w' & tr & Hrun & Hstep);
    [by rewrite Hq|done|by exists rollValue, w1|].
  exists k, w', tr. split; [exact Hrun|]. split; [exact Hstep|].
  pose proof (turn_step_inv _ _ _ _ _ _ _ _ Hq Hp Hd Hstep) as Hinv. cbv zeta in Hinv.
  pose proof (Dice_roll_state _ _ _ _ Hd) as Hw1.
  clear Hrun Hstep Hd Hv.
  destruct w as [rs b fc tq subs over h]. cbn in Hq, Hp, Hw1, Hinv. subst tq w1.
  set (newPos := calculateNewPosition (getPosition pl) rollValue b) in *.
  assert (Hrot : q ++ [p] ≡ₚ p :: q) by (by rewrite Permutation_app_comm).
  destruct k.
  - destruct Hinv as (_ & ->). cbn.
    split; [done|]. split; [by exists pl, pl|]. done.
  - destruct Hinv as (_ & _ & ->). cbn.
    split; [intros p' Hne; by rewrite lookup_alter_ne|].
    split; [|done].
    exists pl, (setPosition newPos pl). by rewrite lookup_alter_eq, Hp.
  - destruct Hinv as (_ & _ & ->). cbn.
    split; [intros p' Hne; by rewrite !lookup_alter_ne|].
    split; [|done].
    exists pl, (incrementScore (setPosition newPos pl)).
    by rewrite !lookup_alter_eq, Hp.
Qed.

Lemma turn_frame_witness :
  queue_valid moving_game
  ∧ turnQueue moving_game = [1%nat; 2%nat]
  ∧ dice_returns moving_game
  ∧ ∃ w',
      world_of (turn moving_game) = w'
      ∧ playerHeap w' !! 2%nat = playerHeap moving_game !! 2%nat
      ∧ turnQueue w' ≡ₚ turnQueue moving_game.
Proof.
  assert (Hv : queue_valid moving_game).
  { intros p Hp. apply list_elem_of_In in Hp.
    destruct Hp as [<-|[<-|[]]]; vm_compute; by eexists. }
  assert (Hq : turnQueue moving_game = [1%nat; 2%nat]) by (by vm_compute).
  assert (Hd : dice_returns moving_game).
  { exists 1, (set_rands [] moving_game). by vm_compute. }
  split; [exact Hv|]. split; [exact Hq|]. split; [exact Hd|].
  destruct (turn_frame moving_game 1 [2%nat] Hv Hq Hd)
    as (k & w' & tr & Hrun & _ & Hothers & _ & Hperm & _).
  exists w'. split; [by rewrite Hrun|]. split; [by apply Hothers|exact Hperm].
Defined.

(** ** The loop *)

Lemma play_loop_unfold (passes : nat) (w : World) :
  play_loop passes w =
  if isGameOver w then (Ret tt, w, [])
  else match passes with
       | O => (Halt RandExhausted, w, [])
       | S passes' =>
           match turn w with
           | (Ret _, w1, t1) =>
               match play_loop passes' w1 with (o, w2, t2) => (o, w2, t1 ++ t2) end
           | (Halt h, w1, t1) => (Halt h, w1, t1)
           end
       end.
Proof.
  destruct passes; cbn [play_loop]; rewrite bind_run; cbn [gets];
    destruct (isGameOver w); try reflexivity.
  rewrite bind_run. destruct (turn w) as [[[[]|h] w1] t1]; [|done].
  by destruct (play_loop passes w1) as [[o w2] t2].
Qed.

Lemma play_states_last (passes : nat) (w : World) :
  last (play_states passes w) = Some (world_of (play_loop passes w)).
Proof.
  revert w. induction passes as [|n IH]; intros w;
    rewrite play_loop_unfold; cbn [play_states].
  - by destruct (isGameOver w).
  - destruct (isGameOver w); [done|].
    destruct (turn w) as [[[[]|h] w1] t1]; [|done].
    specialize (IH w1). destruct (play_loop n w1) as [[o w2] t2].
    unfold world_of in *. cbn [fst snd] in *.
    destruct n; cbn [play_states] in *; exact IH.
Qed.

Lemma turn_step_isGameOver (w w' : World) (k : turn_kind) :
  turn_step w k w' →
  isGameOver w' = match k with Win => true | _ => isGameOver w end.
Proof.
  intros Hstep.
  destruct Hstep as [p q pl r w1 _ _ Hd _|p q pl r w1 n _ _ Hd _ _ _|p q pl r w1 n _ _ Hd _ _ _];
    apply Dice_roll_state in Hd; subst w1; by destruct w.
Qed.

Lemma play_states_steps (passes : nat) (w : World) (i : nat) (wi : World) :
  play_states passes w !! i = Some wi →
  (isGameOver wi = true → play_states passes w !! S i = None)
  ∧ (∀ wj, play_states passes w !! S i = Some wj →
       isGameOver wi = false
       ∧ (isGameOver wj = true → ∃ tr, turn wi = (Ret tt, wj, tr) ∧ turn_step wi Win wj)).
Proof.
  revert w i wi. induction passes as [|n IH]; intros w i wi; cbn [play_states].
  - destruct (isGameOver w); destruct i as [|i]; cbn; done.
  - destruct (isGameOver w) eqn:Hover.
    { destruct i as [|i]; cbn; [|done]. intros [= <-]. split; [done|]. intros wj [=]. }
    pose proof (turn_analysis w) as Han.
    destruct (turn w) as [[[[]|h] w1] t1] eqn:Hturn.
    + destruct i as [|i]; [|apply IH].
      cbn. intros [= <-]. split; [congruence|].
      intros wj Hj. split; [done|]. intros Hwon.
      assert (wj = w1) as -> by (destruct n; cbn in Hj; congruence).
      destruct Han as [k Hk]. exists t1. split; [done|].
      apply turn_step_isGameOver in Hk as Hflag.
      destruct k; congruence.
    + destruct Han as (Hflag & _ & _).
      destruct i as [|[|i]]; cbn; try done.
      intros [= <-]. split; [congruence|].
      intros wj [= <-]. split; [done|]. congruence.
Qed.

Lemma play_game_over (w : World) :
  isGameOver w = true → world_of (play w) = w.
Proof.
  intros Hover. destruct w as [rs b fc q subs over h]. cbn in Hover. subst over.
  unfold play. mrun. destruct (length q <? 2)%nat; [reflexivity|].
  rewrite play_loop_unfold. reflexivity.
Qed.

(** C4. Along the states of a run of the loop: a state with the flag set
    has no successor, so no pass runs after it and the state the loop
    returns is that state; the flag is set between two consecutive states
    only by a winning pass from a state where it was unset; and that
    happens at most once.  Started on a game that is over, the loop makes
    no pass and [play] leaves the state as it is. *)
Theorem gameOver_is_terminal (passes : nat) (w : World) :
  let states := play_states passes w in
  last states = Some (world_of (play_loop passes w))
  ∧ (∀ i wi, states !! i = Some wi → isGameOver wi = true → states !! S i = None)
  ∧ (∀ i wi wj, states !! i = Some wi → states !! S i = Some wj →
       isGameOver wj = true →
       isGameOver wi = false
       ∧ ∃ tr, turn wi = (Ret tt, wj, tr) ∧ turn_step wi Win wj)
  ∧ (∀ i j, flips_at states i → flips_at states j → i = j)
  ∧ (isGameOver w = true →
       play_loop passes w = (Ret tt, w, []) ∧ world_of (play w) = w).
Proof.
  intros states.
  assert (Hterm : ∀ i wi, states !! i = Some wi → isGameOver wi = true →
                          states !! S i = None).
  { intros i wi Hi. by apply (play_states_steps passes w i wi Hi). }
  split; [apply play_states_last|]. split; [exact Hterm|]. split; [|split].
  - intros i wi wj Hi Hj Hwon.
    destruct (play_states_steps passes w i wi Hi) as [_ Hnext].
    destruct (Hnext wj Hj) as [Hunset Hwin]. split; [done|by apply Hwin].
  - assert (Hlt : ∀ i j, flips_at states i → flips_at states j → (i < j)%nat → False).
    { intros i j (wi & wi' & Hi & Hi' & _ & Hset) (wj & wj' & Hj & _ & Hunset & _) Hij.
      pose proof (Hterm (S i) wi' Hi' Hset) as Hend.
      destruct (decide (j = S i)) as [->|Hne]; [congruence|].
      apply lookup_ge_None in Hend.
      assert (Hnone : states !! j = None) by (apply lookup_ge_None; lia).
      congruence. }
    intros i j Hi Hj. destruct (lt_eq_lt_dec i j) as [[Hij|Hij]|Hij]; [|done|].
    + destruct (Hlt i j Hi Hj Hij).
    + destruct (Hlt j i Hj Hi Hij).
  - intros Hover. split; [|by apply play_game_over].
    rewrite play_loop_unfold. by rewrite Hover.
Qed.

Lemma gameOver_is_terminal_witness :
  play_states 4 full_game !! 2%nat = Some full_game_2
  ∧ play_states 4 full_game !! 3%nat = Some full_game_3
  ∧ isGameOver full_game_3 = true
  ∧ (isGameOver full_game_2 = false
     ∧ ∃ tr, turn full_game_2 = (Ret tt, full_game_3, tr)
             ∧ turn_step full_game_2 Win full_game_3)
  ∧ play_states 4 full_game !! 4%nat = None
  ∧ last (play_states 4 full_game) = Some (world_of (play_loop 4 full_game)).
Proof.
  destruct (gameOver_is_terminal 4 full_game) as (Hlast & Hterm & Hwin & _).
  assert (H2 : play_states 4 full_game !! 2%nat = Some full_game_2)
    by (vm_compute; reflexivity).
  assert (H3 : play_states 4 full_game !! 3%nat = Some full_game_3)
    by (vm_compute; reflexivity).
  assert (Hset : isGameOver full_game_3 = true) by (vm_compute; reflexivity).
  split; [exact H2|]. split; [exact H3|]. split; [exact Hset|].
  split; [exact (Hwin _ _ _ H2 H3 Hset)|].
  split; [exact (Hterm _ _ H3 Hset)|exact Hlast].
Defined.

(** ** Runs of a well-formed game *)

Lemma Dice_roll_wf (w : World) (r : Z) (rest : list Z) :
  faceCount w ≠ 0 → rand_ok r → rands w = r :: rest →
  Dice_roll w = (Ret (int_add (Z.rem r (faceCount w)) 1), set_rands rest w, []).
Proof.
  intros Hf [Hr _] Hsupply. destruct w as [rs b fc q subs over h].
  cbn in Hf, Hsupply. subst rs. mrun. unfold int_rem.
  replace (fc =? 0) with false by (symmetry; by apply Z.eqb_neq).
  replace (r =? INT_MIN) with false
    by (symmetry; apply Z.eqb_neq; unfold INT_MIN; lia).
  reflexivity.
Qed.

Lemma turn_out_of_rands (w : World) :
  turnQueue w ≠ [] → queue_valid w → rands w = [] →
  ∃ tr, turn w = (Halt RandExhausted, w, tr).
Proof.
  intros Hq Hv Hr. destruct w as [rs b fc q subs over h]. cbn in Hq, Hr. subst rs.
  destruct q as [|p q]; [done|].
  destruct (Hv p) as [pl Hp]; [apply list_elem_of_here|]. cbn in Hp.
  unfold turn. mrun. rewrite Hp. mrun. by eexists.
Qed.

Lemma turn_step_wf (w w' : World) (k : turn_kind) :
  game_wf w → turn_step w k w' → game_wf w'.
Proof.
  intros (Hq & Hv & Hf & Hs) Hstep.
  assert (Halter : ∀ (h : gmap nat SnakeAndLadderPlayer) f p x,
             is_Some (h !! x) → is_Some (alter f p h !! x)).
  { intros h f p x Hx. destruct (decide (p = x)) as [->|Hne].
    - rewrite lookup_alter_eq. by apply fmap_is_Some.
    - by rewrite lookup_alter_ne. }
  destruct Hstep as [p q pl r w1 Hq0 Hp Hd _|p q pl r w1 n Hq0 Hp Hd _ _ _
                    |p q pl r w1 n Hq0 Hp Hd _ _ _];
    apply Dice_roll_state in Hd; subst w1;
    destruct w as [rs b fc tq subs over h];
    unfold game_wf, queue_valid, supply_ok in *; cbn in *; subst tq.
  - split; [by destruct q|]. split; [|split; [done|by apply Forall_tail]].
    intros x Hx. apply Hv. apply elem_of_app in Hx as [Hx|Hx].
    + by apply list_elem_of_further.
    + apply list_elem_of_singleton in Hx as ->. apply list_elem_of_here.
  - split; [by destruct q|]. split; [|split; [done|by apply Forall_tail]].
    intros x Hx. apply Halter, Hv. apply elem_of_app in Hx as [Hx|Hx].
    + by apply list_elem_of_further.
    + apply list_elem_of_singleton in Hx as ->. apply list_elem_of_here.
  - split; [done|]. split; [|split; [done|by apply Forall_tail]].
    intros x Hx. by apply Halter, Halter, Hv.
Qed.

(** In a well-formed state a pass either makes a step or finds the random
    source empty before it has changed anything. *)
Lemma turn_wf_cases (w : World) :
  game_wf w →
  (∃ k w' tr, turn w = (Ret tt, w', tr) ∧ turn_step w k w' ∧ game_wf w')
  ∨ (∃ tr, turn w = (Halt RandExhausted, w, tr) ∧ rands w = []).
Proof.
  intros Hwf. pose proof Hwf as (Hq & Hv & Hf & Hs).
  destruct (rands w) as [|r rest] eqn:Hr.
  - right. destruct (turn_out_of_rands w Hq Hv Hr) as [tr Htr]. by exists tr.
  - left. unfold supply_ok in Hs. rewrite Hr in Hs. apply Forall_cons in Hs as [Hrok _].
    destruct (turn_returns w Hq Hv) as (k & w' & tr & Hrun & Hstep).
    { eexists _, _. by apply Dice_roll_wf. }
    exists k, w', tr. split; [done|]. split; [done|]. by eapply turn_step_wf.
Qed.

(** What every step from a well-formed, unfinished state preserves, the
    loop preserves; and the loop ends in one of two ways. *)
Lemma play_loop_invariant (I : World → Prop) :
  (∀ w k w', game_wf w → isGameOver w = false → I w → turn_step w k w' → I w') →
  ∀ passes w, game_wf w → I w →
    I (world_of (play_loop passes w))
    ∧ game_wf (world_of (play_loop passes w))
    ∧ (outcome_of (play_loop passes w) = Ret tt
         ∧ isGameOver (world_of (play_loop passes w)) = true
       ∨ outcome_of (play_loop passes w) = Halt RandExhausted
         ∧ isGameOver (world_of (play_loop passes w)) = false).
Proof.
  intros Hstep passes. induction passes as [|n IH]; intros w Hwf HI;
    rewrite play_loop_unfold; destruct (isGameOver w) eqn:Hover;
    try (cbn; by eauto).
  destruct (turn_wf_cases w Hwf) as [(k & w' & tr & Hrun & Hk & Hwf')|(tr & Hrun & _)];
    rewrite Hrun.
  - specialize (IH w' Hwf' (Hstep _ _ _ Hwf Hover HI Hk)).
    by destruct (play_loop n w') as [[o w2] t2].
  - cbn. eauto.
Qed.

(** ** The dice *)

(** X1. A dice with at least one face, fed a value [rand()] can return,
    returns a number from 1 to its face count and uses up exactly that
    value; a dice with no face has no defined roll. *)
Theorem Dice_roll_range (w : World) (r : Z) (rest : list Z) :
  rands w = r :: rest →
  rand_ok r →
  (1 <= faceCount w <= INT_MAX →
     ∃ rollValue,
       Dice_roll w = (Ret rollValue, set_rands rest w, [])
       ∧ 1 <= rollValue <= faceCount w)
  ∧ (faceCount w = 0 → Dice_roll w = (Halt Undefined, set_rands rest w, [])).
Proof.
  intros Hsupply Hr. split.
  - intros Hf. exists (int_add (Z.rem r (faceCount w)) 1).
    split; [apply Dice_roll_wf; [lia|done..]|].
    destruct Hr as [Hr0 Hr1].
    pose proof (Z.rem_bound_pos r (faceCount w) Hr0 ltac:(lia)) as Hrem.
    rewrite int_add_exact; [lia|]. unfold int_range, INT_MIN, INT_MAX in *. lia.
  - intros Hf. destruct w as [rs b fc q subs over h]. cbn in Hsupply, Hf. subst.
    mrun. reflexivity.
Qed.

Lemma Dice_roll_range_witness :
  rands (two_player_game 0 [11; 4]) = [11; 4]
  ∧ rand_ok 11
  ∧ 1 <= faceCount (two_player_game 0 [11; 4]) <= INT_MAX
  ∧ ∃ rollValue,
      Dice_roll (two_player_game 0 [11; 4])
      = (Ret rollValue, set_rands [4] (two_player_game 0 [11; 4]), [])
      ∧ 1 <= rollValue <= faceCount (two_player_game 0 [11; 4]).
Proof.
  assert (Hs : rands (two_player_game 0 [11; 4]) = [11; 4]) by (vm_compute; reflexivity).
  assert (Hr : rand_ok 11) by (unfold rand_ok, INT_MAX; lia).
  assert (Hf : 1 <= faceCount (two_player_game 0 [11; 4]) <= INT_MAX)
    by (vm_compute; split; discriminate).
  split; [exact Hs|]. split; [exact Hr|]. split; [exact Hf|].
  exact (proj1 (Dice_roll_range _ 11 [4] Hs Hr) Hf).
Defined.

(** ** What the engine never writes *)

Lemma fixes_bind {A B C} (f : World → C) (m : M A) (k : A → M B) :
  fixes f m → (∀ a, fixes f (k a)) → fixes f (m ≫= k).
Proof.
  intros Hm Hk w. rewrite bind_run. specialize (Hm w).
  destruct (m w) as [[[a|h] w1] t1]; [|exact Hm].
  specialize (Hk a w1). destruct (k a w1) as [[o w2] t2].
  unfold world_of in *. cbn in *. congruence.
Qed.

Lemma fixes_pure {A B} (f : World → B) (m : M A) :
  (∀ w, world_of (m w) = w) → fixes f m.
Proof. intros Hm w. by rewrite Hm. Qed.

Lemma fixes_modify {B} (f : World → B) (g : World → World) :
  (∀ w, f (g w) = f w) → fixes f (modify g).
Proof. intros Hg w. apply Hg. Qed.

Lemma fixes_for_each {A B} (f : World → B) (l : list A) (body : A → M unit) :
  (∀ x, fixes f (body x)) → fixes f (for_each l body).
Proof.
  intros Hbody. induction l as [|x l IH]; [by apply fixes_pure|].
  cbn [for_each]. apply fixes_bind; [apply Hbody|intros _; exact IH].
Qed.

Lemma fixes_setup_rand : fixes setup_view rand.
Proof. intros [[|r rest] b fc q subs over h]; reflexivity. Qed.

Lemma fixes_setup_defined {A} (o : option A) : fixes setup_view (defined o).
Proof. by destruct o. Qed.

Ltac fixes_setup :=
  repeat first
    [ apply fixes_setup_rand
    | apply fixes_setup_defined
    | apply fixes_bind; [|intros ?]
    | apply fixes_for_each; intros ?
    | apply fixes_modify; intros []; reflexivity
    | apply fixes_pure; intros []; reflexivity
    | match goal with
      | |- fixes _ (if ?c then _ else _) => destruct c
      | |- fixes _ (match ?o with Some _ => _ | None => _ end) => destruct o
      end ].

Lemma fixes_setup_turn : fixes setup_view turn.
Proof.
  unfold turn, Dice_roll, update_player, deref, notify, displayPlayerPositions,
    rotate, cout, deref.
  fixes_setup.
Qed.

Lemma fixes_setup_play_loop (passes : nat) : fixes setup_view (play_loop passes).
Proof.
  induction passes as [|n IH]; cbn [play_loop]; fixes_setup;
    first [apply fixes_setup_turn|exact IH].
Qed.

(** X2. [play] reads the board, the dice and the observer list and never
    writes them, however it ends: in the state it leaves behind they are
    what they were in the state it was started in. *)
Theorem play_fixes_setup (w : World) :
  gameBoard (world_of (play w)) = gameBoard w
  ∧ faceCount (world_of (play w)) = faceCount w
  ∧ subscriberList (world_of (play w)) = subscriberList w.
Proof.
  assert (Hfix : fixes setup_view play).
  { unfold play, notify, cout. fixes_setup. apply fixes_setup_play_loop. }
  specialize (Hfix w). unfold setup_view in Hfix. by injection Hfix.
Qed.

(** ** Whole games *)

Lemma play_starts_loop (w : World) :
  (2 ≤ length (turnQueue w))%nat →
  outcome_of (play w) = outcome_of (play_loop (S (length (rands w))) w)
  ∧ world_of (play w) = world_of (play_loop (S (length (rands w))) w).
Proof.
  intros Hlen. destruct w as [rs b fc q subs over h]. cbn [turnQueue] in Hlen.
  unfold play. mrun.
  replace (length q <? 2)%nat with false by (symmetry; apply Nat.ltb_ge; lia).
  by destruct (play_loop (S (length rs)) _) as [[o w2] t2].
Qed.

(** With more passes than dice values the loop stops for want of a value
    only when there is none left. *)
Lemma play_loop_exhausts (passes : nat) (w : World) :
  game_wf w →
  (length (rands w) < passes)%nat →
  outcome_of (play_loop passes w) = Halt RandExhausted →
  rands (world_of (play_loop passes w)) = [].
Proof.
  revert w. induction passes as [|n IH]; intros w Hwf Hlen; [lia|].
  rewrite play_loop_unfold. destruct (isGameOver w); [discriminate|].
  destruct (turn_wf_cases w Hwf) as [(k & w' & tr & Hrun & Hk & Hwf')|(tr & Hrun & Hr)];
    rewrite Hrun; [|done].
  assert (Hrands : ∃ r, rands w = r :: rands w').
  { destruct Hk as [p q pl r w1 _ _ Hd _|p q pl r w1 m _ _ Hd _ _ _|p q pl r w1 m _ _ Hd _ _ _];
      apply Dice_roll_inv in Hd as (r0 & rest & _ & Hr & _ & _ & -> & _);
      exists r0; rewrite Hr; by destruct w. }
  destruct Hrands as [r Hrands]. rewrite Hrands in Hlen. cbn in Hlen.
  specialize (IH w' Hwf').
  destruct (play_loop n w') as [[o w2] t2]. cbn in *. apply IH. lia.
Qed.

Lemma turn_step_queue (w w' : World) (k : turn_kind) :
  turn_step w k w' →
  turnQueue w' ≡ₚ turnQueue w ∧ dom (playerHeap w') = dom (playerHeap w).
Proof.
  intros Hk.
  destruct Hk as [p q pl r w1 Hq _ Hd _|p q pl r w1 m Hq _ Hd _ _ _|p q pl r w1 m Hq _ Hd _ _ _];
    apply Dice_roll_state in Hd; subst w1; destruct w as [rs b fc tq subs over h];
    cbn in *; subst tq; rewrite ?dom_alter_L; split; try done;
    by rewrite Permutation_app_comm.
Qed.

Lemma two_player_game_wf (pos1 : Z) (supply : list Z) :
  Forall rand_ok supply → game_wf (two_player_game pos1 supply).
Proof.
  intros Hs. split; [done|]. split; [|split; [done|exact Hs]].
  intros p Hp. apply list_elem_of_In in Hp.
  destruct Hp as [<-|[<-|[]]]; vm_compute; by eexists.
Qed.

Lemma turn_step_positions (w w' : World) (k : turn_kind) :
  game_wf w →
  1 <= faceCount w →
  0 <= getBoardSize (gameBoard w) →
  getBoardSize (gameBoard w) + faceCount w <= INT_MAX →
  ends_inside (gameBoard w) →
  positions_inside w →
  turn_step w k w' →
  positions_inside w' ∧ gameBoard w' = gameBoard w ∧ faceCount w' = faceCount w.
Proof.
  intros (_ & _ & _ & Hs) Hf Hsize Hmax Hends Hpos Hk.
  assert (Hinside : ∀ p pl r w1,
            playerHeap w !! p = Some pl →
            Dice_roll w = (Ret r, w1, []) →
            isValidMove (getPosition pl) r (getBoardSize (gameBoard w)) = true →
            0 <= calculateNewPosition (getPosition pl) r (gameBoard w)
              <= getBoardSize (gameBoard w)).
  { intros p pl r w1 Hp Hd Hvalid.
    apply Dice_roll_inv in Hd as (r0 & rest & m & Hr & Hm & -> & _ & _).
    unfold supply_ok in Hs. rewrite Hr in Hs. apply Forall_cons in Hs as [[Hr0 _] _].
    unfold int_rem in Hm. destruct (_ || _); [discriminate|]. injection Hm as <-.
    pose proof (Z.rem_bound_pos r0 (faceCount w) Hr0 ltac:(lia)) as Hrem.
    specialize (Hpos p pl Hp).
    apply isValidMove_true in Hvalid.
    assert (Hroll : int_add (Z.rem r0 (faceCount w)) 1 = Z.rem r0 (faceCount w) + 1).
    { apply int_add_exact. unfold int_range, INT_MIN, INT_MAX in *. lia. }
    rewrite Hroll in Hvalid |- *.
    assert (Hland : int_add (getPosition pl) (Z.rem r0 (faceCount w) + 1)
                    = getPosition pl + (Z.rem r0 (faceCount w) + 1)).
    { apply int_add_exact. unfold int_range, INT_MIN, INT_MAX in *. lia. }
    rewrite Hland in Hvalid.
    unfold calculateNewPosition. rewrite Hland, getEntity_lookup.
    destruct (entityMap (gameBoard w) !! _) as [e|] eqn:He; [by eapply Hends|lia]. }
  destruct Hk as [p q pl r w1 Hq Hp Hd Hv|p q pl r w1 m Hq Hp Hd Hv -> _
                 |p q pl r w1 m Hq Hp Hd Hv -> _];
    try specialize (Hinside p pl r w1 Hp Hd Hv);
    apply Dice_roll_state in Hd; subst w1;
    destruct w as [rs b fc tq subs over h]; unfold positions_inside in *; cbn in *.
  - done.
  - split; [|done]. intros x plx Hx.
    destruct (decide (p = x)) as [->|Hne].
    + rewrite lookup_alter_eq, Hp in Hx. by injection Hx as <-.
    + rewrite lookup_alter_ne in Hx by done. by eapply Hpos.
  - split; [|done]. intros x plx Hx.
    destruct (decide (p = x)) as [->|Hne].
    + rewrite !lookup_alter_eq, Hp in Hx. by injection Hx as <-.
    + rewrite !lookup_alter_ne in Hx by done. by eapply Hpos.
Qed.

(** X4. On a board all of whose jumps end on the board, with a dice
    small enough that position plus roll is an [int], [play] keeps every
    player between the start square 0 and the last cell, however long the
    game runs. *)
Theorem play_keeps_positions_inside (w : World) :
  game_wf w →
  (2 ≤ length (turnQueue w))%nat →
  1 <= faceCount w →
  0 <= getBoardSize (gameBoard w) →
  getBoardSize (gameBoard w) + faceCount w <= INT_MAX →
  ends_inside (gameBoard w) →
  positions_inside w →
  positions_inside (world_of (play w)).
Proof.
  intros Hwf Hlen Hf Hsize Hmax Hends Hpos.
  destruct (play_starts_loop w Hlen) as [_ ->].
  destruct (play_loop_invariant
              (λ w', positions_inside w' ∧ gameBoard w' = gameBoard w
                     ∧ faceCount w' = faceCount w)) with
    (passes := S (length (rands w))) (w := w) as ((Hpos' & _) & _); try done.
  intros w1 k w2 Hwf1 _ (Hpos1 & Hb & Hfc) Hk.
  destruct (turn_step_positions w1 w2 k) as (? & ? & ?);
    rewrite ?Hb, ?Hfc; try done.
  split; [done|]. split; congruence.
Qed.


Lemma play_keeps_positions_inside_witness :
  game_wf full_game
  ∧ (2 ≤ length (turnQueue full_game))%nat
  ∧ ends_inside (gameBoard full_game)
  ∧ positions_inside full_game
  ∧ positions_inside (world_of (play full_game)).
Proof.
  assert (Hwf : game_wf full_game).
  { apply two_player_game_wf. repeat constructor; unfold INT_MAX; lia. }
  assert (Hlen : (2 ≤ length (turnQueue full_game))%nat) by (vm_compute; lia).
  assert (Hends : ends_inside (gameBoard full_game)).
  { apply (bool_decide_unpack (map_Forall (λ _ e, 0 <= getEnd e <= 100)
                                 (entityMap (gameBoard full_game)))).
    vm_compute. reflexivity. }
  assert (Hpos : positions_inside full_game).
  { apply (bool_decide_unpack (map_Forall (λ _ pl, 0 <= getPosition pl <= 100)
                                 (playerHeap full_game))).
    vm_compute. reflexivity. }
  assert (Hf : 1 <= faceCount full_game) by (vm_compute; discriminate).
  assert (Hsize : 0 <= getBoardSize (gameBoard full_game)) by (vm_compute; discriminate).
  assert (Hmax : getBoardSize (gameBoard full_game) + faceCount full_game <= INT_MAX)
    by (vm_compute; discriminate).
  split; [exact Hwf|]. split; [exact Hlen|]. split; [exact Hends|].
  split; [exact Hpos|].
  exact (play_keeps_positions_inside full_game Hwf Hlen Hf Hsize Hmax Hends Hpos).
Defined.

(** ** The winner *)

(** The scores of the players at the addresses of [w0], read in [w]. *)
Lemma turn_step_scores (w w' : World) (k : turn_kind) (p : nat) (q : list nat) :
  turnQueue w = p :: q →
  turn_step w k w' →
  (∀ x, x ≠ p → playerHeap w' !! x = playerHeap w !! x)
  ∧ match k with
    | Win =>
        turnQueue w' = p :: q
        ∧ ∃ pl, playerHeap w !! p = Some pl
                ∧ playerHeap w' !! p
                  = Some (incrementScore (setPosition (getBoardSize (gameBoard w)) pl))
    | _ => getScore <$> playerHeap w' !! p = getScore <$> playerHeap w !! p
    end.
Proof.
  intros Hq Hk.
  destruct Hk as [p0 q0 pl r w1 Hq0 Hp Hd _|p0 q0 pl r w1 m Hq0 Hp Hd _ _ _
                 |p0 q0 pl r w1 m Hq0 Hp Hd _ -> Hwin];
    rewrite Hq in Hq0; injection Hq0 as <- <-;
    apply Dice_roll_state in Hd; subst w1;
    destruct w as [rs b fc tq subs over h]; cbn in *.
  - done.
  - split; [intros x Hx; by rewrite lookup_alter_ne|].
    by rewrite lookup_alter_eq, Hp.
  - split; [intros x Hx; by rewrite !lookup_alter_ne|].
    split; [done|]. exists pl. split; [done|].
    apply checkWinCondition_true in Hwin. rewrite <- Hwin.
    by rewrite !lookup_alter_eq, Hp.
Qed.

(** X5. When the loop, started on a well-formed game that is not over,
    returns, the winner is the player at the front of the queue: that
    player stands on the last cell and has one win more than at the
    start, and every other player has the wins they started with. *)
Theorem play_loop_winner_at_front (passes : nat) (w : World) :
  game_wf w →
  isGameOver w = false →
  outcome_of (play_loop passes w) = Ret tt →
  ∃ p pl0 pl,
    head (turnQueue (world_of (play_loop passes w))) = Some p
    ∧ playerHeap w !! p = Some pl0
    ∧ playerHeap (world_of (play_loop passes w)) !! p = Some pl
    ∧ getPosition pl = getBoardSize (gameBoard w)
    ∧ getScore pl = int_add (getScore pl0) 1
    ∧ ∀ x, x ≠ p →
        getScore <$> playerHeap (world_of (play_loop passes w)) !! x
        = getScore <$> playerHeap w !! x.
Proof.
  intros Hwf Hover Hret.
  pose (I := λ w' : World,
          gameBoard w' = gameBoard w
          ∧ if isGameOver w'
            then ∃ p pl0 pl,
                   head (turnQueue w') = Some p
                   ∧ playerHeap w !! p = Some pl0
                   ∧ playerHeap w' !! p = Some pl
                   ∧ getPosition pl = getBoardSize (gameBoard w)
                   ∧ getScore pl = int_add (getScore pl0) 1
                   ∧ ∀ x, x ≠ p → getScore <$> playerHeap w' !! x
                                  = getScore <$> playerHeap w !! x
            else ∀ x, getScore <$> playerHeap w' !! x = getScore <$> playerHeap w !! x).
  destruct (play_loop_invariant I) with (passes := passes) (w := w)
    as ((_ & HI) & _ & Hend); try done.
  - intros w1 k w2 (Hq1 & _) Hover1 (Hb1 & HI1) Hk. rewrite Hover1 in HI1.
    destruct (turnQueue w1) as [|p q] eqn:Hq; [done|].
    destruct (turn_step_scores w1 w2 k p q Hq Hk) as [Hothers Hfront].
    pose proof (turn_step_isGameOver _ _ _ Hk) as Hflag.
    assert (Hb2 : gameBoard w2 = gameBoard w).
    { rewrite <- Hb1.
      destruct Hk as [? ? ? ? w3 _ _ Hd _|? ? ? ? w3 ? _ _ Hd _ _ _|? ? ? ? w3 ? _ _ Hd _ _ _];
        apply Dice_roll_state in Hd; subst w3; by destruct w1. }
    split; [done|]. rewrite Hflag. destruct k.
    + rewrite Hover1. intros x. destruct (decide (x = p)) as [->|Hne].
      * by rewrite Hfront, HI1.
      * by rewrite Hothers, HI1.
    + rewrite Hover1. intros x. destruct (decide (x = p)) as [->|Hne].
      * by rewrite Hfront, HI1.
      * by rewrite Hothers, HI1.
    + destruct Hfront as (Hq2 & pl1 & Hp1 & Hp2).
      pose proof (HI1 p) as Hscore. rewrite Hp1 in Hscore.
      destruct (playerHeap w !! p) as [pl0|] eqn:Hp0; [|done].
      injection Hscore as Hscore.
      exists p, pl0, (incrementScore (setPosition (getBoardSize (gameBoard w1)) pl1)).
      rewrite Hq2. split; [done|]. split; [done|]. split; [done|].
      split; [by rewrite Hb1|]. split; [cbn; by rewrite <- Hscore|].
      intros x Hx. by rewrite Hothers, HI1.
  - split; [done|]. by rewrite Hover.
  - destruct Hend as [[_ Hover']|[Ho _]]; [|congruence].
    by rewrite Hover' in HI.
Qed.

Lemma play_loop_winner_at_front_witness :
  game_wf full_game
  ∧ isGameOver full_game = false
  ∧ outcome_of (play_loop 4 full_game) = Ret tt
  ∧ ∃ p pl0 pl,
      head (turnQueue (world_of (play_loop 4 full_game))) = Some p
      ∧ playerHeap full_game !! p = Some pl0
      ∧ playerHeap (world_of (play_loop 4 full_game)) !! p = Some pl
      ∧ getPosition pl = getBoardSize (gameBoard full_game)
      ∧ getScore pl = int_add (getScore pl0) 1
      ∧ ∀ x, x ≠ p →
          getScore <$> playerHeap (world_of (play_loop 4 full_game)) !! x
          = getScore <$> playerHeap full_game !! x.
Proof.
  assert (Hwf : game_wf full_game).
  { apply two_player_game_wf. repeat constructor; unfold INT_MAX; lia. }
  assert (Hover : isGameOver full_game = false) by (vm_compute; reflexivity).
  assert (Hret : outcome_of (play_loop 4 full_game) = Ret tt) by (vm_compute; reflexivity).
  split; [exact Hwf|]. split; [exact Hover|]. split; [exact Hret|].
  exact (play_loop_winner_at_front 4 full_game Hwf Hover Hret).
Defined.

(** ** Turn order *)

Lemma rotate_0 {A} (l : list A) : list.rotate 0 l = l.
Proof.
  unfold list.rotate. destruct l as [|x l]; [done|].
  rewrite Nat.Div0.mod_0_l. cbn. by rewrite app_nil_r.
Qed.

Lemma rotate_1_cons {A} (x : A) (l : list A) : list.rotate 1 (x :: l) = l ++ [x].
Proof.
  unfold list.rotate. destruct l as [|y l]; [done|].
  rewrite Nat.mod_small by (cbn; lia). done.
Qed.

Lemma rotate_rotate_1 {A} (k : nat) (l : list A) :
  list.rotate k (list.rotate 1 l) = list.rotate (S k) l.
Proof.
  destruct l as [|x l].
  { unfold list.rotate. cbn [length]. rewrite !drop_nil, !take_nil. cbn [app length].
    by rewrite !drop_nil, !take_nil. }
  apply list_eq. intros i.
  destruct (decide (i < length (x :: l))%nat) as [Hi|Hi].
  - rewrite (lookup_rotate_r (list.rotate 1 (x :: l)) k i)
      by (by rewrite length_rotate).
    rewrite length_rotate.
    rewrite (lookup_rotate_r (x :: l) 1) by (apply rotate_nat_add_lt; cbn; lia).
    rewrite (lookup_rotate_r (x :: l) (S k) i) by done.
    f_equal. unfold rotate_nat_add.
    rewrite Z2Nat.id by (apply Z.mod_pos; cbn; lia).
    rewrite Zplus_mod_idemp_r. f_equal. f_equal. lia.
  - rewrite !lookup_ge_None_2; [done|rewrite !length_rotate; lia..].
Qed.

Lemma turn_step_turnQueue (w w' : World) (k : turn_kind) (p : nat) (q : list nat) :
  turnQueue w = p :: q →
  turn_step w k w' →
  turnQueue w' = match k with Win => p :: q | _ => q ++ [p] end.
Proof.
  intros Hq Hk.
  destruct Hk as [p0 q0 ? ? w2 Hq0 _ Hd _|p0 q0 ? ? w2 ? Hq0 _ Hd _ _ _
                 |p0 q0 ? ? w2 ? Hq0 _ Hd _ _ _];
    rewrite Hq in Hq0; injection Hq0 as <- <-;
    apply Dice_roll_state in Hd; subst w2; by destruct w.
Qed.

(** X6. Turns are taken round robin.  Along the states of a run on a
    well-formed game, every state from which a pass is made has the
    initial queue rotated by the number of passes made so far; so after as
    many passes as there are players everyone has had one turn and the
    queue is back in its initial order. *)
Theorem play_states_round_robin (passes : nat) (w : World) (k : nat) (wk wk' : World) :
  game_wf w →
  play_states passes w !! k = Some wk →
  play_states passes w !! S k = Some wk' →
  turnQueue wk = list.rotate k (turnQueue w).
Proof.
  revert w k. induction passes as [|n IH]; intros w k Hwf; cbn [play_states].
  - destruct (isGameOver w); destruct k; cbn; done.
  - destruct (isGameOver w) eqn:Hover; [destruct k; cbn; done|].
    destruct k as [|k]; [cbn; intros [= <-] _; by rewrite rotate_0|].
    destruct (turn_wf_cases w Hwf) as [(kd & w1 & tr & Hrun & Hk & Hwf1)|(tr & Hrun & _)];
      rewrite Hrun; cbn [lookup list_lookup]; [|by destruct k].
    intros Hwk Hwk'.
    rewrite (IH w1 k Hwf1 Hwk Hwk'). rewrite <- rotate_rotate_1. f_equal.
    destruct (turnQueue w) as [|p q] eqn:Hq; [by destruct Hwf|].
    rewrite rotate_1_cons.
    pose proof (turn_step_isGameOver _ _ _ Hk) as Hflag.
    pose proof (turn_step_turnQueue _ _ _ _ _ Hq Hk) as Hq1.
    destruct kd; [done|done|].
    exfalso. destruct n; cbn [play_states] in Hwk, Hwk'; rewrite Hflag in *;
      destruct k; done.
Qed.

Lemma play_states_round_robin_witness :
  game_wf full_game
  ∧ play_states 4 full_game !! 2%nat = Some full_game_2
  ∧ play_states 4 full_game !! 3%nat = Some full_game_3
  ∧ turnQueue full_game_2 = list.rotate 2 (turnQueue full_game).
Proof.
  assert (Hwf : game_wf full_game).
  { apply two_player_game_wf. repeat constructor; unfold INT_MAX; lia. }
  assert (H2 : play_states 4 full_game !! 2%nat = Some full_game_2)
    by (vm_compute; reflexivity).
  assert (H3 : play_states 4 full_game !! 3%nat = Some full_game_3)
    by (vm_compute; reflexivity).
  split; [exact Hwf|]. split; [exact H2|]. split; [exact H3|].
  exact (play_states_round_robin 4 full_game 2 full_game_2 full_game_3 Hwf H2 H3).
Defined.

(** ** The vector and the map of a board *)

Lemma fed_ret {A} (a : A) : board_fed (mret a).
Proof. intros w. by exists []. Qed.

Lemma fed_pure {A} (m : M A) : (∀ w, world_of (m w) = w) → board_fed m.
Proof. intros Hm w. exists []. by rewrite Hm. Qed.

Lemma fed_bind {A B} (m : M A) (f : A → M B) :
  board_fed m → (∀ a, board_fed (f a)) → board_fed (m ≫= f).
Proof.
  intros Hm Hf w. rewrite bind_run. destruct (Hm w) as [l1 Hl1].
  destruct (m w) as [[[a|h] w1] t1]; [|by exists l1].
  destruct (Hf a w1) as [l2 Hl2]. destruct (f a w1) as [[o w2] t2].
  exists (l1 ++ l2). unfold world_of in *. cbn in *.
  by rewrite fold_left_app, <- Hl1.
Qed.

Lemma fed_rand : board_fed rand.
Proof. intros [[|r rest] b fc q subs over h]; by exists []. Qed.

Lemma fed_defined {A} (o : option A) : board_fed (defined o).
Proof. destruct o; by apply fed_pure. Qed.

Lemma fed_board_addBoardEntity (e : BoardEntity) : board_fed (board_addBoardEntity e).
Proof. intros w. exists [e]. by destruct w. Qed.

Lemma fed_for_each {A} (l : list A) (body : A → M unit) :
  (∀ x, board_fed (body x)) → board_fed (for_each l body).
Proof.
  intros Hbody. induction l as [|x l IH]; [apply fed_ret|].
  cbn [for_each]. apply fed_bind; [apply Hbody|intros _; exact IH].
Qed.

Lemma fed_gets {A} (f : World → A) : board_fed (gets f).
Proof. by apply fed_pure. Qed.

Lemma fed_emit (t : list event) : board_fed (emit t).
Proof. by apply fed_pure. Qed.

Lemma fed_halt {A} (h : halt) : board_fed (@halt_with A h).
Proof. by apply fed_pure. Qed.

Ltac fed_with leaf :=
  repeat first
    [ leaf
    | apply fed_rand
    | apply fed_defined
    | apply fed_board_addBoardEntity
    | apply fed_ret
    | apply fed_gets
    | apply fed_emit
    | apply fed_halt
    | apply fed_bind; [|intros ?]
    | apply fed_for_each; intros ?
    | match goal with
      | |- board_fed (if ?c then _ else _) => destruct c
      | |- board_fed (let '(_, _) := ?x in _) => destruct x
      end ].

Ltac fed := fed_with fail.

Lemma fed_snake_attempts (n : nat) (totalCells : Z) :
  board_fed (snake_attempts n totalCells).
Proof.
  induction n as [|n IH]; cbn [snake_attempts];
    unfold draw_snake, board_canAddEntity, new_Snake; fed_with ltac:(exact IH).
Qed.

Lemma fed_ladder_attempts (n : nat) (totalCells : Z) :
  board_fed (ladder_attempts n totalCells).
Proof.
  induction n as [|n IH]; cbn [ladder_attempts];
    unfold draw_ladder, board_canAddEntity, new_Ladder; fed_with ltac:(exact IH).
Qed.

Lemma fed_custom_snakes (passes : nat) (added count totalCells : Z) :
  board_fed (custom_snakes passes added count totalCells).
Proof.
  revert added. induction passes as [|n IH]; intros added; cbn [custom_snakes];
    unfold draw_snake, board_canAddEntity, new_Snake; fed_with ltac:(apply IH).
Qed.

Lemma fed_custom_ladders (passes : nat) (added count totalCells : Z) :
  board_fed (custom_ladders passes added count totalCells).
Proof.
  revert added. induction passes as [|n IH]; intros added; cbn [custom_ladders];
    unfold draw_ladder, board_canAddEntity, new_Ladder; fed_with ltac:(apply IH).
Qed.

Lemma fed_setupBoard (below : Z → Q → bool) (strategy : BoardSetupStrategy) :
  board_fed (setupBoard below strategy).
Proof.
  destruct strategy as [[| |]|c|]; cbn [setupBoard RandomBoardSetupStrategy_setupBoard].
  1-3: unfold setupWithProbability;
       fed_with ltac:(first [apply fed_snake_attempts|apply fed_ladder_attempts]).
  - unfold CustomCountBoardSetupStrategy_setupBoard, board_canAddEntity,
      new_Snake, new_Ladder.
    fed_with ltac:(first [apply fed_custom_snakes|apply fed_custom_ladders]).
  - unfold StandardBoardSetupStrategy_setupBoard, cout, new_Snake, new_Ladder. fed.
Qed.

Lemma fed_run_ops (below : Z → Q → bool) (ops : list board_op) :
  board_fed (run_ops below ops).
Proof.
  unfold run_ops. apply fed_for_each. intros [c|e|s|c| |]; cbn [run_op];
    unfold board_canAddEntity; fed_with ltac:(apply fed_setupBoard).
Qed.

Lemma board_sync_new (s : Z) : board_sync (Board_new s).
Proof. split; [constructor|]. intros c e. cbn. rewrite lookup_empty. split; [done|]. by intros [?%elem_of_nil _]. Qed.

Lemma board_sync_addBoardEntity (b : Board) (e : BoardEntity) :
  board_sync b → board_sync (addBoardEntity b e).
Proof.
  intros [Hnd Hmap]. unfold addBoardEntity.
  destruct (canAddEntity b (getStart e)) eqn:Hfree; [|done].
  apply canAddEntity_true in Hfree. split; cbn.
  - rewrite map_app. cbn. apply NoDup_app. split; [done|]. split; [|apply NoDup_singleton].
    intros c Hc Hc'. apply list_elem_of_singleton in Hc' as ->.
    apply list_elem_of_fmap in Hc as (e' & Hstart & He').
    assert (entityMap b !! getStart e = Some e') by (apply Hmap; by split).
    congruence.
  - intros c e'. destruct (decide (getStart e = c)) as [<-|Hne].
    + rewrite lookup_insert_eq. split.
      * intros [= <-]. split; [|done]. apply elem_of_app. right. apply list_elem_of_here.
      * intros [He' Hs]. apply elem_of_app in He' as [He'|He'].
        -- assert (entityMap b !! getStart e = Some e') by (apply Hmap; by split).
           congruence.
        -- by apply list_elem_of_singleton in He' as ->.
    + rewrite lookup_insert_ne by done. rewrite Hmap. split.
      * intros [He' Hs]. split; [|done]. apply elem_of_app. by left.
      * intros [He' Hs]. split; [|done]. apply elem_of_app in He' as [He'|He']; [done|].
        apply list_elem_of_singleton in He' as ->. done.
Qed.

Lemma board_sync_fold_left (l : list BoardEntity) (b : Board) :
  board_sync b → board_sync (fold_left addBoardEntity l b).
Proof.
  revert b. induction l as [|e l IH]; intros b Hb; [done|].
  cbn [fold_left]. by apply IH, board_sync_addBoardEntity.
Qed.

Lemma board_sync_size (b : Board) :
  board_sync b → size (entityMap b) = length (entitiesList b).
Proof.
  intros [Hnd Hmap].
  assert (Heq : entityMap b = list_to_map (map (λ e, (getStart e, e)) (entitiesList b))).
  { apply map_eq. intros c. apply option_eq. intros e. rewrite Hmap.
    rewrite <- elem_of_list_to_map.
    - rewrite list_elem_of_fmap. split.
      + intros [He <-]. by exists e.
      + intros (e' & Hpair & He'). injection Hpair as -> ->. done.
    - by rewrite <- list_fmap_compose. }
  rewrite Heq. rewrite map_size_list_to_map.
  - by rewrite length_map.
  - by rewrite <- list_fmap_compose.
Qed.

(** X7. A board whose vector and map agree, as those of a new board
    do, keeps them in step through every sequence of board operations,
    whichever way the sequence ends: the same entities are in both, each
    once, each under its own start cell in the map; in particular the two
    have the same number of entries. *)
Theorem board_vector_and_map_agree (below : Z → Q → bool) (ops : list board_op)
    (w : World) :
  board_sync (gameBoard w) →
  board_sync (gameBoard (world_of (run_ops below ops w)))
  ∧ size (entityMap (gameBoard (world_of (run_ops below ops w))))
    = length (entitiesList (gameBoard (world_of (run_ops below ops w)))).
Proof.
  intros Hb. destruct (fed_run_ops below ops w) as [l ->].
  pose proof (board_sync_fold_left l _ Hb) as Hsync.
  split; [done|by apply board_sync_size].
Qed.

Lemma board_vector_and_map_agree_witness :
  board_sync (gameBoard (empty_world [5; 17; 3]))
  ∧ board_sync
      (gameBoard
         (world_of
            (run_ops (λ _ _, true)
               [OpSetupBoard StandardBoardSetupStrategy;
                OpAddBoardEntity (mkBoardEntity SNAKE 99 1);
                OpSetupBoard (RandomBoardSetupStrategy HARD)]
               (empty_world [5; 17; 3])))).
Proof.
  assert (Hnew : board_sync (gameBoard (empty_world [5; 17; 3])))
    by exact (board_sync_new 10).
  split; [exact Hnew|].
  exact (proj1 (board_vector_and_map_agree (λ _ _, true) _ (empty_world [5; 17; 3]) Hnew)).
Defined.

(** ** What [display] prints *)

Lemma display_counts_acc (l : list BoardEntity) (s0 l0 : nat) :
  Z.of_nat (s0 + l0 + length l) <= INT_MAX →
  fold_left (λ '(snakeCount, ladderCount) entity,
               if is_named "SNAKE" entity
               then (int_add snakeCount 1, ladderCount)
               else (snakeCount, int_add ladderCount 1))
            l (Z.of_nat s0, Z.of_nat l0)
  = (Z.of_nat (s0 + length (filter (λ e, is_named "SNAKE" e = true) l)),
     Z.of_nat (l0 + length (filter (λ e, is_named "LADDER" e = true) l))).
Proof.
  revert s0 l0. induction l as [|e l IH]; intros s0 l0 Hlen.
  - cbn. by rewrite !Nat.add_0_r.
  - cbn [fold_left length] in *.
    destruct e as [[|] s e]; cbn [is_named name kind String.eqb Ascii.eqb Bool.eqb].
    + rewrite filter_cons_True by done. rewrite filter_cons_False by done.
      rewrite int_add_exact by (unfold int_range, INT_MIN, INT_MAX in *; lia).
      replace (Z.of_nat s0 + 1) with (Z.of_nat (S s0)) by lia.
      rewrite IH by lia. cbn [length]. f_equal; f_equal; lia.
    + rewrite filter_cons_False by done. rewrite filter_cons_True by done.
      rewrite int_add_exact by (unfold int_range, INT_MIN, INT_MAX in *; lia).
      replace (Z.of_nat l0 + 1) with (Z.of_nat (S l0)) by lia.
      rewrite IH by lia. cbn [length]. f_equal; f_equal; lia.
Qed.

Lemma filter_is_named (l : list BoardEntity) :
  filter (λ e, is_named "SNAKE" e = true) l = filter (λ e, kind e = SNAKE) l
  ∧ filter (λ e, is_named "LADDER" e = true) l = filter (λ e, kind e = LADDER) l.
Proof. split; apply list_filter_iff; by intros [[|] s e]. Qed.

Lemma display_of_snakes (l : list BoardEntity) :
  concat (map BoardEntity_display (filter (λ e, kind e = SNAKE) l))
  = map (λ e, Cout ("Snake: " +:+ to_string (getStart e) +:+ " -> "
                    +:+ to_string (getEnd e) +:+ endl))
        (filter (λ e, kind e = SNAKE) l).
Proof.
  induction l as [|[[|] s e] l IH]; [done|..].
  - rewrite filter_cons_True by done. cbn [map concat]. by rewrite IH.
  - by rewrite filter_cons_False by done.
Qed.

Lemma display_of_ladders (l : list BoardEntity) :
  concat (map BoardEntity_display (filter (λ e, kind e = LADDER) l))
  = map (λ e, Cout ("Ladder: " +:+ to_string (getStart e) +:+ " -> "
                    +:+ to_string (getEnd e) +:+ endl))
        (filter (λ e, kind e = LADDER) l).
Proof.
  induction l as [|[[|] s e] l IH]; [done|..].
  - by rewrite filter_cons_False by done.
  - rewrite filter_cons_True by done. cbn [map concat]. by rewrite IH.
Qed.

(** X8. For a board with fewer than 2^31 entities, this is what
    [display] prints: the heading, the cell count, the line
    [Snakes: n] where [n] is the number of snakes in the vector, one line
    [Snake: start -> end] for each snake in insertion order, the line
    [Ladders: m] where [m] is the number of ladders, one line
    [Ladder: start -> end] for each ladder in insertion order, and the
    closing rule.  The two totals add up to the length of the vector. *)
Theorem Board_display_counts (b : Board) :
  Z.of_nat (length (entitiesList b)) <= INT_MAX →
  let snakes := filter (λ e, kind e = SNAKE) (entitiesList b) in
  let ladders := filter (λ e, kind e = LADDER) (entitiesList b) in
  Board_display b =
    [Cout (endl +:+ "=== Board Configuration ===" +:+ endl);
     Cout ("Total Cells: " +:+ to_string (getBoardSize b) +:+ endl);
     Cout (endl +:+ "Snakes: " +:+ to_string (Z.of_nat (length snakes)) +:+ endl)]
    ++ map (λ e, Cout ("Snake: " +:+ to_string (getStart e) +:+ " -> "
                       +:+ to_string (getEnd e) +:+ endl)) snakes
    ++ [Cout (endl +:+ "Ladders: " +:+ to_string (Z.of_nat (length ladders)) +:+ endl)]
    ++ map (λ e, Cout ("Ladder: " +:+ to_string (getStart e) +:+ " -> "
                       +:+ to_string (getEnd e) +:+ endl)) ladders
    ++ [Cout ("=========================" +:+ endl)]
  ∧ (length snakes + length ladders = length (entitiesList b))%nat.
Proof.
  intros Hlen snakes ladders.
  destruct (filter_is_named (entitiesList b)) as [Hsn Hld].
  assert (Hcounts : display_counts (entitiesList b)
                    = (Z.of_nat (length snakes), Z.of_nat (length ladders))).
  { unfold display_counts. rewrite (display_counts_acc _ 0 0) by done.
    by rewrite Hsn, Hld. }
  split.
  - unfold Board_display. rewrite Hcounts, Hsn, Hld.
    by rewrite display_of_snakes, display_of_ladders.
  - subst snakes ladders. clear Hlen Hcounts Hsn Hld.
    induction (entitiesList b) as [|[[|] s e] l IH]; [done|..].
    + rewrite filter_cons_True by done. rewrite filter_cons_False by done.
      cbn [length]. lia.
    + rewrite filter_cons_False by done. rewrite filter_cons_True by done.
      cbn [length]. lia.
Qed.

Lemma Board_display_counts_witness :
  Z.of_nat (length (entitiesList (gameBoard full_game))) <= INT_MAX
  ∧ Board_display (gameBoard full_game) !! 1%nat
    = Some (Cout ("Total Cells: 100" +:+ endl))
  ∧ Board_display (gameBoard full_game) !! 2%nat
    = Some (Cout (endl +:+ "Snakes: 10" +:+ endl))
  ∧ Board_display (gameBoard full_game) !! 3%nat
    = Some (Cout ("Snake: 99 -> 54" +:+ endl))
  ∧ Board_display (gameBoard full_game) !! 13%nat
    = Some (Cout (endl +:+ "Ladders: 11" +:+ endl))
  ∧ Board_display (gameBoard full_game) !! 24%nat
    = Some (Cout ("Ladder: 87 -> 94" +:+ endl)).
Proof.
  assert (Hlen : Z.of_nat (length (entitiesList (gameBoard full_game))) <= INT_MAX)
    by (vm_compute; discriminate).
  split; [exact Hlen|].
  destruct (Board_display_counts (gameBoard full_game) Hlen) as [Hdisplay _].
  repeat split;
    (etransitivity; [exact (f_equal (λ l, l !! _) Hdisplay)|vm_compute; reflexivity]).
Defined.

(** ** Placing entities at given cells *)


Lemma getEntity_fold_left (l : list BoardEntity) (b : Board) (c : Z) :
  getEntity (fold_left addBoardEntity l b) c =
  match getEntity b c with
  | Some e => Some e
  | None => head (filter (λ e, getStart e = c) l)
  end.
Proof.
  revert b. induction l as [|x l IH]; intros b.
  - cbn. by destruct (getEntity b c).
  - cbn [fold_left]. rewrite IH. rewrite !getEntity_lookup.
    unfold addBoardEntity. destruct (canAddEntity b (getStart x)) eqn:Hfree; cbn.
    + apply canAddEntity_true in Hfree.
      destruct (decide (getStart x = c)) as [<-|Hne].
      * rewrite lookup_insert_eq, Hfree. rewrite ?filter_cons_True by done. done.
      * rewrite lookup_insert_ne by done. rewrite ?filter_cons_False by done. done.
    + apply canAddEntity_false in Hfree as [e0 He0].
      destruct (decide (getStart x = c)) as [<-|Hne].
      * by rewrite He0.
      * rewrite ?filter_cons_False by done. done.
Qed.

(** A loop whose body always returns and whose effect on the state is a
    function of the board folds that function over the list. *)
Lemma for_each_fold {A} (l : list A) (body : A → M unit)
    (step : A → Board → Board) (quiet : A → Prop) :
  (∀ x w, ∃ t, body x w = (Ret tt, set_gameBoard (step x (gameBoard w)) w, t)
               ∧ (quiet x → t = [])) →
  ∀ w, ∃ t,
    for_each l body w
    = (Ret tt, set_gameBoard (fold_left (λ b x, step x b) l (gameBoard w)) w, t)
    ∧ (Forall quiet l → t = []).
Proof.
  intros Hbody. induction l as [|x l IH]; intros w.
  - exists []. by destruct w.
  - cbn [for_each fold_left]. rewrite bind_run.
    destruct (Hbody x w) as (t0 & -> & Hq0).
    destruct (IH (set_gameBoard (step x (gameBoard w)) w)) as (t1 & -> & Hq1).
    exists (t0 ++ t1). split; [by destruct w|].
    intros Hall. apply Forall_cons in Hall as [Hx Hall].
    by rewrite Hq0, Hq1.
Qed.

Lemma fold_left_addBoardEntity_map {A} (f : A → BoardEntity) (l : list A) (b : Board) :
  fold_left (λ b x, addBoardEntity b (f x)) l b = fold_left addBoardEntity (map f l) b.
Proof. revert b. induction l as [|x l IH]; intros b; [done|]. cbn. apply IH. Qed.

Lemma place_snakes_if_free_run (l : list (Z * Z)) (w : World) :
  ∃ tr,
    for_each l (λ pos,
      free ← board_canAddEntity pos.1;
      if (free : bool)
      then e ← new_Snake pos.1 pos.2; board_addBoardEntity e
      else mret tt) w
    = (Ret tt,
       set_gameBoard (fold_left addBoardEntity (map snake_entity l) (gameBoard w)) w,
       tr)
    ∧ (Forall (λ pos, pos.2 < pos.1) l → tr = []).
Proof.
  rewrite <- fold_left_addBoardEntity_map.
  apply (for_each_fold l _ (λ pos b, addBoardEntity b (snake_entity pos))).
  clear w. intros [s e] [rs b fc q subs over h].
  unfold new_Snake, Snake, snake_entity. mrun.
  destruct (canAddEntity b s) eqn:Hfree; mrun.
  - eexists. split; [reflexivity|]. intros Hse.
    by rewrite Z.geb_leb, (proj2 (Z.leb_gt _ _)) by lia.
  - rewrite (addBoardEntity_taken b (mkBoardEntity SNAKE s e)) by done.
    by exists [].
Qed.

Lemma place_ladders_if_free_run (l : list (Z * Z)) (w : World) :
  ∃ tr,
    for_each l (λ pos,
      free ← board_canAddEntity pos.1;
      if (free : bool)
      then e ← new_Ladder pos.1 pos.2; board_addBoardEntity e
      else mret tt) w
    = (Ret tt,
       set_gameBoard (fold_left addBoardEntity (map ladder_entity l) (gameBoard w)) w,
       tr)
    ∧ (Forall (λ pos, pos.1 < pos.2) l → tr = []).
Proof.
  rewrite <- fold_left_addBoardEntity_map.
  apply (for_each_fold l _ (λ pos b, addBoardEntity b (ladder_entity pos))).
  clear w. intros [s e] [rs b fc q subs over h].
  unfold new_Ladder, Ladder, ladder_entity. mrun.
  destruct (canAddEntity b s) eqn:Hfree; mrun.
  - eexists. split; [reflexivity|]. intros Hse.
    by rewrite (proj2 (Z.leb_gt _ _)) by lia.
  - rewrite (addBoardEntity_taken b (mkBoardEntity LADDER s e)) by done.
    by exists [].
Qed.

(** X9. With user-defined positions the custom strategy always returns,
    and what it leaves is the board after [addBoardEntity] of every snake
    pair and then every ladder pair, in the order they were given; the
    two counts it was constructed with play no part.  So each cell keeps
    the entity it had, or else gets the first entity of that sequence
    that starts there: first come, first served.  When every pair is
    well formed nothing is printed. *)
Theorem custom_positions_first_come (c : CustomCount) (w : World) :
  useRandomPlacement c = false →
  let entities := map snake_entity (snakePlacements c)
                  ++ map ladder_entity (ladderPlacements c) in
  let r := CustomCountBoardSetupStrategy_setupBoard c w in
  outcome_of r = Ret tt
  ∧ world_of r = set_gameBoard (fold_left addBoardEntity entities (gameBoard w)) w
  ∧ (∀ cell, getEntity (gameBoard (world_of r)) cell =
       match getEntity (gameBoard w) cell with
       | Some e => Some e
       | None => head (filter (λ e, getStart e = cell) entities)
       end)
  ∧ (Forall (λ pos, pos.2 < pos.1) (snakePlacements c) →
     Forall (λ pos, pos.1 < pos.2) (ladderPlacements c) →
     trace_of r = []).
Proof.
  intros Hmode entities r.
  assert (Hr : ∃ t1 t2,
            r = (Ret tt, set_gameBoard (fold_left addBoardEntity entities (gameBoard w)) w,
                 t1 ++ t2)
            ∧ (Forall (λ pos, pos.2 < pos.1) (snakePlacements c) → t1 = [])
            ∧ (Forall (λ pos, pos.1 < pos.2) (ladderPlacements c) → t2 = [])).
  { subst r entities. unfold CustomCountBoardSetupStrategy_setupBoard. rewrite Hmode.
    rewrite bind_run.
    destruct (place_snakes_if_free_run (snakePlacements c) w) as (t1 & -> & Hq1).
    destruct (place_ladders_if_free_run (ladderPlacements c)
                (set_gameBoard (fold_left addBoardEntity
                                  (map snake_entity (snakePlacements c)) (gameBoard w)) w))
      as (t2 & -> & Hq2).
    exists t1, t2. split; [|done]. rewrite fold_left_app. by destruct w. }
  destruct Hr as (t1 & t2 & Hr & Hq1 & Hq2). rewrite Hr.
  split; [done|]. split; [done|]. split.
  - intros cell. unfold world_of. cbn [fst snd].
    destruct w as [rs b fc q subs over h]. cbn [gameBoard set_gameBoard].
    apply getEntity_fold_left.
  - intros H1 H2. unfold trace_of. cbn [snd]. by rewrite Hq1, Hq2.
Qed.

Lemma custom_positions_first_come_witness :
  let c := addLadderPosition 40 5
             (addLadderPosition 62 80
                (addSnakePosition 62 3 (addSnakePosition 62 19 (CustomCount_new 7 0 false)))) in
  useRandomPlacement c = false
  ∧ outcome_of (CustomCountBoardSetupStrategy_setupBoard c (empty_world [])) = Ret tt
  ∧ getEntity (gameBoard (world_of (CustomCountBoardSetupStrategy_setupBoard c
                                      (empty_world [])))) 62
    = Some (mkBoardEntity SNAKE 62 19).
Proof.
  cbv zeta. split; [reflexivity|].
  destruct (custom_positions_first_come
              (addLadderPosition 40 5
                 (addLadderPosition 62 80
                    (addSnakePosition 62 3 (addSnakePosition 62 19 (CustomCount_new 7 0 false)))))
              (empty_world []) eq_refl) as (Hret & _ & Hcell & _).
  split; [exact Hret|]. etransitivity; [exact (Hcell 62)|]. vm_compute. reflexivity.
Defined.

(** ** The random strategies *)

Lemma btriple_rand (P : Board → Prop) :
  btriple P rand (λ r b, rand_ok r ∧ P b) P.
Proof.
  intros [[|r rest] b fc q subs over h] Hs HP; unfold supply_ok in *; cbn in *.
  - done.
  - apply Forall_cons in Hs as [Hr Hs]. done.
Qed.

(** The draws. *)

Lemma int_rem_pos (r d : Z) :
  rand_ok r → 0 < d → int_rem r d = Some (Z.rem r d) ∧ 0 <= Z.rem r d < d.
Proof.
  intros [Hr _] Hd. unfold int_rem.
  replace (d =? 0) with false by (symmetry; apply Z.eqb_neq; lia).
  replace (r =? INT_MIN) with false
    by (symmetry; apply Z.eqb_neq; unfold INT_MIN; lia).
  split; [done|]. by apply Z.rem_bound_pos.
Qed.

Lemma btriple_draw_snake (P : Board → Prop) (totalCells : Z) :
  10 < totalCells <= INT_MAX →
  btriple P (draw_snake totalCells)
    (λ '(s, e) b, (10 <= s < totalCells ∧ 1 <= e < s) ∧ P b) P.
Proof.
  intros Htc [rs b fc q subs over h] Hs HP. unfold supply_ok in Hs. cbn in Hs, HP.
  assert (Hsub : int_sub totalCells 10 = totalCells - 10).
  { apply int_wrap_exact. unfold int_range, INT_MIN, INT_MAX in *. lia. }
  unfold draw_snake. mrun. rewrite Hsub.
  destruct rs as [|r1 rs]; [done|]. apply Forall_cons in Hs as [Hr1 Hs].
  destruct (int_rem_pos r1 (totalCells - 10) Hr1 ltac:(lia)) as [Hrem1 Hb1].
  rewrite Hrem1. mrun.
  rewrite (int_add_exact _ 10) by (unfold int_range, INT_MIN, INT_MAX in *; lia).
  set (s := Z.rem r1 (totalCells - 10) + 10) in *.
  destruct rs as [|r2 rs]; [done|]. apply Forall_cons in Hs as [Hr2 Hs].
  assert (Hsub2 : int_sub s 1 = s - 1).
  { apply int_wrap_exact. unfold int_range, INT_MIN, INT_MAX in *. lia. }
  destruct (int_rem_pos r2 (s - 1) Hr2 ltac:(lia)) as [Hrem2 Hb2].
  rewrite Hsub2, Hrem2. mrun.
  rewrite int_add_exact by (unfold int_range, INT_MIN, INT_MAX in *; lia).
  split; [done|]. split; [|done]. split; [lia|done].
Qed.

Lemma btriple_draw_ladder (P : Board → Prop) (totalCells : Z) :
  10 < totalCells <= INT_MAX →
  btriple P (draw_ladder totalCells)
    (λ '(s, e) b, (1 <= s <= totalCells - 10 ∧ s < e <= totalCells) ∧ P b) P.
Proof.
  intros Htc [rs b fc q subs over h] Hs HP. unfold supply_ok in Hs. cbn in Hs, HP.
  assert (Hsub : int_sub totalCells 10 = totalCells - 10).
  { apply int_wrap_exact. unfold int_range, INT_MIN, INT_MAX in *. lia. }
  unfold draw_ladder. mrun. rewrite Hsub.
  destruct rs as [|r1 rs]; [done|]. apply Forall_cons in Hs as [Hr1 Hs].
  destruct (int_rem_pos r1 (totalCells - 10) Hr1 ltac:(lia)) as [Hrem1 Hb1].
  rewrite Hrem1. mrun.
  rewrite (int_add_exact _ 1) by (unfold int_range, INT_MIN, INT_MAX in *; lia).
  set (s := Z.rem r1 (totalCells - 10) + 1) in *.
  destruct rs as [|r2 rs]; [done|]. apply Forall_cons in Hs as [Hr2 Hs].
  assert (Hsub2 : int_sub totalCells s = totalCells - s).
  { apply int_wrap_exact. unfold int_range, INT_MIN, INT_MAX in *. lia. }
  destruct (int_rem_pos r2 (totalCells - s) Hr2 ltac:(lia)) as [Hrem2 Hb2].
  rewrite Hsub2, Hrem2. mrun.
  rewrite (int_add_exact (Z.rem r2 (totalCells - s)) s)
    by (unfold int_range, INT_MIN, INT_MAX in *; lia).
  rewrite int_add_exact by (unfold int_range, INT_MIN, INT_MAX in *; lia).
  split; [done|]. split; [|done]. split; [lia|done].
Qed.

Lemma placed_upto_mono (totalCells : Z) (l0 : list BoardEntity) (n m : nat) (b : Board) :
  (n ≤ m)%nat → placed_upto totalCells l0 n b → placed_upto totalCells l0 m b.
Proof.
  intros Hnm (Hsize & added & Hl & Hlen & Hok). split; [done|].
  exists added. split; [done|]. split; [lia|done].
Qed.

Lemma btriple_place (totalCells : Z) (l0 : list BoardEntity) (n : nat)
    (e : BoardEntity) (H : Board → Prop) :
  placed_ok totalCells e →
  btriple (λ b, canAddEntity b (getStart e) = true ∧ placed_upto totalCells l0 n b)
    (board_addBoardEntity e)
    (λ _ b, placed_upto totalCells l0 (S n) b) H.
Proof.
  intros Hok [rs b fc q subs over h] Hs [Hfree (Hsize & added & Hl & Hlen & Hadded)].
  cbn in Hfree, Hsize, Hl. mrun. split; [done|]. split; [|done].
  rewrite addBoardEntity_free by done. split; [done|]. cbn.
  exists (added ++ [e]). rewrite Hl, <- app_assoc. split; [done|].
  rewrite length_app. cbn. split; [lia|]. apply Forall_app. split; [done|].
  by apply Forall_singleton.
Qed.

(** One placement in a free cell. *)
Lemma place_snake_run (totalCells : Z) (l0 : list BoardEntity) (n : nat) (s e : Z)
    (w : World) :
  10 <= s < totalCells → 1 <= e < s →
  supply_ok w → placed_upto totalCells l0 n (gameBoard w) →
  canAddEntity (gameBoard w) s = true →
  ∃ w', (e' ← new_Snake s e; board_addBoardEntity e') w = (Ret tt, w', [])
        ∧ supply_ok w' ∧ placed_upto totalCells l0 (S n) (gameBoard w').
Proof.
  intros Hs He Hsup Hb Hfree.
  pose proof (btriple_place totalCells l0 n (mkBoardEntity SNAKE s e)
                (λ _, True) ltac:(done) w Hsup (conj Hfree Hb)) as Hplace.
  destruct w as [rs b fc q subs over h]. unfold new_Snake, Snake. mrun.
  rewrite Z.geb_leb, (proj2 (Z.leb_gt _ _)) by lia. mrun.
  eexists. split; [reflexivity|]. revert Hplace. mrun. tauto.
Qed.

Lemma place_ladder_run (totalCells : Z) (l0 : list BoardEntity) (n : nat) (s e : Z)
    (w : World) :
  1 <= s <= totalCells - 10 → s < e < totalCells →
  supply_ok w → placed_upto totalCells l0 n (gameBoard w) →
  canAddEntity (gameBoard w) s = true →
  ∃ w', (e' ← new_Ladder s e; board_addBoardEntity e') w = (Ret tt, w', [])
        ∧ supply_ok w' ∧ placed_upto totalCells l0 (S n) (gameBoard w').
Proof.
  intros Hs He Hsup Hb Hfree.
  pose proof (btriple_place totalCells l0 n (mkBoardEntity LADDER s e)
                (λ _, True) ltac:(done) w Hsup (conj Hfree Hb)) as Hplace.
  destruct w as [rs b fc q subs over h]. unfold new_Ladder, Ladder. mrun.
  rewrite (proj2 (Z.leb_gt _ _)) by lia. mrun.
  eexists. split; [reflexivity|]. revert Hplace. mrun. tauto.
Qed.

Lemma btriple_snake_attempts (totalCells : Z) (l0 : list BoardEntity) (n k : nat) :
  10 < totalCells <= INT_MAX →
  btriple (placed_upto totalCells l0 n) (snake_attempts k totalCells)
    (λ _ b, placed_upto totalCells l0 (S n) b) (placed_upto totalCells l0 (S n)).
Proof.
  intros Htc. induction k as [|k IH]; intros w Hs HP; cbn [snake_attempts].
  - split; [done|]. split; [|done]. eapply placed_upto_mono; [|done]. lia.
  - rewrite bind_run.
    pose proof (btriple_draw_snake (placed_upto totalCells l0 n) totalCells Htc w Hs HP)
      as Hd.
    destruct (draw_snake totalCells w) as [[[[s e]|h] w1] t1].
    + destruct Hd as (Hs1 & ([Hsb Heb] & HP1) & ->).
      unfold board_canAddEntity at 1. rewrite bind_run. cbn [gets].
      destruct (canAddEntity (gameBoard w1) s) eqn:Hfree.
      * destruct (place_snake_run totalCells l0 n s e w1) as (w2 & -> & Hs2 & HP2);
          done.
      * specialize (IH w1 Hs1 HP1).
        by destruct (snake_attempts k totalCells w1) as [[[[]|h] w2] t2].
    + destruct Hd as (-> & Hs1 & HP1 & ->). split; [done|]. split; [done|].
      split; [|done]. eapply placed_upto_mono; [|done]. lia.
Qed.

Lemma btriple_ladder_attempts (totalCells : Z) (l0 : list BoardEntity) (n k : nat) :
  10 < totalCells <= INT_MAX →
  btriple (placed_upto totalCells l0 n) (ladder_attempts k totalCells)
    (λ _ b, placed_upto totalCells l0 (S n) b) (placed_upto totalCells l0 (S n)).
Proof.
  intros Htc. induction k as [|k IH]; intros w Hs HP; cbn [ladder_attempts].
  - split; [done|]. split; [|done]. eapply placed_upto_mono; [|done]. lia.
  - rewrite bind_run.
    pose proof (btriple_draw_ladder (placed_upto totalCells l0 n) totalCells Htc w Hs HP)
      as Hd.
    destruct (draw_ladder totalCells w) as [[[[s e]|h] w1] t1].
    + destruct Hd as (Hs1 & ([Hsb Heb] & HP1) & ->).
      unfold board_canAddEntity at 1. rewrite bind_run. cbn [gets].
      destruct (canAddEntity (gameBoard w1) s) eqn:Hfree; cbn [andb].
      * destruct (e <? totalCells) eqn:Hlt.
        -- apply Z.ltb_lt in Hlt.
           destruct (place_ladder_run totalCells l0 n s e w1) as (w2 & -> & Hs2 & HP2);
             try done. lia.
        -- specialize (IH w1 Hs1 HP1).
           by destruct (ladder_attempts k totalCells w1) as [[[[]|h] w2] t2].
      * specialize (IH w1 Hs1 HP1).
        by destruct (ladder_attempts k totalCells w1) as [[[[]|h] w2] t2].
    + destruct Hd as (-> & Hs1 & HP1 & ->). split; [done|]. split; [done|].
      split; [|done]. eapply placed_upto_mono; [|done]. lia.
Qed.

Lemma btriple_for_each_count {A} (l : list A) (body : A → M unit)
    (totalCells : Z) (l0 : list BoardEntity) (n : nat) :
  (∀ x m, btriple (placed_upto totalCells l0 m) (body x)
            (λ _ b, placed_upto totalCells l0 (S m) b)
            (placed_upto totalCells l0 (S m))) →
  btriple (placed_upto totalCells l0 n) (for_each l body)
    (λ _ b, placed_upto totalCells l0 (n + length l) b)
    (placed_upto totalCells l0 (n + length l)).
Proof.
  intros Hbody. revert n. induction l as [|x l IH]; intros n w Hs HP; cbn [for_each].
  - split; [done|]. split; [|done]. eapply placed_upto_mono; [|done]. lia.
  - rewrite bind_run. specialize (Hbody x n w Hs HP).
    destruct (body x w) as [[[[]|h] w1] t1].
    + destruct Hbody as (Hs1 & HP1 & ->). specialize (IH (S n) w1 Hs1 HP1).
      cbn [length]. replace (n + S (length l))%nat with (S n + length l)%nat by lia.
      by destruct (for_each l body w1) as [[[[]|h] w2] t2].
    + destruct Hbody as (-> & Hs1 & HP1 & ->). split; [done|]. split; [done|].
      split; [|done]. eapply placed_upto_mono; [|done]. cbn. lia.
Qed.

Lemma btriple_setupWithProbability (below : Z → Q → bool) (p : Q)
    (totalCells : Z) (l0 : list BoardEntity) :
  10 < totalCells <= INT_MAX →
  btriple (placed_upto totalCells l0 0) (setupWithProbability below p)
    (λ _ b, placed_upto totalCells l0 (Z.to_nat (totalCells ÷ 10)) b)
    (placed_upto totalCells l0 (Z.to_nat (totalCells ÷ 10))).
Proof.
  intros Htc w Hs HP. unfold setupWithProbability. rewrite bind_run. cbn [gets].
  destruct HP as [Hsize HP]. rewrite Hsize.
  pose proof (btriple_for_each_count (seq 0 (Z.to_nat (totalCells ÷ 10)))
                (λ _, r ← rand;
                      if below r p
                      then snake_attempts 50 totalCells
                      else ladder_attempts 50 totalCells)
                totalCells l0 0) as Hloop.
  rewrite length_seq in Hloop. cbn [Nat.add] in Hloop.
  assert (Hbody : ∀ (x m : nat),
            btriple (placed_upto totalCells l0 m)
              (r ← rand;
               if below r p
               then snake_attempts 50 totalCells
               else ladder_attempts 50 totalCells)
              (λ _ b, placed_upto totalCells l0 (S m) b)
              (placed_upto totalCells l0 (S m))).
  { intros _ m w1 Hs1 HP1. rewrite bind_run.
    pose proof (btriple_rand (placed_upto totalCells l0 m) w1 Hs1 HP1) as Hr.
    destruct (rand w1) as [[[r|h] w2] t2].
    - destruct Hr as (Hs2 & [_ HP2] & ->).
      destruct (below r p).
      + pose proof (btriple_snake_attempts totalCells l0 m 50 Htc w2 Hs2 HP2) as Ha.
        by destruct (snake_attempts 50 totalCells w2) as [[[[]|h] w3] t3].
      + pose proof (btriple_ladder_attempts totalCells l0 m 50 Htc w2 Hs2 HP2) as Ha.
        by destruct (ladder_attempts 50 totalCells w2) as [[[[]|h] w3] t3].
    - destruct Hr as (-> & Hs2 & HP2 & ->). split; [done|]. split; [done|].
      split; [|done]. eapply placed_upto_mono; [|done]. lia. }
  specialize (Hloop Hbody w Hs (conj Hsize HP)).
  by destruct (for_each _ _ w) as [[[[]|h] w2] t2].
Qed.

(** X10. On a board of more than 10 cells, with a random source that
    behaves like [rand()], the random strategy has no undefined behaviour
    and prints nothing.  Whether it returns or runs out of random values,
    it has appended at most a tenth of the cell count of entities to the
    vector, and each of them is well formed: a snake starts on cell 10 or
    later and before the last cell and ends on an earlier cell, a ladder
    ends on a later cell than it starts on and before the last cell. *)
Theorem random_setup_places_well_formed (below : Z → Q → bool)
    (difficulty : Difficulty) (w : World) :
  10 < getBoardSize (gameBoard w) <= INT_MAX →
  supply_ok w →
  let r := RandomBoardSetupStrategy_setupBoard below difficulty w in
  (outcome_of r = Ret tt ∨ outcome_of r = Halt RandExhausted)
  ∧ trace_of r = []
  ∧ getBoardSize (gameBoard (world_of r)) = getBoardSize (gameBoard w)
  ∧ ∃ added,
      entitiesList (gameBoard (world_of r)) = entitiesList (gameBoard w) ++ added
      ∧ Z.of_nat (length added) <= getBoardSize (gameBoard w) ÷ 10
      ∧ Forall (placed_ok (getBoardSize (gameBoard w))) added.
Proof.
  intros Htc Hs r.
  assert (Hr : ∃ p, r = setupWithProbability below p w).
  { subst r. destruct difficulty; cbn; eauto. }
  destruct Hr as [p Hr].
  pose proof (btriple_setupWithProbability below p (getBoardSize (gameBoard w))
                (entitiesList (gameBoard w)) Htc w Hs) as Hrun.
  rewrite <- Hr in Hrun.
  assert (Hpre : placed_upto (getBoardSize (gameBoard w)) (entitiesList (gameBoard w)) 0
                   (gameBoard w)).
  { split; [done|]. exists []. by rewrite app_nil_r. }
  specialize (Hrun Hpre).
  assert (Hbound : ∀ added : list BoardEntity,
            (length added ≤ Z.to_nat (getBoardSize (gameBoard w) ÷ 10))%nat →
            Z.of_nat (length added) <= getBoardSize (gameBoard w) ÷ 10).
  { intros added Hlen.
    assert (0 <= getBoardSize (gameBoard w) ÷ 10) by (apply Z.quot_pos; lia). lia. }
  destruct r as [[[[]|h] w'] t]; unfold outcome_of, world_of, trace_of; cbn [fst snd].
  - destruct Hrun as (_ & (Hsize & added & Hl & Hlen & Hok) & ->).
    split; [by left|]. split; [done|]. split; [done|].
    exists added. auto.
  - destruct Hrun as (-> & _ & (Hsize & added & Hl & Hlen & Hok) & ->).
    split; [by right|]. split; [done|]. split; [done|].
    exists added. auto.
Qed.

Lemma random_setup_places_well_formed_witness :
  10 < getBoardSize (gameBoard (empty_world [1; 33; 7; 2; 55; 60; 3; 12; 40])) <= INT_MAX
  ∧ supply_ok (empty_world [1; 33; 7; 2; 55; 60; 3; 12; 40])
  ∧ trace_of (RandomBoardSetupStrategy_setupBoard (λ r _, r <? 2) MEDIUM
                (empty_world [1; 33; 7; 2; 55; 60; 3; 12; 40])) = []
  ∧ ∃ added,
      entitiesList (gameBoard (world_of
        (RandomBoardSetupStrategy_setupBoard (λ r _, r <? 2) MEDIUM
           (empty_world [1; 33; 7; 2; 55; 60; 3; 12; 40]))))
      = entitiesList (gameBoard (empty_world [1; 33; 7; 2; 55; 60; 3; 12; 40])) ++ added
      ∧ Forall (placed_ok (getBoardSize
                  (gameBoard (empty_world [1; 33; 7; 2; 55; 60; 3; 12; 40])))) added.
Proof.
  assert (Htc : 10 < getBoardSize
                       (gameBoard (empty_world [1; 33; 7; 2; 55; 60; 3; 12; 40]))
                <= INT_MAX) by (vm_compute; split; [reflexivity|discriminate]).
  assert (Hs : supply_ok (empty_world [1; 33; 7; 2; 55; 60; 3; 12; 40])).
  { repeat constructor; unfold INT_MAX; lia. }
  split; [exact Htc|]. split; [exact Hs|].
  destruct (random_setup_places_well_formed (λ r _, r <? 2) MEDIUM
              (empty_world [1; 33; 7; 2; 55; 60; 3; 12; 40]) Htc Hs)
    as (_ & Htr & _ & added & Hl & _ & Hok).
  split; [exact Htr|]. exists added. split; [exact Hl|exact Hok].
Defined.

Lemma bind_assoc {A B C} (m : M A) (f : A → M B) (g : B → M C) (w : World) :
  (m ≫= λ a, f a ≫= g) w = ((m ≫= f) ≫= g) w.
Proof.
  rewrite (bind_run (m ≫= f)), !(bind_run m).
  destruct (m w) as [[[a|h] w1] t1]; [|done].
  rewrite bind_run. destruct (f a w1) as [[[b|h] w2] t2]; [|done].
  destruct (g b w2) as [[o w3] t3]. by rewrite app_assoc.
Qed.

Lemma new_Snake_add_run (s e : Z) (w : World) :
  e < s →
  (e' ← new_Snake s e; board_addBoardEntity e') w
  = (Ret tt, set_gameBoard (addBoardEntity (gameBoard w) (mkBoardEntity SNAKE s e)) w, []).
Proof.
  intros Hse. destruct w as [rs b fc q subs over h]. unfold new_Snake, Snake. mrun.
  by rewrite Z.geb_leb, (proj2 (Z.leb_gt _ _)) by lia.
Qed.

Lemma new_Ladder_add_run (s e : Z) (w : World) :
  s < e →
  (e' ← new_Ladder s e; board_addBoardEntity e') w
  = (Ret tt, set_gameBoard (addBoardEntity (gameBoard w) (mkBoardEntity LADDER s e)) w, []).
Proof.
  intros Hse. destruct w as [rs b fc q subs over h]. unfold new_Ladder, Ladder. mrun.
  by rewrite (proj2 (Z.leb_gt _ _)) by lia.
Qed.

Lemma placed_exactly_add (totalCells : Z) (l0 : list BoardEntity) (k : EntityKind)
    (n : Z) (b : Board) (e : BoardEntity) :
  placed_exactly totalCells l0 k n b →
  canAddEntity b (getStart e) = true →
  kind e = k → placed_ok totalCells e →
  placed_exactly totalCells l0 k (n + 1) (addBoardEntity b e).
Proof.
  intros (Hsize & added & Hl & Hlen & Hok) Hfree Hk He.
  rewrite addBoardEntity_free by done. split; [done|]. cbn.
  exists (added ++ [e]). rewrite Hl, <- app_assoc. split; [done|].
  rewrite length_app. cbn. split; [lia|]. apply Forall_app. split; [done|].
  by apply Forall_singleton.
Qed.

Lemma btriple_custom_snakes (totalCells : Z) (l0 : list BoardEntity)
    (passes : nat) (added count : Z) :
  10 < totalCells <= INT_MAX → 0 <= added → count <= INT_MAX →
  btriple (placed_exactly totalCells l0 SNAKE added)
    (custom_snakes passes added count totalCells)
    (λ _ b, placed_exactly totalCells l0 SNAKE (Z.max added count) b)
    (λ _, True).
Proof.
  intros Htc. revert added. induction passes as [|n IH]; intros added Hadded Hcount w Hs HP;
    cbn [custom_snakes]; destruct (added <? count) eqn:Hlt;
    try (apply Z.ltb_ge in Hlt; rewrite Z.max_l by lia; done);
    apply Z.ltb_lt in Hlt; [done|].
  rewrite bind_run.
  pose proof (btriple_draw_snake (placed_exactly totalCells l0 SNAKE added)
                totalCells Htc w Hs HP) as Hd.
  destruct (draw_snake totalCells w) as [[[[s e]|h] w1] t1].
  - destruct Hd as (Hs1 & ([Hsb Heb] & HP1) & ->).
    unfold board_canAddEntity at 1. rewrite bind_run. cbn [gets].
    destruct (canAddEntity (gameBoard w1) s) eqn:Hfree.
    + rewrite (bind_assoc (new_Snake s e) board_addBoardEntity
                 (λ _, custom_snakes n (int_add added 1) count totalCells)).
      rewrite bind_run, new_Snake_add_run by lia.
      rewrite int_add_exact by (unfold int_range, INT_MIN, INT_MAX in *; lia).
      set (w2 := set_gameBoard (addBoardEntity (gameBoard w1) (mkBoardEntity SNAKE s e)) w1).
      assert (Hs2 : supply_ok w2) by (by destruct w1).
      assert (HP2 : placed_exactly totalCells l0 SNAKE (added + 1) (gameBoard w2)).
      { destruct w1. apply placed_exactly_add; done. }
      specialize (IH (added + 1) ltac:(lia) Hcount w2 Hs2 HP2).
      rewrite (Z.max_r (added + 1) count) in IH by lia.
      rewrite (Z.max_r added count) by lia.
      by destruct (custom_snakes n (added + 1) count totalCells w2) as [[[[]|h] w3] t3].
    + specialize (IH added Hadded Hcount w1 Hs1 HP1).
      by destruct (custom_snakes n added count totalCells w1) as [[[[]|h] w2] t2].
  - by destruct Hd as (-> & Hs1 & HP1 & ->).
Qed.

Lemma btriple_custom_ladders (totalCells : Z) (l0 : list BoardEntity)
    (passes : nat) (added count : Z) :
  10 < totalCells <= INT_MAX → 0 <= added → count <= INT_MAX →
  btriple (placed_exactly totalCells l0 LADDER added)
    (custom_ladders passes added count totalCells)
    (λ _ b, placed_exactly totalCells l0 LADDER (Z.max added count) b)
    (λ _, True).
Proof.
  intros Htc. revert added. induction passes as [|n IH]; intros added Hadded Hcount w Hs HP;
    cbn [custom_ladders]; destruct (added <? count) eqn:Hlt;
    try (apply Z.ltb_ge in Hlt; rewrite Z.max_l by lia; done);
    apply Z.ltb_lt in Hlt; [done|].
  rewrite bind_run.
  pose proof (btriple_draw_ladder (placed_exactly totalCells l0 LADDER added)
                totalCells Htc w Hs HP) as Hd.
  destruct (draw_ladder totalCells w) as [[[[s e]|h] w1] t1].
  - destruct Hd as (Hs1 & ([Hsb Heb] & HP1) & ->).
    unfold board_canAddEntity at 1. rewrite bind_run. cbn [gets].
    assert (Hskip : match custom_ladders n added count totalCells w1 with
                    | (Ret _, w', t) =>
                        supply_ok w'
                        ∧ placed_exactly totalCells l0 LADDER (Z.max added count)
                            (gameBoard w')
                        ∧ [] ++ t = []
                    | (Halt h, w', t) =>
                        h = RandExhausted ∧ supply_ok w' ∧ True ∧ [] ++ t = []
                    end).
    { specialize (IH added Hadded Hcount w1 Hs1 HP1).
      by destruct (custom_ladders n added count totalCells w1) as [[[[]|h] w2] t2]. }
    destruct (canAddEntity (gameBoard w1) s) eqn:Hfree; cbn [andb];
      [destruct (e <? totalCells) eqn:Hin|];
      try by destruct (custom_ladders n added count totalCells w1) as [[[[]|h] w2] t2].
    apply Z.ltb_lt in Hin.
    rewrite (bind_assoc (new_Ladder s e) board_addBoardEntity
               (λ _, custom_ladders n (int_add added 1) count totalCells)).
    rewrite bind_run, new_Ladder_add_run by lia.
    rewrite int_add_exact by (unfold int_range, INT_MIN, INT_MAX in *; lia).
    set (w2 := set_gameBoard (addBoardEntity (gameBoard w1) (mkBoardEntity LADDER s e)) w1).
    assert (Hs2 : supply_ok w2) by (by destruct w1).
    assert (HP2 : placed_exactly totalCells l0 LADDER (added + 1) (gameBoard w2)).
    { destruct w1. apply placed_exactly_add; try done. cbn. lia. }
    specialize (IH (added + 1) ltac:(lia) Hcount w2 Hs2 HP2).
    rewrite (Z.max_r (added + 1) count) in IH by lia.
    rewrite (Z.max_r added count) by lia.
    by destruct (custom_ladders n (added + 1) count totalCells w2) as [[[[]|h] w3] t3].
  - by destruct Hd as (-> & Hs1 & HP1 & ->).
Qed.

(** X11. With random placement, on a board of more than 10 cells and a
    random source that behaves like [rand()], the custom strategy has no
    undefined behaviour and prints nothing; and if it returns, it has
    appended to the vector exactly the requested number of snakes followed
    by exactly the requested number of ladders (none for a count that is
    not positive), every one of them well formed. *)
Theorem custom_random_places_exact_counts (c : CustomCount) (w : World) :
  useRandomPlacement c = true →
  10 < getBoardSize (gameBoard w) <= INT_MAX →
  supply_ok w →
  snakeCount c <= INT_MAX → ladderCount c <= INT_MAX →
  let r := CustomCountBoardSetupStrategy_setupBoard c w in
  (outcome_of r = Ret tt ∨ outcome_of r = Halt RandExhausted)
  ∧ trace_of r = []
  ∧ (outcome_of r = Ret tt →
     ∃ snakes ladders,
       entitiesList (gameBoard (world_of r))
       = entitiesList (gameBoard w) ++ snakes ++ ladders
       ∧ Z.of_nat (length snakes) = Z.max 0 (snakeCount c)
       ∧ Z.of_nat (length ladders) = Z.max 0 (ladderCount c)
       ∧ Forall (λ e, kind e = SNAKE ∧ placed_ok (getBoardSize (gameBoard w)) e) snakes
       ∧ Forall (λ e, kind e = LADDER ∧ placed_ok (getBoardSize (gameBoard w)) e) ladders).
Proof.
  intros Hmode Htc Hs Hsc Hlc r. subst r.
  unfold CustomCountBoardSetupStrategy_setupBoard. rewrite Hmode.
  rewrite bind_run. cbn [gets]. rewrite bind_run. cbn [gets].
  set (tc := getBoardSize (gameBoard w)) in *. set (l0 := entitiesList (gameBoard w)).
  rewrite bind_run.
  assert (HP : placed_exactly tc l0 SNAKE 0 (gameBoard w)).
  { split; [done|]. exists []. by rewrite app_nil_r. }
  pose proof (btriple_custom_snakes tc l0 (S (length (rands w))) 0 (snakeCount c)
                Htc ltac:(lia) Hsc w Hs HP) as Hsn.
  destruct (custom_snakes _ 0 (snakeCount c) tc w) as [[[[]|h] w1] t1];
    unfold outcome_of, world_of, trace_of; cbn [fst snd].
  2:{ destruct Hsn as (-> & _ & _ & ->). split; [by right|]. split; done. }
  destruct Hsn as (Hs1 & (Hsize1 & snakes & Hl1 & Hlen1 & Hok1) & ->).
  rewrite bind_run. cbn [gets].
  assert (HP1 : placed_exactly tc (l0 ++ snakes) LADDER 0 (gameBoard w1)).
  { split; [done|]. exists []. by rewrite app_nil_r. }
  pose proof (btriple_custom_ladders tc (l0 ++ snakes) (S (length (rands w1))) 0
                (ladderCount c) Htc ltac:(lia) Hlc w1 Hs1 HP1) as Hld.
  destruct (custom_ladders _ 0 (ladderCount c) tc w1) as [[[[]|h] w2] t2]; cbn [fst snd].
  2:{ destruct Hld as (-> & _ & _ & ->). split; [by right|]. split; done. }
  destruct Hld as (Hs2 & (Hsize2 & ladders & Hl2 & Hlen2 & Hok2) & ->).
  split; [by left|]. split; [done|]. intros _.
  exists snakes, ladders. rewrite Hl2, <- app_assoc. done.
Qed.

Lemma custom_random_places_exact_counts_witness :
  let c := CustomCount_new 1 1 true in
  let w := empty_world [25; 4; 7; 30] in
  useRandomPlacement c = true
  ∧ 10 < getBoardSize (gameBoard w) <= INT_MAX
  ∧ supply_ok w
  ∧ outcome_of (CustomCountBoardSetupStrategy_setupBoard c w) = Ret tt
  ∧ ∃ snakes ladders,
      entitiesList (gameBoard (world_of (CustomCountBoardSetupStrategy_setupBoard c w)))
      = entitiesList (gameBoard w) ++ snakes ++ ladders
      ∧ Z.of_nat (length snakes) = Z.max 0 (snakeCount c)
      ∧ Z.of_nat (length ladders) = Z.max 0 (ladderCount c).
Proof.
  cbv zeta.
  assert (Htc : 10 < getBoardSize (gameBoard (empty_world [25; 4; 7; 30])) <= INT_MAX)
    by (vm_compute; split; [reflexivity|discriminate]).
  assert (Hs : supply_ok (empty_world [25; 4; 7; 30])).
  { repeat constructor; unfold INT_MAX; lia. }
  assert (Hret : outcome_of (CustomCountBoardSetupStrategy_setupBoard
                               (CustomCount_new 1 1 true) (empty_world [25; 4; 7; 30]))
                 = Ret tt) by (vm_compute; reflexivity).
  split; [reflexivity|]. split; [exact Htc|]. split; [exact Hs|]. split; [exact Hret|].
  destruct (custom_random_places_exact_counts (CustomCount_new 1 1 true)
              (empty_world [25; 4; 7; 30]) eq_refl Htc Hs)
    as (_ & _ & Hdone); [vm_compute; discriminate|vm_compute; discriminate|].
  destruct (Hdone Hret) as (snakes & ladders & Hl & Hn1 & Hn2 & _).
  exists snakes, ladders. split; [exact Hl|]. split; [exact Hn1|exact Hn2].
Defined.

(** ** Edge cases of the random strategies *)

(** X12. On a board of fewer than 10 cells the random strategy has no
    slot to fill: it returns at once, draws no random value, prints
    nothing and leaves the state as it found it. *)
Theorem random_setup_small_board (below : Z → Q → bool) (difficulty : Difficulty)
    (w : World) :
  getBoardSize (gameBoard w) < 10 →
  RandomBoardSetupStrategy_setupBoard below difficulty w = (Ret tt, w, []).
Proof.
  intros Hsize.
  assert (Hslots : Z.to_nat (getBoardSize (gameBoard w) ÷ 10) = 0%nat).
  { destruct (decide (0 <= getBoardSize (gameBoard w))) as [Hpos|Hneg].
    - rewrite Z.quot_small by lia. done.
    - pose proof (Z.quot_opp_l (- getBoardSize (gameBoard w)) 10 ltac:(lia)) as Hq.
      rewrite Z.opp_involutive in Hq.
      assert (0 <= - getBoardSize (gameBoard w) ÷ 10) by (apply Z.quot_pos; lia). lia. }
  destruct difficulty; cbn [RandomBoardSetupStrategy_setupBoard];
    unfold setupWithProbability; rewrite bind_run; cbn [gets];
    rewrite Hslots; by destruct w.
Qed.

Lemma random_setup_small_board_witness :
  getBoardSize (gameBoard (SnakeAndLadderGame_new (Board_new 3) 6 [5; 8] ∅)) < 10
  ∧ RandomBoardSetupStrategy_setupBoard (λ _ _, true) HARD
      (SnakeAndLadderGame_new (Board_new 3) 6 [5; 8] ∅)
    = (Ret tt, SnakeAndLadderGame_new (Board_new 3) 6 [5; 8] ∅, []).
Proof.
  assert (Hsize : getBoardSize (gameBoard (SnakeAndLadderGame_new (Board_new 3) 6 [5; 8] ∅))
                  < 10) by (vm_compute; reflexivity).
  split; [exact Hsize|].
  exact (random_setup_small_board (λ _ _, true) HARD _ Hsize).
Defined.

(** X13. On a board of 1 to 5 cells (a 1x1 or a 2x2 board) the custom
    strategy with random placement and at least one ladder to place can
    divide by zero: when the first random value is the cell count less
    one, the ladder's start is the last cell and the end is drawn modulo
    zero. *)
Theorem custom_random_ladder_divides_by_zero (c : CustomCount) (w : World)
    (r2 : Z) (rest : list Z) :
  useRandomPlacement c = true →
  snakeCount c <= 0 → 1 <= ladderCount c →
  1 <= getBoardSize (gameBoard w) <= 5 →
  rands w = (getBoardSize (gameBoard w) - 1) :: r2 :: rest →
  outcome_of (CustomCountBoardSetupStrategy_setupBoard c w) = Halt Undefined.
Proof.
  intros Hmode Hsn Hld Hsize Hsupply.
  destruct w as [rs b fc q subs over h]. cbn in Hsize, Hsupply. subst rs.
  unfold CustomCountBoardSetupStrategy_setupBoard. rewrite Hmode.
  set (tc := getBoardSize b) in *.
  rewrite bind_run. cbn [gets gameBoard]. fold tc.
  rewrite bind_run. cbn [gets]. rewrite bind_run.
  cbn [custom_snakes]. replace (0 <? snakeCount c) with false
    by (symmetry; apply Z.ltb_ge; lia).
  cbn [mret M_ret ret]. rewrite bind_run. cbn [gets]. unfold ret.
  cbn [custom_ladders rands length]. replace (0 <? ladderCount c) with true
    by (symmetry; apply Z.ltb_lt; lia).
  assert (Hsub : int_sub tc 10 = tc - 10).
  { apply int_wrap_exact. unfold int_range, INT_MIN, INT_MAX. lia. }
  assert (Hrem : int_rem (tc - 1) (tc - 10) = Some (tc - 1)).
  { unfold int_rem.
    replace (tc - 10 =? 0) with false by (symmetry; apply Z.eqb_neq; lia).
    replace (tc - 1 =? INT_MIN) with false
      by (symmetry; apply Z.eqb_neq; unfold INT_MIN; lia).
    cbn [orb andb]. f_equal. apply Z.rem_small_iff; lia. }
  assert (Hstart : int_add (tc - 1) 1 = tc).
  { rewrite int_add_exact by (unfold int_range, INT_MIN, INT_MAX; lia). lia. }
  assert (Hzero : int_sub tc tc = 0).
  { unfold int_sub. rewrite Z.sub_diag. reflexivity. }
  unfold draw_ladder. mrun. rewrite Hsub, Hrem. mrun. rewrite Hstart, Hzero.
  unfold int_rem. cbn. reflexivity.
Qed.

Lemma custom_random_ladder_divides_by_zero_witness :
  let c := CustomCount_new 0 1 true in
  let w := SnakeAndLadderGame_new (Board_new 2) 6 [3; 0] ∅ in
  useRandomPlacement c = true
  ∧ snakeCount c <= 0 ∧ 1 <= ladderCount c
  ∧ 1 <= getBoardSize (gameBoard w) <= 5
  ∧ rands w = (getBoardSize (gameBoard w) - 1) :: 0 :: []
  ∧ outcome_of (CustomCountBoardSetupStrategy_setupBoard c w) = Halt Undefined.
Proof.
  cbv zeta.
  assert (Hsize : 1 <= getBoardSize (gameBoard (SnakeAndLadderGame_new (Board_new 2) 6 [3; 0] ∅))
                  <= 5) by (vm_compute; split; discriminate).
  split; [reflexivity|]. split; [vm_compute; discriminate|].
  split; [vm_compute; discriminate|].
  split; [exact Hsize|]. split; [reflexivity|].
  apply (custom_random_ladder_divides_by_zero (CustomCount_new 0 1 true)
           (SnakeAndLadderGame_new (Board_new 2) 6 [3; 0] ∅) 0 []);
    [reflexivity|vm_compute; discriminate|vm_compute; discriminate|exact Hsize|reflexivity].
Defined.

(** ** How many random values the random strategy needs *)

Lemma draws_bind {A B} (n k : nat) (m : M A) (f : A → M B) :
  draws_at_most n m → (∀ a, draws_at_most k (f a)) → draws_at_most (n + k) (m ≫= f).
Proof.
  intros Hm Hf w. rewrite bind_run. destruct (Hm w) as [Hlen Hexh].
  destruct (m w) as [[[a|h] w1] t1]; unfold outcome_of, world_of in *; cbn [fst snd] in *.
  - destruct (Hf a w1) as [Hlen1 Hexh1].
    destruct (f a w1) as [[o w2] t2]. unfold outcome_of, world_of in *. cbn [fst snd] in *.
    split; [lia|]. intros Ho. specialize (Hexh1 Ho). lia.
  - split; [lia|]. intros Ho. injection Ho as ->. specialize (Hexh eq_refl). lia.
Qed.

Lemma draws_weaken {A} (n k : nat) (m : M A) :
  (n ≤ k)%nat → draws_at_most n m → draws_at_most k m.
Proof. intros Hnk Hm w. destruct (Hm w) as [Hlen Hexh]. split; [lia|]. intros Ho. specialize (Hexh Ho). lia. Qed.

Lemma draws_none {A} (m : M A) :
  (∀ w, world_of (m w) = w ∧ outcome_of (m w) ≠ Halt RandExhausted) →
  draws_at_most 0 m.
Proof. intros Hm w. destruct (Hm w) as [-> Ho]. split; [lia|done]. Qed.

Lemma draws_rand : draws_at_most 1 rand.
Proof.
  intros [[|r rest] b fc q subs over h]; cbn; split; try lia; try done.
Qed.

Lemma draws_defined {A} (o : option A) : draws_at_most 0 (defined o).
Proof. apply draws_none. intros w. by destruct o. Qed.

Lemma draws_gets {A} (f : World → A) : draws_at_most 0 (gets f).
Proof. by apply draws_none. Qed.

Lemma draws_ret {A} (a : A) : draws_at_most 0 (mret a).
Proof. by apply draws_none. Qed.

Lemma draws_emit (t : list event) : draws_at_most 0 (emit t).
Proof. by apply draws_none. Qed.

Lemma draws_board_addBoardEntity (e : BoardEntity) :
  draws_at_most 0 (board_addBoardEntity e).
Proof. intros w. split; cbn; [lia|intros Ho; discriminate Ho]. Qed.

Lemma draws_draw_snake (totalCells : Z) : draws_at_most 2 (draw_snake totalCells).
Proof.
  unfold draw_snake.
  apply (draws_bind 1 1); [apply draws_rand|]. intros r1.
  apply (draws_bind 0 1); [apply draws_defined|]. intros m1.
  apply (draws_bind 1 0); [apply draws_rand|]. intros r2.
  apply (draws_bind 0 0); [apply draws_defined|]. intros m2. apply draws_ret.
Qed.

Lemma draws_draw_ladder (totalCells : Z) : draws_at_most 2 (draw_ladder totalCells).
Proof.
  unfold draw_ladder.
  apply (draws_bind 1 1); [apply draws_rand|]. intros r1.
  apply (draws_bind 0 1); [apply draws_defined|]. intros m1.
  apply (draws_bind 1 0); [apply draws_rand|]. intros r2.
  apply (draws_bind 0 0); [apply draws_defined|]. intros m2. apply draws_ret.
Qed.

Lemma draws_place_snake (s e : Z) :
  draws_at_most 0 (e' ← new_Snake s e; board_addBoardEntity e').
Proof.
  unfold new_Snake.
  apply (draws_bind 0 0); [|intros; apply draws_board_addBoardEntity].
  apply (draws_bind 0 0); [apply draws_emit|intros; apply draws_ret].
Qed.

Lemma draws_place_ladder (s e : Z) :
  draws_at_most 0 (e' ← new_Ladder s e; board_addBoardEntity e').
Proof.
  unfold new_Ladder.
  apply (draws_bind 0 0); [|intros; apply draws_board_addBoardEntity].
  apply (draws_bind 0 0); [apply draws_emit|intros; apply draws_ret].
Qed.

Lemma draws_snake_attempts (k : nat) (totalCells : Z) :
  draws_at_most (2 * k) (snake_attempts k totalCells).
Proof.
  induction k as [|k IH]; cbn [snake_attempts]; [apply draws_ret|].
  replace (2 * S k)%nat with (2 + 2 * k)%nat by lia.
  apply draws_bind; [apply draws_draw_snake|]. intros [s e].
  apply (draws_bind 0); [apply draws_gets|]. intros [|].
  - eapply draws_weaken; [|apply draws_place_snake]. lia.
  - exact IH.
Qed.

Lemma draws_ladder_attempts (k : nat) (totalCells : Z) :
  draws_at_most (2 * k) (ladder_attempts k totalCells).
Proof.
  induction k as [|k IH]; cbn [ladder_attempts]; [apply draws_ret|].
  replace (2 * S k)%nat with (2 + 2 * k)%nat by lia.
  apply draws_bind; [apply draws_draw_ladder|]. intros [s e].
  apply (draws_bind 0); [apply draws_gets|]. intros free.
  destruct (free && (e <? totalCells)).
  - eapply draws_weaken; [|apply draws_place_ladder]. lia.
  - exact IH.
Qed.

Lemma draws_for_each {A} (n : nat) (l : list A) (body : A → M unit) :
  (∀ x, draws_at_most n (body x)) → draws_at_most (n * length l) (for_each l body).
Proof.
  intros Hbody. induction l as [|x l IH]; cbn [for_each length].
  - rewrite Nat.mul_0_r. apply draws_ret.
  - replace (n * S (length l))%nat with (n + n * length l)%nat by lia.
    apply draws_bind; [apply Hbody|intros _; exact IH].
Qed.

(** X14. The retry cap bounds what the random strategy asks of the random
    source: one value to choose between snake and ladder and two for each
    of at most 50 attempts, so at most 101 values for each of its
    [cells / 10] slots.  On a board of more than 10 cells, with a source
    that behaves like [rand()] and holds that many values, the strategy
    returns, and it has taken no more than that many. *)
Theorem random_setup_draws_bounded (below : Z → Q → bool) (difficulty : Difficulty)
    (w : World) :
  let slots := Z.to_nat (getBoardSize (gameBoard w) ÷ 10) in
  let r := RandomBoardSetupStrategy_setupBoard below difficulty w in
  10 < getBoardSize (gameBoard w) <= INT_MAX →
  supply_ok w →
  (101 * slots ≤ length (rands w))%nat →
  outcome_of r = Ret tt
  ∧ (length (rands w) ≤ length (rands (world_of r)) + 101 * slots)%nat.
Proof.
  intros slots r Htc Hs Hlen.
  assert (Hloop : ∀ p tc, draws_at_most (101 * slots)
            (for_each (seq 0 slots)
               (λ _, r ← rand;
                     if below r p then snake_attempts 50 tc else ladder_attempts 50 tc))).
  { intros p tc.
    pose proof (draws_for_each 101 (seq 0 slots)
                  (λ _, r ← rand;
                        if below r p then snake_attempts 50 tc else ladder_attempts 50 tc))
      as Hfor.
    rewrite length_seq in Hfor. apply Hfor. intros _.
    apply (draws_bind 1 100); [apply draws_rand|]. intros r0.
    destruct (below r0 p);
      [apply (draws_snake_attempts 50)|apply (draws_ladder_attempts 50)]. }
  assert (Hr : ∃ p, r = setupWithProbability below p w).
  { subst r. destruct difficulty; cbn; eauto. }
  destruct Hr as [p Hr].
  assert (Hdraws : (length (rands w) ≤ length (rands (world_of r)) + 101 * slots)%nat
                   ∧ (outcome_of r = Halt RandExhausted →
                      (length (rands w) < 101 * slots)%nat)).
  { rewrite Hr. unfold setupWithProbability. rewrite bind_run. cbn [gets].
    fold slots. specialize (Hloop p (getBoardSize (gameBoard w)) w).
    destruct (for_each _ _ w) as [[o w2] t2]. exact Hloop. }
  destruct Hdraws as [Hused Hexh].
  pose proof (btriple_setupWithProbability below p (getBoardSize (gameBoard w))
                (entitiesList (gameBoard w)) Htc w Hs) as Hrun.
  rewrite <- Hr in Hrun.
  assert (Hpre : placed_upto (getBoardSize (gameBoard w)) (entitiesList (gameBoard w)) 0
                   (gameBoard w)).
  { split; [done|]. exists []. by rewrite app_nil_r. }
  specialize (Hrun Hpre).
  destruct r as [[[[]|h] w'] t]; unfold outcome_of, world_of in *; cbn [fst snd] in *.
  - split; [reflexivity|exact Hused].
  - destruct Hrun as (-> & _). specialize (Hexh eq_refl). lia.
Qed.

Lemma random_setup_draws_bounded_witness :
  let w := SnakeAndLadderGame_new (Board_new 4) 6 (replicate 101 7) ∅ in
  10 < getBoardSize (gameBoard w) <= INT_MAX
  ∧ supply_ok w
  ∧ (101 * Z.to_nat (getBoardSize (gameBoard w) ÷ 10) ≤ length (rands w))%nat
  ∧ outcome_of (RandomBoardSetupStrategy_setupBoard (λ r _, r <? 2) EASY w) = Ret tt.
Proof.
  cbv zeta.
  assert (Htc : 10 < getBoardSize
                       (gameBoard (SnakeAndLadderGame_new (Board_new 4) 6 (replicate 101 7) ∅))
                <= INT_MAX) by (vm_compute; split; [reflexivity|discriminate]).
  assert (Hs : supply_ok (SnakeAndLadderGame_new (Board_new 4) 6 (replicate 101 7) ∅)).
  { apply Forall_replicate. unfold rand_ok, INT_MAX. lia. }
  assert (Hlen : (101 * Z.to_nat (getBoardSize
                    (gameBoard (SnakeAndLadderGame_new (Board_new 4%Z) 6%Z
                                  (replicate 101 7%Z) ∅))
                    ÷ 10%Z)
                  ≤ length (rands (SnakeAndLadderGame_new (Board_new 4%Z) 6%Z
                                     (replicate 101 7%Z) ∅)))%nat).
  { apply (bool_decide_unpack _). vm_compute. reflexivity. }
  split; [exact Htc|]. split; [exact Hs|]. split; [exact Hlen|].
  exact (proj1 (random_setup_draws_bounded (λ r _, r <? 2) EASY
                  (SnakeAndLadderGame_new (Board_new 4) 6 (replicate 101 7) ∅)
                  Htc Hs Hlen)).
Defined.

(** ** Asking the custom strategy for more than the board can hold *)

Lemma NoDup_range_length (l : list Z) (lo hi : Z) :
  NoDup l → Forall (λ x, lo <= x < hi) l → Z.of_nat (length l) <= Z.max 0 (hi - lo).
Proof.
  intros Hnd Hin.
  assert (Hsub : l ⊆+ seqZ lo (Z.max 0 (hi - lo))).
  { apply NoDup_submseteq; [done|]. intros x Hx.
    rewrite Forall_forall in Hin. specialize (Hin x Hx).
    apply elem_of_seqZ. lia. }
  apply submseteq_length in Hsub. rewrite length_seqZ in Hsub. lia.
Qed.

(** X15. A snake can start on the cells 10 to [size - 1] only, and the
    snake loop of the custom strategy with random placement has no retry
    cap: asked for more snakes than these [size - 10] cells, on a board
    whose vector and map agree, it never returns.  Whatever the random
    source holds, the strategy ends for want of a random value. *)
Theorem custom_random_too_many_snakes (c : CustomCount) (w : World) :
  useRandomPlacement c = true →
  10 < getBoardSize (gameBoard w) <= INT_MAX →
  supply_ok w →
  board_sync (gameBoard w) →
  getBoardSize (gameBoard w) - 10 < snakeCount c <= INT_MAX →
  outcome_of (CustomCountBoardSetupStrategy_setupBoard c w) = Halt RandExhausted.
Proof.
  intros Hmode Htc Hs Hsync Hcount.
  unfold CustomCountBoardSetupStrategy_setupBoard. rewrite Hmode.
  rewrite bind_run. cbn [gets]. rewrite bind_run. cbn [gets]. rewrite bind_run.
  set (tc := getBoardSize (gameBoard w)) in *.
  set (passes := S (length (rands w))).
  assert (HP : placed_exactly tc (entitiesList (gameBoard w)) SNAKE 0 (gameBoard w)).
  { split; [done|]. exists []. by rewrite app_nil_r. }
  pose proof (btriple_custom_snakes tc (entitiesList (gameBoard w)) passes 0
                (snakeCount c) Htc ltac:(lia) ltac:(lia) w Hs HP) as Hrun.
  destruct (fed_custom_snakes passes 0 (snakeCount c) tc w) as [l Hfed].
  destruct (custom_snakes passes 0 (snakeCount c) tc w) as [[[[]|h] w1] t1];
    unfold world_of in Hfed; cbn [fst snd] in Hfed.
  - exfalso. destruct Hrun as (_ & (_ & added & Hl & Hlen & Hok) & _).
    assert (Hsync1 : board_sync (gameBoard w1)).
    { rewrite Hfed. by apply board_sync_fold_left. }
    destruct Hsync1 as [Hnd _]. rewrite Hl, map_app in Hnd.
    apply NoDup_app in Hnd as (_ & _ & Hnd).
    assert (Hin : Forall (λ x, 10 <= x < tc) (map getStart added)).
    { apply Forall_fmap. eapply Forall_impl; [exact Hok|].
      intros e [Hk He]. unfold placed_ok in He. rewrite Hk in He. cbn. lia. }
    pose proof (NoDup_range_length _ _ _ Hnd Hin) as Hle.
    rewrite length_map in Hle. lia.
  - by destruct Hrun as (-> & _).
Qed.

Lemma custom_random_too_many_snakes_witness :
  let c := CustomCount_new 7 0 true in
  let w := SnakeAndLadderGame_new (Board_new 4) 6 [12; 3; 12; 5; 13; 1] ∅ in
  useRandomPlacement c = true
  ∧ 10 < getBoardSize (gameBoard w) <= INT_MAX
  ∧ supply_ok w
  ∧ board_sync (gameBoard w)
  ∧ getBoardSize (gameBoard w) - 10 < snakeCount c <= INT_MAX
  ∧ outcome_of (CustomCountBoardSetupStrategy_setupBoard c w) = Halt RandExhausted.
Proof.
  cbv zeta.
  assert (Htc : 10 < getBoardSize
                       (gameBoard (SnakeAndLadderGame_new (Board_new 4) 6
                                     [12; 3; 12; 5; 13; 1] ∅))
                <= INT_MAX) by (vm_compute; split; [reflexivity|discriminate]).
  assert (Hs : supply_ok (SnakeAndLadderGame_new (Board_new 4) 6 [12; 3; 12; 5; 13; 1] ∅)).
  { repeat constructor; unfold INT_MAX; lia. }
  assert (Hsync : board_sync (gameBoard (SnakeAndLadderGame_new (Board_new 4) 6
                                           [12; 3; 12; 5; 13; 1] ∅)))
    by exact (board_sync_new 4).
  assert (Hcount : getBoardSize
                     (gameBoard (SnakeAndLadderGame_new (Board_new 4) 6
                                   [12; 3; 12; 5; 13; 1] ∅)) - 10
                   < snakeCount (CustomCount_new 7 0 true) <= INT_MAX)
    by (vm_compute; split; [reflexivity|discriminate]).
  split; [reflexivity|]. split; [exact Htc|]. split; [exact Hs|].
  split; [exact Hsync|]. split; [exact Hcount|].
  exact (custom_random_too_many_snakes (CustomCount_new 7 0 true)
           (SnakeAndLadderGame_new (Board_new 4) 6 [12; 3; 12; 5; 13; 1] ∅)
           eq_refl Htc Hs Hsync Hcount).
Defined.

(** ** Runs without signed overflow *)

Lemma int_add_strict_exact (a b : Z) :
  int_range (a + b) → int_add_strict a b = Some (int_add a b).
Proof.
  intros Hr. rewrite int_add_exact by done. unfold int_add_strict.
  destruct Hr as [Hlo Hhi].
  by rewrite (proj2 (Z.leb_le _ _) Hlo), (proj2 (Z.leb_le _ _) Hhi).
Qed.

Lemma isValidMove_strict_exact (currentPos diceValue boardSize : Z) :
  int_range (currentPos + diceValue) →
  isValidMove_strict currentPos diceValue boardSize
  = Some (isValidMove currentPos diceValue boardSize).
Proof. intros Hr. unfold isValidMove_strict. by rewrite int_add_strict_exact. Qed.

Lemma calculateNewPosition_strict_exact (currentPos diceValue : Z) (board : Board) :
  int_range (currentPos + diceValue) →
  calculateNewPosition_strict currentPos diceValue board
  = Some (calculateNewPosition currentPos diceValue board).
Proof. intros Hr. unfold calculateNewPosition_strict. by rewrite int_add_strict_exact. Qed.

Lemma incrementScore_strict_exact (p : SnakeAndLadderPlayer) :
  int_range (getScore p + 1) →
  incrementScore_strict p = Some (incrementScore p).
Proof. intros Hr. unfold incrementScore_strict. by rewrite int_add_strict_exact. Qed.

Lemma alter_as_insert {A} (f : A → A) (h : gmap nat A) (p : nat) (x : A) :
  h !! p = Some x → alter f p h = <[p := f x]> h.
Proof.
  intros Hp. apply map_eq. intros i. destruct (decide (p = i)) as [->|Hne].
  - by rewrite lookup_alter_eq, lookup_insert_eq, Hp.
  - by rewrite lookup_alter_ne, lookup_insert_ne.
Qed.

Ltac mrun_strict :=
  cbv beta iota zeta delta
    [mbind M_bind bind mret M_ret ret gets modify emit cout defined deref
     update_player update_player_strict notify rotate Dice_roll Dice_roll_strict
     rand halt_with head tail
     turnQueue playerHeap rands faceCount gameBoard subscriberList isGameOver
     set_rands set_gameBoard set_turnQueue set_subscriberList set_isGameOver
     set_playerHeap outcome_of world_of trace_of fst snd].

Lemma turn_strict_run (w : World) :
  supply_ok w →
  1 <= faceCount w →
  0 <= getBoardSize (gameBoard w) →
  getBoardSize (gameBoard w) + faceCount w <= INT_MAX →
  positions_inside w →
  scores_below w →
  turn_strict w = turn w.
Proof.
  intros Hs Hf Hsize Hmax Hpos Hsc.
  destruct w as [rs b fc tq subs over h].
  unfold supply_ok, positions_inside, scores_below in *. cbn in Hs, Hf, Hsize, Hmax, Hpos, Hsc.
  unfold turn_strict, turn. mrun_strict.
  destruct tq as [|p q]; [reflexivity|].
  destruct (h !! p) as [pl|] eqn:Hp; [|reflexivity].
  destruct rs as [|r rest]; [reflexivity|].
  apply Forall_cons in Hs as [[Hr0 Hr1] _].
  pose proof (Z.rem_bound_pos r fc Hr0 ltac:(lia)) as Hrem.
  assert (Hm : int_rem r fc = Some (Z.rem r fc)).
  { unfold int_rem.
    replace (fc =? 0) with false by (symmetry; apply Z.eqb_neq; lia).
    replace (r =? INT_MIN) with false
      by (symmetry; apply Z.eqb_neq; unfold INT_MIN; lia).
    reflexivity. }
  rewrite Hm. mrun_strict.
  rewrite (int_add_strict_exact (Z.rem r fc) 1)
    by (unfold int_range, INT_MIN, INT_MAX in *; lia).
  mrun_strict.
  assert (Hroll : int_add (Z.rem r fc) 1 = Z.rem r fc + 1).
  { apply int_add_exact. unfold int_range, INT_MIN, INT_MAX in *. lia. }
  destruct (Hpos p pl Hp) as [Hp0 Hp1]. destruct (Hsc p pl Hp) as [Hs0 Hs1].
  assert (Hsum : int_range (getPosition pl + int_add (Z.rem r fc) 1)).
  { rewrite Hroll. unfold int_range, INT_MIN, INT_MAX in *. lia. }
  rewrite isValidMove_strict_exact by done. mrun_strict.
  destruct (isValidMove (getPosition pl) (int_add (Z.rem r fc) 1) (getBoardSize b));
    [|reflexivity].
  rewrite int_add_strict_exact by done. mrun_strict.
  rewrite calculateNewPosition_strict_exact by done. mrun_strict.
  rewrite Hp. mrun_strict.
  set (newPos := calculateNewPosition (getPosition pl) (int_add (Z.rem r fc) 1) b).
  set (h1 := alter (setPosition newPos) p h).
  assert (Hh1 : h1 !! p = Some (setPosition newPos pl)).
  { unfold h1. by rewrite lookup_alter_eq, Hp. }
  repeat match goal with
  | |- context [match getEntity ?bb ?pos with _ => _ end] =>
      destruct (getEntity bb pos) as [entity|]
  | |- context [if String.eqb ?a ?bb then _ else _] => destruct (String.eqb a bb)
  end; mrun_strict;
  (match goal with
   | |- context [displayPlayerPositions ?W] =>
       pose proof (displayPlayerPositions_world W) as Hw;
       destruct (displayPlayerPositions W) as [[[[]|e] w'] t]; cbn in Hw; subst w'
   end).
  all: mrun_strict.
  all: try reflexivity.
  all: destruct (checkWinCondition newPos (getBoardSize b)); mrun_strict;
    [|reflexivity].
  all: rewrite Hh1; mrun_strict.
  all: rewrite (incrementScore_strict_exact (setPosition newPos pl))
    by (unfold getScore, setPosition, int_range, INT_MIN, INT_MAX in *; cbn; lia).
  all: mrun_strict.
  all: by rewrite (alter_as_insert incrementScore h1 p _ Hh1).
Qed.

Lemma play_loop_strict_unfold (passes : nat) (w : World) :
  play_loop_strict passes w =
  if isGameOver w then (Ret tt, w, [])
  else match passes with
       | O => (Halt RandExhausted, w, [])
       | S passes' =>
           match turn_strict w with
           | (Ret _, w1, t1) =>
               match play_loop_strict passes' w1 with (o, w2, t2) => (o, w2, t1 ++ t2) end
           | (Halt h, w1, t1) => (Halt h, w1, t1)
           end
       end.
Proof.
  destruct passes; cbn [play_loop_strict]; rewrite bind_run; cbn [gets];
    destruct (isGameOver w); try reflexivity.
  rewrite bind_run. destruct (turn_strict w) as [[[[]|h] w1] t1]; [|done].
  by destruct (play_loop_strict passes w1) as [[o w2] t2].
Qed.

(** A pass that does not win leaves every win counter as it was. *)
Lemma turn_step_scores_below (w w' : World) (k : turn_kind) :
  turn_step w k w' → scores_below w → isGameOver w' = false → scores_below w'.
Proof.
  intros Hk Hsc Hover.
  assert (Hq : ∃ p q, turnQueue w = p :: q).
  { destruct Hk; eauto. }
  destruct Hq as (p & q & Hq).
  destruct (turn_step_scores w w' k p q Hq Hk) as [Hother Hfront].
  rewrite (turn_step_isGameOver w w' k Hk) in Hover.
  intros x pl' Hx. destruct (decide (x = p)) as [->|Hne].
  - destruct k; [| |discriminate Hover]; rewrite Hx in Hfront; cbn in Hfront;
      destruct (playerHeap w !! p) as [pl|] eqn:Hp; try discriminate Hfront;
      injection Hfront as Heq; rewrite Heq; by eapply Hsc.
  - rewrite Hother in Hx by done. by eapply Hsc.
Qed.

Lemma play_loop_strict_run (passes : nat) (w : World) :
  game_wf w →
  1 <= faceCount w →
  0 <= getBoardSize (gameBoard w) →
  getBoardSize (gameBoard w) + faceCount w <= INT_MAX →
  ends_inside (gameBoard w) →
  positions_inside w →
  (isGameOver w = false → scores_below w) →
  play_loop_strict passes w = play_loop passes w.
Proof.
  revert w. induction passes as [|n IH]; intros w Hwf Hf Hsize Hmax Hends Hpos Hsc;
    rewrite play_loop_strict_unfold, play_loop_unfold; [done|].
  destruct (isGameOver w) eqn:Hover; [done|].
  rewrite (turn_strict_run w (proj2 (proj2 (proj2 Hwf))) Hf Hsize Hmax Hpos (Hsc eq_refl)).
  destruct (turn_wf_cases w Hwf) as [(k & w' & tr & Hrun & Hk & Hwf')|(tr & Hrun & _)];
    rewrite Hrun; [|done].
  destruct (turn_step_positions w w' k Hwf Hf Hsize Hmax Hends Hpos Hk)
    as (Hpos' & Hb & Hfc).
  rewrite IH; [done|done|..]; rewrite ?Hb, ?Hfc; try done.
  intros Hover'. eapply turn_step_scores_below; [done| |done]. by apply Hsc.
Qed.

Lemma display_counts_strict_acc (l : list BoardEntity) (s0 l0 : nat) :
  Z.of_nat (s0 + l0 + length l) <= INT_MAX →
  fold_left (λ counts entity,
               match counts with
               | Some (snakeCount, ladderCount) =>
                   if is_named "SNAKE" entity
                   then (λ n, (n, ladderCount)) <$> int_add_strict snakeCount 1
                   else (λ n, (snakeCount, n)) <$> int_add_strict ladderCount 1
               | None => None
               end)
            l (Some (Z.of_nat s0, Z.of_nat l0))
  = Some (fold_left (λ '(snakeCount, ladderCount) entity,
                       if is_named "SNAKE" entity
                       then (int_add snakeCount 1, ladderCount)
                       else (snakeCount, int_add ladderCount 1))
                    l (Z.of_nat s0, Z.of_nat l0)).
Proof.
  revert s0 l0. induction l as [|e l IH]; intros s0 l0 Hlen; [done|].
  cbn [fold_left length] in *.
  destruct (is_named "SNAKE" e).
  - rewrite int_add_strict_exact by (unfold int_range, INT_MIN, INT_MAX in *; lia).
    rewrite int_add_exact by (unfold int_range, INT_MIN, INT_MAX in *; lia).
    cbn [fmap option_fmap option_map].
    replace (Z.of_nat s0 + 1) with (Z.of_nat (S s0)) by lia.
    apply IH. lia.
  - rewrite int_add_strict_exact by (unfold int_range, INT_MIN, INT_MAX in *; lia).
    rewrite int_add_exact by (unfold int_range, INT_MIN, INT_MAX in *; lia).
    cbn [fmap option_fmap option_map].
    replace (Z.of_nat l0 + 1) with (Z.of_nat (S l0)) by lia.
    apply IH. lia.
Qed.

Lemma Board_display_strict_run (b : Board) (w : World) :
  Z.of_nat (length (entitiesList b)) <= INT_MAX →
  Board_display_strict b w = (Ret tt, w, Board_display b).
Proof.
  intros Hlen. unfold Board_display_strict, display_counts_strict.
  rewrite (display_counts_strict_acc _ 0 0) by done.
  change (Z.of_nat 0) with 0.
  unfold Board_display, display_counts.
  destruct (fold_left _ (entitiesList b) (0, 0)) as [snakeCount ladderCount].
  destruct w as [rs b0 fc q subs over h]. mrun. reflexivity.
Qed.

Lemma play_strict_run (w : World) :
  game_wf w →
  1 <= faceCount w →
  0 <= getBoardSize (gameBoard w) →
  getBoardSize (gameBoard w) + faceCount w <= INT_MAX →
  ends_inside (gameBoard w) →
  positions_inside w →
  scores_below w →
  Z.of_nat (length (entitiesList (gameBoard w))) <= INT_MAX →
  play_strict w = play w.
Proof.
  intros Hwf Hf Hsize Hmax Hends Hpos Hsc Hlen.
  unfold play_strict, play. rewrite !bind_run. cbn [gets].
  destruct (length (turnQueue w) <? 2)%nat; [done|].
  rewrite !bind_run.
  destruct (notify "Game initiated." w) as [[[[]|e] w1] t1] eqn:Hn; [|done].
  assert (Hw1 : w1 = w).
  { destruct w as [rs b fc q subs over h]. unfold notify in Hn. revert Hn. mrun. congruence. }
  subst w1. rewrite !bind_run. cbn [gets]. rewrite !bind_run.
  rewrite Board_display_strict_run by done. cbn [emit].
  rewrite !bind_run. cbn [gets].
  by rewrite play_loop_strict_run.
Qed.

(** The run of a well-formed game, in the wrapping reading. *)
Lemma play_ends_well_formed (w : World) :
  game_wf w →
  (2 ≤ length (turnQueue w))%nat →
  (outcome_of (play w) = Ret tt ∧ isGameOver (world_of (play w)) = true
   ∨ outcome_of (play w) = Halt RandExhausted
     ∧ isGameOver (world_of (play w)) = false
     ∧ rands (world_of (play w)) = [])
  ∧ game_wf (world_of (play w))
  ∧ turnQueue (world_of (play w)) ≡ₚ turnQueue w
  ∧ dom (playerHeap (world_of (play w))) = dom (playerHeap w).
Proof.
  intros Hwf Hlen. destruct (play_starts_loop w Hlen) as [-> ->].
  pose proof (play_loop_exhausts (S (length (rands w))) w Hwf (Nat.lt_succ_diag_r _))
    as Hexh.
  destruct (play_loop_invariant
              (λ w', turnQueue w' ≡ₚ turnQueue w
                     ∧ dom (playerHeap w') = dom (playerHeap w))
              ltac:(intros w1 k w2 _ _ [Hp Hd] Hk;
                    destruct (turn_step_queue _ _ _ Hk) as [Hp' Hd'];
                    split; [by rewrite Hp'|by rewrite Hd'])
              (S (length (rands w))) w Hwf ltac:(done))
    as ([Hperm Hdom] & Hwf' & Hend).
  split; [|done].
  destruct Hend as [[Ho Hover]|[Ho Hover]]; [by left|right]. auto.
Qed.

(** X3. Take a game with at least two queued players, every queued
    address holding a player, a dice of at least one face, a random
    source that behaves like [rand()], a board whose cell count plus the
    face count is an [int], whose jumps all end on the board and whose
    vector holds fewer than 2^31 entities, every player on the board and
    every win counter below [INT_MAX].  On such a game [play] has no
    undefined behaviour, signed overflow included: it never takes the
    front of an empty queue, never reads through a dangling address,
    never divides by zero, and no sum it computes leaves the range of
    [int], so that the checked run is the wrapping run.  It ends either
    with the game over, or with the game not over and every dice value
    used up.  The state it leaves is well formed again, and holds the same
    players at the same addresses, queued in some order. *)
Theorem play_never_undefined (w : World) :
  game_wf w →
  (2 ≤ length (turnQueue w))%nat →
  1 <= faceCount w →
  0 <= getBoardSize (gameBoard w) →
  getBoardSize (gameBoard w) + faceCount w <= INT_MAX →
  ends_inside (gameBoard w) →
  positions_inside w →
  scores_below w →
  Z.of_nat (length (entitiesList (gameBoard w))) <= INT_MAX →
  (outcome_of (play_strict w) = Ret tt ∧ isGameOver (world_of (play_strict w)) = true
   ∨ outcome_of (play_strict w) = Halt RandExhausted
     ∧ isGameOver (world_of (play_strict w)) = false
     ∧ rands (world_of (play_strict w)) = [])
  ∧ game_wf (world_of (play_strict w))
  ∧ turnQueue (world_of (play_strict w)) ≡ₚ turnQueue w
  ∧ dom (playerHeap (world_of (play_strict w))) = dom (playerHeap w)
  ∧ play_strict w = play w.
Proof.
  intros Hwf Hlen Hf Hsize Hmax Hends Hpos Hsc Hcount.
  rewrite (play_strict_run w Hwf Hf Hsize Hmax Hends Hpos Hsc Hcount).
  destruct (play_ends_well_formed w Hwf Hlen) as (Hend & Hwf' & Hperm & Hdom).
  done.
Qed.

Lemma play_never_undefined_witness :
  game_wf full_game
  ∧ (2 ≤ length (turnQueue full_game))%nat
  ∧ ends_inside (gameBoard full_game)
  ∧ positions_inside full_game
  ∧ scores_below full_game
  ∧ game_wf (world_of (play_strict full_game))
  ∧ play_strict full_game = play full_game.
Proof.
  assert (Hwf : game_wf full_game).
  { apply two_player_game_wf. repeat constructor; unfold INT_MAX; lia. }
  assert (Hlen : (2 ≤ length (turnQueue full_game))%nat) by (vm_compute; lia).
  assert (Hends : ends_inside (gameBoard full_game)).
  { apply (bool_decide_unpack (map_Forall (λ _ e, 0 <= getEnd e <= 100)
                                 (entityMap (gameBoard full_game)))).
    vm_compute. reflexivity. }
  assert (Hpos : positions_inside full_game).
  { apply (bool_decide_unpack (map_Forall (λ _ pl, 0 <= getPosition pl <= 100)
                                 (playerHeap full_game))).
    vm_compute. reflexivity. }
  assert (Hsc : scores_below full_game).
  { apply (bool_decide_unpack (map_Forall (λ _ pl, 0 <= getScore pl < INT_MAX)
                                 (playerHeap full_game))).
    vm_compute. reflexivity. }
  assert (Hf : 1 <= faceCount full_game) by (vm_compute; discriminate).
  assert (Hsize : 0 <= getBoardSize (gameBoard full_game)) by (vm_compute; discriminate).
  assert (Hmax : getBoardSize (gameBoard full_game) + faceCount full_game <= INT_MAX)
    by (vm_compute; discriminate).
  assert (Hcount : Z.of_nat (length (entitiesList (gameBoard full_game))) <= INT_MAX)
    by (vm_compute; discriminate).
  split; [exact Hwf|]. split; [exact Hlen|]. split; [exact Hends|].
  split; [exact Hpos|]. split; [exact Hsc|].
  destruct (play_never_undefined full_game Hwf Hlen Hf Hsize Hmax Hends Hpos Hsc Hcount)
    as (_ & Hwf' & _ & _ & Heq).
  split; [exact Hwf'|exact Heq].
Defined.

(** ** Where the sum does not fit *)

Lemma int_add_strict_overflow (a b : Z) :
  INT_MAX < a + b → int_add_strict a b = None.
Proof.
  intros Hab. unfold int_add_strict.
  rewrite (proj2 (Z.leb_gt (a + b) INT_MAX)) by lia. by rewrite andb_false_r.
Qed.

(** X16. A pass in which the front player's position plus the roll
    exceeds [INT_MAX] has undefined behaviour: the sum that [isValidMove]
    computes overflows.  The pass has then printed the prompt and the dice
    result, taken one random value, and changed nothing else. *)
Theorem turn_strict_overflow (w : World) (p : nat) (q : list nat)
    (pl : SnakeAndLadderPlayer) (r : Z) (rest : list Z) :
  turnQueue w = p :: q →
  playerHeap w !! p = Some pl →
  rands w = r :: rest →
  rand_ok r →
  1 <= faceCount w <= INT_MAX →
  INT_MAX < getPosition pl + (Z.rem r (faceCount w) + 1) →
  turn_strict w =
    (Halt Undefined, set_rands rest w,
     [Cout (endl +:+ getName pl +:+ "'s turn. Press Enter to roll the dice...");
      Cout ("Dice result: " +:+ to_string (Z.rem r (faceCount w) + 1) +:+ endl)]).
Proof.
  intros Hq Hp Hr [Hr0 Hr1] Hf Hsum.
  destruct w as [rs b fc tq subs over h]. cbn in Hq, Hp, Hr, Hf, Hsum. subst tq rs.
  pose proof (Z.rem_bound_pos r fc Hr0 ltac:(lia)) as Hrem.
  assert (Hm : int_rem r fc = Some (Z.rem r fc)).
  { unfold int_rem.
    replace (fc =? 0) with false by (symmetry; apply Z.eqb_neq; lia).
    replace (r =? INT_MIN) with false
      by (symmetry; apply Z.eqb_neq; unfold INT_MIN; lia).
    reflexivity. }
  assert (Hroll : int_add (Z.rem r fc) 1 = Z.rem r fc + 1).
  { apply int_add_exact. unfold int_range, INT_MIN, INT_MAX in *. lia. }
  unfold turn_strict. mrun_strict. rewrite Hp. mrun_strict. rewrite Hm. mrun_strict.
  rewrite (int_add_strict_exact (Z.rem r fc) 1)
    by (unfold int_range, INT_MIN, INT_MAX in *; lia).
  mrun_strict. rewrite Hroll. unfold isValidMove_strict.
  rewrite int_add_strict_overflow by done. reflexivity.
Qed.

Lemma turn_strict_overflow_witness :
  let w := two_player_game 2147483647 [0; 3] in
  turnQueue w = [1; 2]%nat
  ∧ playerHeap w !! 1%nat
    = Some (setPosition 2147483647 (SnakeAndLadderPlayer_new 1 "Asha"))
  ∧ rands w = [0; 3]
  ∧ rand_ok 0
  ∧ 1 <= faceCount w <= INT_MAX
  ∧ outcome_of (turn_strict w) = Halt Undefined
  ∧ outcome_of (turn w) = Ret tt.
Proof.
  cbv zeta.
  assert (Hq : turnQueue (two_player_game 2147483647 [0; 3]) = [1; 2]%nat)
    by (vm_compute; reflexivity).
  assert (Hp : playerHeap (two_player_game 2147483647 [0; 3]) !! 1%nat
               = Some (setPosition 2147483647 (SnakeAndLadderPlayer_new 1 "Asha")))
    by (vm_compute; reflexivity).
  assert (Hr : rands (two_player_game 2147483647 [0; 3]) = [0; 3])
    by (vm_compute; reflexivity).
  assert (Hok : rand_ok 0) by (unfold rand_ok, INT_MAX; lia).
  assert (Hf : 1 <= faceCount (two_player_game 2147483647 [0; 3]) <= INT_MAX)
    by (vm_compute; split; discriminate).
  assert (Hsum : INT_MAX
                 < getPosition (setPosition 2147483647 (SnakeAndLadderPlayer_new 1 "Asha"))
                   + (Z.rem 0 (faceCount (two_player_game 2147483647 [0; 3])) + 1))
    by (vm_compute; reflexivity).
  split; [exact Hq|]. split; [exact Hp|]. split; [exact Hr|]. split; [exact Hok|].
  split; [exact Hf|]. split.
  - exact (f_equal outcome_of
             (turn_strict_overflow (two_player_game 2147483647 [0; 3]) 1%nat [2%nat]
                _ 0 [3] Hq Hp Hr Hok Hf Hsum)).
  - vm_compute. reflexivity.
Defined.
